(** * audio-my-book: a shallow embedding of [audio_my_book/main.py]

    The program reads a plain-text book, finds the chapter headings with a
    regular expression, keeps the chapters whose title matches the glob
    [Chapter *], cuts every kept chapter into chunks and asks a
    text-to-speech service for one audio file per chunk, retrying on
    rate-limit errors.

    The development follows the source top to bottom:
    - Python strings are lists of code points, offsets are integers;
    - [re], [fnmatch], [pathlib] and string formatting are modelled for the
      patterns and calls the program makes;
    - the coroutines are programs of a small monad whose operations are the
      calls the source makes ([click.echo], [Path.write_text],
      [Path.exists], the speech request, [astream_to_file],
      [asyncio.sleep]);
    - the two nested task groups are a step relation over a pool of chunk
      tasks that share one file system. *)

From Stdlib Require Import ZArith Lia Ascii String.
From stdpp Require Import base tactics option list gmap.

Local Open Scope Z_scope.

(** ** Python strings *)

(** A Python [str] is a sequence of Unicode code points. *)
Abbreviation char := N.
Abbreviation str := (list N).

(** ASCII literals of the source, as code points. *)
Definition lit (x : string) : str :=
  (fun a => Ascii.N_of_ascii a) <$> list_ascii_of_string x.

Definition char_in (lo hi c : char) : bool := ((lo <=? c) && (c <=? hi))%N.

(** The character class [[a-zA-Z0-9]]. *)
Definition is_alnum (c : char) : bool :=
  (char_in 97 122 c || char_in 65 90 c || char_in 48 57 c)%N.

(** [\s] of a [str] pattern: the characters for which [str.isspace] holds. *)
Definition is_space (c : char) : bool :=
  (char_in 9 13 c || char_in 28 32 c
   || (c =? 133) || (c =? 160) || (c =? 5760)
   || char_in 8192 8202 c || (c =? 8232) || (c =? 8233)
   || (c =? 8239) || (c =? 8287) || (c =? 12288))%N.

(** [.] without [re.DOTALL]: anything but a line feed. *)
Definition is_dot (c : char) : bool := negb (c =? 10)%N.

Definition underscore : char := 95%N.
Definition hash : char := 35%N.
Definition dot : char := 46%N.
Definition zero_char : char := 48%N.

(** [slugify]: [re.sub] replaces every match of the negated class
    [[^a-zA-Z0-9]] by an underscore. Every match is one character. *)
Definition slugify (chapter_title : str) : str :=
  (fun c => if is_alnum c then c else underscore) <$> chapter_title.

(** ** Exceptions and results *)

Inductive exn : Type :=
| RateLimitError            (* openai.RateLimitError and its subclasses *)
| CancelledError            (* asyncio.CancelledError *)
| IndexError
| ValueError
| OtherError (id : nat).    (* any other exception class *)

#[global] Instance exn_eq_dec : EqDecision exn.
Proof. solve_decision. Defined.

Inductive outcome (A : Type) : Type :=
| Ok (a : A)
| Exc (e : exn).
Arguments Ok {A} a.
Arguments Exc {A} e.

#[global] Instance outcome_eq_dec {A} `{EqDecision A} : EqDecision (outcome A).
Proof. solve_decision. Defined.

(** ** The segmenter: [re.finditer] with the heading pattern

    The pattern is a hash, one or more [\s], then group 1: a greedy run of
    [.] (the rest of the line). It has no anchor and no flag. *)

Fixpoint span_while {A} (f : A -> bool) (l : list A) : list A * list A :=
  match l with
  | [] => ([], [])
  | x :: l' =>
      if f x then let '(a, b) := span_while f l' in (x :: a, b)
      else ([], l)
  end.

(** The pattern tried at the head of [t]: a [#], a greedy non-empty run of
    [\s], then group 1, the greedy run of [.]. Group 1 may be empty, so the
    first greedy attempt never has to backtrack. The result is the length
    of the match and group 1. *)
Definition match_here (t : str) : option (nat * str) :=
  match t with
  | [] => None
  | c :: rest =>
      if (c =? hash)%N then
        let '(ws, after) := span_while is_space rest in
        match ws with
        | [] => None
        | _ :: _ =>
            let '(title, _) := span_while is_dot after in
            Some (S (length ws + length title), title)
        end
      else None
  end.

(** A match object: [match.start()], [match.end()] and [match.group(1)]. *)
Record re_match := ReMatch { m_start : nat; m_end : nat; m_group1 : str }.

(** [finditer]: matches are searched left to right and do not overlap; the
    search resumes where the last match ended. [skip] counts the characters
    of the current match that are still to be passed over. *)
Fixpoint finditer_from (pos skip : nat) (t : str) : list re_match :=
  match t with
  | [] => []
  | c :: t' =>
      match skip with
      | S k => finditer_from (S pos) k t'
      | O =>
          match match_here (c :: t') with
          | Some (len, title) =>
              ReMatch pos (pos + len) title
                :: finditer_from (S pos) (Nat.pred len) t'
          | None => finditer_from (S pos) 0 t'
          end
      end
  end.

Definition finditer (text : str) : list re_match := finditer_from 0 0 text.

(** Lines 64-68: [chapters], the list of [(match.start(), match.group(1))]. *)
Definition find_chapters (text : str) : list (Z * str) :=
  (fun m => (Z.of_nat (m_start m), m_group1 m)) <$> finditer text.

(** ** The chapter filter: [fnmatch.fnmatch] with the glob [Chapter *] *)

Definition star : char := 42%N.
Definition qmark : char := 63%N.

(** [fnmatch.fnmatchcase] for patterns made of literal characters, [*] and
    [?] (the program's pattern has no bracket expression). On POSIX
    [fnmatch.fnmatch] is [fnmatchcase]: [os.path.normcase] is the identity. *)
Fixpoint fnmatch (pat : str) (name : str) : bool :=
  match pat with
  | [] => match name with [] => true | _ :: _ => false end
  | p :: pat' =>
      if (p =? star)%N then
        (fix any (n : str) : bool :=
           fnmatch pat' n ||
           match n with [] => false | _ :: n' => any n' end) name
      else
        match name with
        | [] => false
        | c :: name' =>
            ((p =? qmark)%N || (p =? c)%N) && fnmatch pat' name'
        end
  end.

Definition chapter_glob : str := lit "Chapter *".

(** [enumerate(l, start)] and [enumerate(l)]. *)
Fixpoint enumerate_from {A} (start : nat) (l : list A) : list (nat * A) :=
  match l with
  | [] => []
  | x :: l' => (start, x) :: enumerate_from (S start) l'
  end.

Definition enumerate {A} (l : list A) : list (nat * A) := enumerate_from 0 l.

(** Line 77, the end offset of the chapter at [idx]:
    [chapters[idx + 1][0] if idx < len(chapters) else -1].
    Indexing a list past its end raises [IndexError]. *)
Definition chapter_end (chapters : list (Z * str)) (idx : nat) : outcome Z :=
  if (idx <? length chapters)%nat then
    match chapters !! (idx + 1)%nat with
    | Some next => Ok (fst next)
    | None => Exc IndexError
    end
  else Ok (-1).

(** Lines 71-77: the loop that fills [selected_chapters] with
    [(start, end, title)]. An exception leaves the loop at once. *)
Fixpoint select_loop (chapters : list (Z * str))
    (items : list (nat * (Z * str))) (selected_chapters : list (Z * Z * str))
  : outcome (list (Z * Z * str)) :=
  match items with
  | [] => Ok selected_chapters
  | (idx, chapter) :: items' =>
      if fnmatch chapter_glob (snd chapter) then
        match chapter_end chapters idx with
        | Ok e =>
            select_loop chapters items'
              (selected_chapters ++ [(fst chapter, e, snd chapter)])
        | Exc x => Exc x
        end
      else select_loop chapters items' selected_chapters
  end.

Definition select_chapters (chapters : list (Z * str))
  : outcome (list (Z * Z * str)) :=
  select_loop chapters (enumerate chapters) [].

(** Python's slice [l[start:stop]]: a negative bound counts from the end,
    and both bounds are clamped to the list. *)
Definition slice_bound (n i : Z) : Z :=
  if i <? 0 then Z.max (i + n) 0 else Z.min i n.

Definition slice {A} (l : list A) (start stop : Z) : list A :=
  let n := Z.of_nat (length l) in
  let lo := slice_bound n start in
  let hi := slice_bound n stop in
  take (Z.to_nat (hi - lo)) (drop (Z.to_nat lo) l).

(** ** File names

    [f"{slugify(chapter_title)}---{i:0>3}.mp3"] *)

Definition digit_char (d : nat) : char := (48 + N.of_nat d)%N.

(** [str(i)] for a non-negative [int]: the decimal digits, most significant
    first, no leading zero. *)
Fixpoint decimal_digits (fuel n : nat) (acc : str) : str :=
  let acc' := digit_char (n mod 10) :: acc in
  match fuel with
  | O => acc'
  | S fuel' =>
      if (n <? 10)%nat then acc' else decimal_digits fuel' (n / 10) acc'
  end.

Definition str_of_nat (n : nat) : str := decimal_digits n n [].

(** The format spec [0>3]: right-aligned in a field of width 3, filled with
    the character [0]. A longer string is left as it is. *)
Definition format_index (i : nat) : str :=
  let digits := str_of_nat i in
  replicate (3 - length digits) zero_char ++ digits.

Definition speech_name (chapter_title : str) (i : nat) : str :=
  slugify chapter_title ++ lit "---" ++ format_index i ++ lit ".mp3".

(** ** Paths

    A [pathlib.Path]: the anchor (drive and root) and the components. *)
Record Path := MkPath { anchor : str; parts : list str }.

#[global] Instance Path_eq_dec : EqDecision Path.
Proof. solve_decision. Defined.

#[global] Instance Path_countable : Countable Path.
Proof.
  refine (inj_countable' (fun p => (anchor p, parts p))
                         (fun x => MkPath (fst x) (snd x)) _).
  by intros [].
Defined.

(** [Path.parent]: one component less; the anchor alone is its own parent. *)
Definition parent (p : Path) : Path :=
  MkPath (anchor p) (removelast (parts p)).

(** [p / name] for a [name] that is one component (no separator in it). *)
Definition joinpath (p : Path) (name : str) : Path :=
  MkPath (anchor p) (parts p ++ [name]).

(** [Path.name]: the last component, or the empty string. *)
Definition name (p : Path) : str := List.last (parts p) [].

(** [str.rfind] of one character. *)
Fixpoint rfind (c : char) (s : str) : option nat :=
  match s with
  | [] => None
  | x :: s' =>
      match rfind c s' with
      | Some i => Some (S i)
      | None => if (x =? c)%N then Some 0%nat else None
      end
  end.

(** [Path.suffix]: the name from its last dot on, when that dot is neither
    the first nor the last character. *)
Definition suffix (p : Path) : str :=
  match rfind dot (name p) with
  | Some i =>
      if ((0 <? i) && (i <? length (name p) - 1))%nat
      then drop i (name p) else []
  | None => []
  end.

(** [Path.with_suffix] for a well-formed new suffix (it starts with a dot,
    is not a lone dot and holds no separator): a path without a name raises
    [ValueError], otherwise the old suffix is cut off and the new one put
    in its place. *)
Definition with_suffix (p : Path) (new_suffix : str) : outcome Path :=
  match name p with
  | [] => Exc ValueError
  | _ :: _ =>
      let old_suffix := suffix p in
      let stem := take (length (name p) - length old_suffix) (name p) in
      Ok (MkPath (anchor p) (removelast (parts p) ++ [stem ++ new_suffix]))
  end.

(** The file system: which paths exist, and what they hold. *)
Abbreviation filesystem := (gmap Path (list N)).

Definition exists_ (fs : filesystem) (p : Path) : bool :=
  bool_decide (is_Some (fs !! p)).

(** ** Console messages and observable events *)

Inductive msg : Type :=
| MsgProcessingChunk (file_name : str)
| MsgCompletedChunk (file_name : str)
| MsgRateLimit (file_name : str) (retry_delay : Z)
| MsgFailedChunk (file_name : str)
| MsgProcessingChapter (chapter_title : str)
| MsgSkipping (speech_filename : Path)
| MsgCompletedChapter (chapter_title : str).

(** The body of a speech response: the audio bytes. *)
Abbreviation response := (list N) (only parsing).

Inductive event : Type :=
| EvEcho (m : msg)
| EvWriteText (p : Path) (data : str)          (* a text file is written *)
| EvRequest (model voice input : str)          (* a synthesis request is issued *)
| EvAudio (p : Path) (r : response)            (* an audio file is written *)
| EvSleep (delay : Z).                         (* a sleep begins *)

(** ** Coroutines

    A coroutine is a tree of the calls it makes. [Echo] and [WriteText] are
    synchronous; [SpeechCreate], [StreamToFile] and [Sleep] are awaited: the
    coroutine is suspended there and resumed with the result of the call or
    with an exception thrown into it. *)
Inductive prog (A : Type) : Type :=
| Ret (a : A)
| Raise (e : exn)
| OutOfFuel
| Echo (m : msg) (k : prog A)
| WriteText (p : Path) (data : str) (k : prog A)
| SpeechCreate (model voice input : str) (k : outcome response -> prog A)
| StreamToFile (r : response) (p : Path) (k : outcome unit -> prog A)
| Sleep (delay : Z) (k : outcome unit -> prog A).
Arguments Ret {A} a.
Arguments Raise {A} e.
Arguments OutOfFuel {A}.
Arguments Echo {A} m k.
Arguments WriteText {A} p data k.
Arguments SpeechCreate {A} model voice input k.
Arguments StreamToFile {A} r p k.
Arguments Sleep {A} delay k.

Fixpoint bind {A B} (t : prog A) (f : A -> prog B) : prog B :=
  match t with
  | Ret a => f a
  | Raise e => Raise e
  | OutOfFuel => OutOfFuel
  | Echo m k => Echo m (bind k f)
  | WriteText p data k => WriteText p data (bind k f)
  | SpeechCreate mo vo i k => SpeechCreate mo vo i (fun o => bind (k o) f)
  | StreamToFile r p k => StreamToFile r p (fun o => bind (k o) f)
  | Sleep d k => Sleep d (fun o => bind (k o) f)
  end.

Declare Scope prog_scope.
Delimit Scope prog_scope with prog.
Notation "x <- t ;; k" := (bind t (fun x => k))
  (at level 100, t at next level, right associativity) : prog_scope.
Notation "t ;; k" := (bind t (fun _ => k))
  (at level 100, right associativity) : prog_scope.

(** [try: body  except ...: handler]. The handler says which exceptions it
    takes; any other exception goes on. *)
Fixpoint try_except {A} (body : prog A) (handler : exn -> option (prog A))
  : prog A :=
  match body with
  | Ret a => Ret a
  | Raise e => match handler e with Some h => h | None => Raise e end
  | OutOfFuel => OutOfFuel
  | Echo m k => Echo m (try_except k handler)
  | WriteText p data k => WriteText p data (try_except k handler)
  | SpeechCreate mo vo i k =>
      SpeechCreate mo vo i (fun o => try_except (k o) handler)
  | StreamToFile r p k => StreamToFile r p (fun o => try_except (k o) handler)
  | Sleep d k => Sleep d (fun o => try_except (k o) handler)
  end.

Definition lift {A} (o : outcome A) : prog A :=
  match o with Ok a => Ret a | Exc e => Raise e end.

Definition echo (m : msg) : prog unit := Echo m (Ret tt).
Definition write_text (p : Path) (data : str) : prog unit :=
  WriteText p data (Ret tt).
Definition speech_create (model voice input : str) : prog response :=
  SpeechCreate model voice input lift.
Definition astream_to_file (r : response) (p : Path) : prog unit :=
  StreamToFile r p lift.
Definition sleep (delay : Z) : prog unit := Sleep delay lift.

(** ** [_process_chunk] (lines 22-42) *)

Definition tts_model : str := lit "tts-1".
Definition tts_voice : str := lit "fable".
Definition default_max_retries : Z := 10.
Definition default_retry_delay : Z := 5.

(** Lines 30-33, the body of the [try]. *)
Definition attempt (chunk : str) (speech_filename : Path) : prog unit :=
  (response <- speech_create tts_model tts_voice chunk ;;
   astream_to_file response speech_filename ;;
   echo (MsgCompletedChunk (name speech_filename)))%prog.

(** Lines 28-37. Each turn of the [while] takes one unit of fuel; the loop
    state is [(success, retries)]. Only [openai.RateLimitError] has a
    handler; the handler itself runs outside the [try]. *)
Fixpoint retry_loop (fuel : nat) (chunk : str) (speech_filename : Path)
    (max_retries retry_delay : Z) (success : bool) (retries : Z)
  : prog (bool * Z) :=
  if negb success && (retries <? max_retries) then
    match fuel with
    | O => OutOfFuel
    | S fuel' =>
        (st <- try_except
                 (attempt chunk speech_filename ;; Ret (true, retries))
                 (fun e =>
                    match e with
                    | RateLimitError =>
                        Some (echo (MsgRateLimit (name speech_filename)
                                                 retry_delay) ;;
                              sleep retry_delay ;;
                              Ret (success, retries + 1))
                    | _ => None
                    end) ;;
         retry_loop fuel' chunk speech_filename max_retries retry_delay
                    (fst st) (snd st))%prog
    end
  else Ret (success, retries).

Definition _process_chunk_fuel (fuel : nat) (chunk : str)
    (speech_filename : Path) (max_retries retry_delay : Z) : prog unit :=
  (echo (MsgProcessingChunk (name speech_filename)) ;;
   txt <- lift (with_suffix speech_filename (lit ".txt")) ;;
   write_text txt chunk ;;
   st <- retry_loop fuel chunk speech_filename max_retries retry_delay
                    false 0 ;;
   if negb (fst st)
   then echo (MsgFailedChunk (name speech_filename))
   else Ret tt)%prog.

(** The loop turns at most [max_retries] times: every turn either ends the
    loop or adds one to [retries]. *)
Definition _process_chunk (chunk : str) (speech_filename : Path)
    (max_retries retry_delay : Z) : prog unit :=
  _process_chunk_fuel (Z.to_nat max_retries) chunk speech_filename
                      max_retries retry_delay.

(** ** One coroutine run on its own

    The service answers the [n]-th request of the coroutine with
    [create_reply n]; streaming the answer of that request to a file ends
    as [stream_reply n] says. Nothing cancels the coroutine. *)
Record service := Service {
  create_reply : nat -> outcome response;
  stream_reply : nat -> outcome unit
}.

Inductive result (A : Type) : Type :=
| Returned (a : A)
| Raised (e : exn)
| Diverged.
Arguments Returned {A} a.
Arguments Raised {A} e.
Arguments Diverged {A}.

#[global] Instance result_eq_dec {A} `{EqDecision A} : EqDecision (result A).
Proof. solve_decision. Defined.

Record run (A : Type) := Run {
  run_result : result A;
  run_fs : filesystem;
  run_events : list event
}.
Arguments Run {A} _ _ _.
Arguments run_result {A} _.
Arguments run_fs {A} _.
Arguments run_events {A} _.

Definition emit {A} (ev : event) (r : run A) : run A :=
  Run (run_result r) (run_fs r) (ev :: run_events r).

Fixpoint exec {A} (sv : service) (t : prog A) (n : nat) (fs : filesystem)
  : run A :=
  match t with
  | Ret a => Run (Returned a) fs []
  | Raise e => Run (Raised e) fs []
  | OutOfFuel => Run Diverged fs []
  | Echo m k => emit (EvEcho m) (exec sv k n fs)
  | WriteText p data k =>
      emit (EvWriteText p data) (exec sv k n (<[p := data]> fs))
  | SpeechCreate mo vo i k =>
      emit (EvRequest mo vo i) (exec sv (k (create_reply sv n)) (S n) fs)
  | StreamToFile r p k =>
      match stream_reply sv (Nat.pred n) with
      | Ok u => emit (EvAudio p r) (exec sv (k (Ok u)) n (<[p := r]> fs))
      | Exc e => exec sv (k (Exc e)) n fs
      end
  | Sleep d k => emit (EvSleep d) (exec sv (k (Ok tt)) n fs)
  end.

(** ** The task groups

    [_process_chapter] starts one task per chunk whose audio file is
    missing, [_process_book] one task per selected chapter. A chunk task is
    the coroutine that is left of it. *)
Record task := Task {
  t_chapter : nat;          (* position among the selected chapters *)
  t_index : nat;            (* the chunk index [i] *)
  t_chunk : str;
  t_file : Path;            (* [speech_filename] *)
  t_prog : prog unit
}.

(** Where an event of the trace comes from: the task of chapter [c], or
    the task of its chunk [i]. *)
Inductive origin : Type :=
| OChapter (c : nat)
| OChunk (c i : nat).

#[global] Instance origin_eq_dec : EqDecision origin.
Proof. solve_decision. Defined.

(** A coroutine suspended at an [await], and a coroutine that has ended. *)
Definition is_await {A} (t : prog A) : bool :=
  match t with
  | SpeechCreate _ _ _ _ | StreamToFile _ _ _ | Sleep _ _ => true
  | _ => false
  end.

Definition is_final {A} (t : prog A) : bool :=
  match t with
  | Ret _ | Raise _ | OutOfFuel => true
  | _ => false
  end.

(** A coroutine runs its synchronous calls up to the next [await] or to
    its end. A request is issued, and a sleep begins, when the coroutine
    reaches the call. *)
Fixpoint run_sync {A} (t : prog A) (fs : filesystem)
  : prog A * filesystem * list event :=
  match t with
  | Echo m k =>
      let '(t', fs', evs) := run_sync k fs in (t', fs', EvEcho m :: evs)
  | WriteText p data k =>
      let '(t', fs', evs) := run_sync k (<[p := data]> fs) in
      (t', fs', EvWriteText p data :: evs)
  | SpeechCreate mo vo i _ => (t, fs, [EvRequest mo vo i])
  | Sleep d _ => (t, fs, [EvSleep d])
  | _ => (t, fs, [])
  end.

(** What resumes a suspended coroutine: the response of the service, the
    end of a stream or of a sleep, or an exception of the service. *)
Inductive reply : Type :=
| ReplyResponse (r : response)
| ReplyDone
| ReplyError (e : exn).

Definition resume {A} (t : prog A) (r : reply) (fs : filesystem)
  : option (prog A * filesystem * list event) :=
  match t, r with
  | SpeechCreate _ _ _ k, ReplyResponse a => Some (k (Ok a), fs, [])
  | SpeechCreate _ _ _ k, ReplyError e =>
      if decide (e = CancelledError) then None else Some (k (Exc e), fs, [])
  | StreamToFile a p k, ReplyDone =>
      Some (k (Ok tt), <[p := a]> fs, [EvAudio p a])
  | StreamToFile a p k, ReplyError e =>
      if decide (e = CancelledError) then None else Some (k (Exc e), fs, [])
  | Sleep _ k, ReplyDone => Some (k (Ok tt), fs, [])
  | _, _ => None
  end.

(** [Task.cancel]: [CancelledError] is thrown into a suspended coroutine at
    its [await]; a coroutine that has not started never runs. *)
Definition cancel {A} (t : prog A) : option (prog A) :=
  match t with
  | SpeechCreate _ _ _ k => Some (k (Exc CancelledError))
  | StreamToFile _ _ k => Some (k (Exc CancelledError))
  | Sleep _ k => Some (k (Exc CancelledError))
  | Echo _ _ | WriteText _ _ _ => Some (Raise CancelledError)
  | _ => None
  end.

(** What the event loop does with a task: its first turn, a later turn
    with a reply, or its cancellation. *)
Inductive action : Type :=
| Start
| Resume (r : reply)
| Cancel.

(** One turn of a task on the event loop. *)
Definition task_move {A} (t : prog A) (a : action) (fs : filesystem)
  : option (prog A * filesystem * list event) :=
  match a with
  | Start =>
      if is_await t || is_final t then None else Some (run_sync t fs)
  | Resume r =>
      match resume t r fs with
      | Some (t1, fs1, evs1) =>
          let '(t', fs', evs) := run_sync t1 fs1 in
          Some (t', fs', evs1 ++ evs)
      | None => None
      end
  | Cancel =>
      match cancel t with
      | Some t1 => Some (run_sync t1 fs)
      | None => None
      end
  end.

(** A chapter task after its first turn. *)
Inductive chapter_status : Type :=
| ChJoining                     (* waiting in the exit of its task group *)
| ChReturned
| ChRaised (errors : list exn)  (* the exception group of its chunk tasks *)
| ChCancelled.

#[global] Instance chapter_status_eq_dec : EqDecision chapter_status.
Proof. solve_decision. Defined.

(** The state of a run: the shared file system, the events so far, the
    chunk tasks of all chapters in the order of their creation, and the
    chapter tasks. *)
Record state := State {
  st_fs : filesystem;
  st_trace : list (origin * event);
  st_tasks : list task;
  st_chapters : list (str * chapter_status)   (* title and status *)
}.

(** The exception a chunk task ended with, cancellation apart. *)
Definition task_error (t : task) : option exn :=
  match t_prog t with
  | Raise e => if decide (e = CancelledError) then None else Some e
  | _ => None
  end.

(** The chunk tasks of chapter [c], and the exceptions they ended with. *)
Definition tasks_of (c : nat) (tasks : list task) : list task :=
  filter (fun t => t_chapter t = c) tasks.

Definition chapter_errors (c : nat) (tasks : list task) : list exn :=
  omap task_error (tasks_of c tasks).

Definition is_raised (s : str * chapter_status) : bool :=
  match snd s with ChRaised _ => true | _ => false end.

(** The outer group aborts when a chapter task has raised; it then cancels
    the other chapter tasks. *)
Definition outer_abort (st : state) (c : nat) : bool :=
  existsb is_raised (take c (st_chapters st))
  || existsb is_raised (drop (S c) (st_chapters st)).

(** The chunk tasks of chapter [c] are being cancelled: a sibling has
    raised, or the chapter task itself is cancelled by the outer group. *)
Definition aborting (st : state) (c : nat) : bool :=
  bool_decide (chapter_errors c (st_tasks st) ≠ []) || outer_abort st c.

(** The task [t] with the coroutine [p] that is left of it. *)
Definition set_prog (t : task) (p : prog unit) : task :=
  Task (t_chapter t) (t_index t) (t_chunk t) (t_file t) p.

Definition tag (o : origin) (evs : list event) : list (origin * event) :=
  pair o <$> evs.

Definition task_origin (t : task) : origin :=
  OChunk (t_chapter t) (t_index t).

(** All chunk tasks of chapter [c] have ended; all have returned. *)
Definition all_final (c : nat) (tasks : list task) : Prop :=
  Forall (fun t => is_final (t_prog t) = true) (tasks_of c tasks).

Definition is_returned {A} (t : prog A) : bool :=
  match t with Ret _ => true | _ => false end.

Definition all_returned (c : nat) (tasks : list task) : Prop :=
  Forall (fun t => is_returned (t_prog t) = true) (tasks_of c tasks).

(** The steps of a run. A task that is being cancelled may still take a
    turn of its own before the cancellation reaches it. *)
Inductive step : state -> state -> Prop :=
| step_task st n t a p' fs' evs :
    st_tasks st !! n = Some t ->
    (a = Cancel -> aborting st (t_chapter t) = true) ->
    task_move (t_prog t) a (st_fs st) = Some (p', fs', evs) ->
    step st (State fs' (st_trace st ++ tag (task_origin t) evs)
                   (<[n := set_prog t p']> (st_tasks st)) (st_chapters st))
| step_join_return st c title :
    st_chapters st !! c = Some (title, ChJoining) ->
    all_returned c (st_tasks st) ->
    step st (State (st_fs st)
                   (st_trace st ++
                      [(OChapter c, EvEcho (MsgCompletedChapter title))])
                   (st_tasks st)
                   (<[c := (title, ChReturned)]> (st_chapters st)))
| step_join_raise st c title :
    st_chapters st !! c = Some (title, ChJoining) ->
    all_final c (st_tasks st) ->
    chapter_errors c (st_tasks st) ≠ [] ->
    step st (State (st_fs st) (st_trace st) (st_tasks st)
                   (<[c := (title, ChRaised (chapter_errors c (st_tasks st)))]>
                      (st_chapters st)))
| step_join_cancel st c title :
    st_chapters st !! c = Some (title, ChJoining) ->
    all_final c (st_tasks st) ->
    chapter_errors c (st_tasks st) = [] ->
    outer_abort st c = true ->
    step st (State (st_fs st) (st_trace st) (st_tasks st)
                   (<[c := (title, ChCancelled)]> (st_chapters st))).

Inductive steps : state -> state -> Prop :=
| steps_refl st : steps st st
| steps_step st1 st2 st3 : steps st1 st2 -> step st2 st3 -> steps st1 st3.

(** The steps as functions: one turn of the task at position [n], and the
    end of the chapter task [c]. *)
Definition do_task (st : state) (n : nat) (a : action) : option state :=
  match st_tasks st !! n with
  | Some t =>
      if match a with
         | Cancel => negb (aborting st (t_chapter t))
         | _ => false
         end
      then None
      else
        match task_move (t_prog t) a (st_fs st) with
        | Some (p', fs', evs) =>
            Some (State fs' (st_trace st ++ tag (task_origin t) evs)
                        (<[n := set_prog t p']> (st_tasks st))
                        (st_chapters st))
        | None => None
        end
  | None => None
  end.

Definition do_join (st : state) (c : nat) : option state :=
  match st_chapters st !! c with
  | Some (title, ChJoining) =>
      if decide (all_final c (st_tasks st)) then
        match chapter_errors c (st_tasks st) with
        | [] =>
            if decide (all_returned c (st_tasks st)) then
              Some (State (st_fs st)
                          (st_trace st ++
                             [(OChapter c,
                               EvEcho (MsgCompletedChapter title))])
                          (st_tasks st)
                          (<[c := (title, ChReturned)]> (st_chapters st)))
            else if outer_abort st c then
              Some (State (st_fs st) (st_trace st) (st_tasks st)
                          (<[c := (title, ChCancelled)]> (st_chapters st)))
            else None
        | errors =>
            Some (State (st_fs st) (st_trace st) (st_tasks st)
                        (<[c := (title, ChRaised errors)]> (st_chapters st)))
        end
      else None
  | _ => None
  end.

Inductive move : Type :=
| MTask (n : nat) (a : action)
| MJoin (c : nat).

Definition do_move (st : state) (m : move) : option state :=
  match m with
  | MTask n a => do_task st n a
  | MJoin c => do_join st c
  end.

(** A schedule: the moves of the event loop, in order. *)
Fixpoint play (st : state) (ms : list move) : option state :=
  match ms with
  | [] => Some st
  | m :: ms' =>
      match do_move st m with
      | Some st' => play st' ms'
      | None => None
      end
  end.

(** How [_process_book] ends once every chapter task has ended: the outer
    group raises the group of the chapters' exceptions, or the function
    prints the results and returns. *)
Inductive book_result : Type :=
| BookReturned
| BookRaised (errors : list (list exn)).

#[global] Instance book_result_eq_dec : EqDecision book_result.
Proof. solve_decision. Defined.

(** How a task has ended, if it has. *)
Definition final_result {A} (t : prog A) : option (result A) :=
  match t with
  | Ret a => Some (Returned a)
  | Raise e => Some (Raised e)
  | OutOfFuel => Some Diverged
  | _ => None
  end.

Definition task_results (st : state) : list (option (result unit)) :=
  (fun t => final_result (t_prog t)) <$> st_tasks st.

Definition chapter_raised (s : str * chapter_status) : option (list exn) :=
  match snd s with ChRaised errors => Some errors | _ => None end.

Definition book_outcome (st : state) : option book_result :=
  if existsb (fun s => match snd s with ChJoining => true | _ => false end)
             (st_chapters st)
  then None
  else match omap chapter_raised (st_chapters st) with
       | [] => Some BookReturned
       | errors => Some (BookRaised errors)
       end.

Section Book.

(** [text_chunker.chunk], the chunker of the [chunkipy] package built with
    a budget of 4096: a function of the chapter text. *)
Variable chunk : str -> list str.

(** Lines 49-55: the loop in the task group of [_process_chapter]. It
    looks at the file system and creates tasks; it writes nothing. *)
Fixpoint spawn_loop (fs : filesystem) (c : nat) (chapter_title : str)
    (output_dir : Path) (items : list (nat * str))
  : list event * list task :=
  match items with
  | [] => ([], [])
  | (i, chunk_text) :: items' =>
      let speech_filename :=
        joinpath output_dir (speech_name chapter_title i) in
      let '(evs, tasks) :=
        spawn_loop fs c chapter_title output_dir items' in
      if exists_ fs speech_filename
      then (EvEcho (MsgSkipping speech_filename) :: evs, tasks)
      else (evs,
            Task c i chunk_text speech_filename
                 (_process_chunk chunk_text speech_filename
                    default_max_retries default_retry_delay) :: tasks)
  end.

(** Lines 45-55: [_process_chapter] up to the exit of its task group. *)
Definition _process_chapter (fs : filesystem) (c : nat)
    (chapter_text chapter_title : str) (output_dir : Path)
  : list event * list task :=
  let '(evs, tasks) :=
    spawn_loop fs c chapter_title output_dir
               (enumerate (chunk chapter_text)) in
  (EvEcho (MsgProcessingChapter chapter_title) :: evs, tasks).

(** Lines 80-84: every selected chapter becomes a task. The chapter tasks
    take their first turn in the order of their creation, before any
    chunk task runs, so all of them see the file system as it was. *)
Fixpoint start_chapters (fs : filesystem) (text : str) (output_dir : Path)
    (c : nat) (selected_chapters : list (Z * Z * str)) : state :=
  match selected_chapters with
  | [] => State fs [] [] []
  | (start, stop, title) :: rest =>
      let chapter_text := slice text start stop in
      let '(evs, tasks) := _process_chapter fs c chapter_text title output_dir in
      let st := start_chapters fs text output_dir (S c) rest in
      State fs (tag (OChapter c) evs ++ st_trace st)
            (tasks ++ st_tasks st)
            ((title, ChJoining) :: st_chapters st)
  end.

(** Lines 60-84: [_process_book] until the chunk tasks are about to run,
    or the exception that ends it before. *)
Definition _process_book (text : str) (input_path : Path) (fs : filesystem)
  : outcome state :=
  match select_chapters (find_chapters text) with
  | Ok selected_chapters =>
      Ok (start_chapters fs text (parent input_path) 0 selected_chapters)
  | Exc e => Exc e
  end.

End Book.

(** ** Reading a file name back

    The value of a string of decimal digits, and the name of the companion
    text file; both are used to state what the file names are. *)
Definition digit_value (c : char) : nat := N.to_nat c - 48.

Definition decimal_value (s : str) : nat :=
  fold_left (fun a c => 10 * a + digit_value c)%nat s 0%nat.

Definition text_name (chapter_title : str) (i : nat) : str :=
  slugify chapter_title ++ lit "---" ++ format_index i ++ lit ".txt".

Definition is_digit (c : char) : bool := char_in 48%N 57%N c.

(** ** The vocabulary of the properties *)

(** The characters a slug is made of. *)
Definition slug_char (c : char) : bool := is_alnum c || (c =? underscore)%N.

(** The characters of a glob that stand for themselves. *)
Definition literal (c : char) : bool :=
  negb (c =? star)%N && negb (c =? qmark)%N.

(** What the selection holds when the loop ends normally: every entry is a
    selected heading with the start offset of its successor in the full
    list of headings. *)
Definition span_of (chapters : list (Z * str)) (s : Z * Z * str) : Prop :=
  exists idx next,
    chapters !! idx = Some (fst (fst s), snd s) /\
    chapters !! (idx + 1)%nat = Some next /\
    snd (fst s) = fst next /\
    fnmatch chapter_glob (snd s) = true.

(** ** Events, traces and the file system *)

(** A run with events put before its own. *)
Definition prepend {A} (evs : list event) (r : run A) : run A :=
  Run (run_result r) (run_fs r) (evs ++ run_events r).

Definition is_request (ev : event) : bool :=
  match ev with EvRequest _ _ _ => true | _ => false end.

Definition is_audio (ev : event) : bool :=
  match ev with EvAudio _ _ => true | _ => false end.

Definition is_write_text (ev : event) : bool :=
  match ev with EvWriteText _ _ => true | _ => false end.

(** The number of synthesis requests in a list of events. *)
Definition requests (evs : list event) : nat :=
  length (filter (fun ev => is_request ev = true) evs).

(** What a rate-limited attempt leaves in the trace: the request, the
    message and the sleep of [retry_delay] seconds. *)
Definition limited_attempt (chunk : str) (file : Path) (retry_delay : Z)
  : list event :=
  [EvRequest tts_model tts_voice chunk;
   EvEcho (MsgRateLimit (name file) retry_delay);
   EvSleep retry_delay].

(** [evs] repeated [k] times. *)
Fixpoint repeat_events (k : nat) (evs : list event) : list event :=
  match k with
  | O => []
  | S k' => evs ++ repeat_events k' evs
  end.

(** [emits P t]: whatever the answers, every event of [t] satisfies [P]. *)
Fixpoint emits {A} (P : event -> Prop) (t : prog A) : Prop :=
  match t with
  | Ret _ | Raise _ | OutOfFuel => True
  | Echo m k => P (EvEcho m) /\ emits P k
  | WriteText p data k => P (EvWriteText p data) /\ emits P k
  | SpeechCreate mo vo i k =>
      P (EvRequest mo vo i) /\ forall o, emits P (k o)
  | StreamToFile r p k => P (EvAudio p r) /\ forall o, emits P (k o)
  | Sleep d k => P (EvSleep d) /\ forall o, emits P (k o)
  end.

(** The events of the retry loop of one chunk. *)
Definition loop_event (chunk : str) (file : Path) (ev : event) : Prop :=
  match ev with
  | EvWriteText _ _ => False
  | EvAudio p _ => p = file
  | EvRequest mo vo i => mo = tts_model /\ vo = tts_voice /\ i = chunk
  | _ => True
  end.

(** The events of the task of one chunk, the first write included. *)
Definition chunk_event (chunk : str) (file txt : Path) (ev : event) : Prop :=
  match ev with
  | EvWriteText p data => p = txt /\ data = chunk
  | EvAudio p _ => p = file
  | EvRequest mo vo i => mo = tts_model /\ vo = tts_voice /\ i = chunk
  | _ => True
  end.

(** What an event does to the file system. *)
Definition apply_event (fs : filesystem) (ev : event) : filesystem :=
  match ev with
  | EvWriteText p data => <[p := data]> fs
  | EvAudio p r => <[p := r]> fs
  | _ => fs
  end.

Definition apply_events (evs : list event) (fs : filesystem) : filesystem :=
  fold_left apply_event evs fs.

(** The path an event writes to. *)
Definition target (ev : event) : option Path :=
  match ev with
  | EvWriteText p _ | EvAudio p _ => Some p
  | _ => None
  end.

Definition is_echo (ev : event) : bool :=
  match ev with EvEcho _ => true | _ => false end.

(** ** The invariant of a run *)

(** The description of a task of chapter [c] for the chunk [i] of the
    text [chapter_text] under the title [title]. *)
Definition task_of (chunk : str -> list str) (fs : filesystem) (dir : Path)
    (c : nat) (chapter_text title : str) (t : task) : Prop :=
  t_chapter t = c /\
  chunk chapter_text !! t_index t = Some (t_chunk t) /\
  t_file t = joinpath dir (speech_name title (t_index t)) /\
  fs !! t_file t = None /\
  t_prog t = _process_chunk (t_chunk t) (t_file t)
                            default_max_retries default_retry_delay.

(** The companion text file of [file], as [_process_chunk] computes it. *)
Definition text_path (file : Path) : Path :=
  match with_suffix file (lit ".txt") with
  | Ok p => p
  | Exc _ => file
  end.

Definition task_id_of (t : task) : nat * nat * str * Path :=
  (t_chapter t, t_index t, t_chunk t, t_file t).

(** What is left of a task only emits events of its chunk. *)
Definition task_ok (t : task) : Prop :=
  emits (chunk_event (t_chunk t) (t_file t) (text_path (t_file t))) (t_prog t).

(** An event of the trace comes from a chapter, and is then a message, or
    from the task of a chunk, and is then one of its events. *)
Definition event_ok (ids : list (nat * nat * str * Path))
    (x : origin * event) : Prop :=
  match fst x with
  | OChapter _ => is_echo (snd x) = true
  | OChunk c i =>
      exists chunk file,
        (c, i, chunk, file) ∈ ids /\
        chunk_event chunk file (text_path file) (snd x)
  end.

(** The file system is the initial one after the writes of the trace; the
    tasks and the chapter titles are those of the start. *)
Record inv (fs0 : filesystem) (ids : list (nat * nat * str * Path))
    (titles : list str) (st : state) : Prop := Inv {
  inv_fs : st_fs st = apply_events (snd <$> st_trace st) fs0;
  inv_tasks : Forall task_ok (st_tasks st);
  inv_ids : task_id_of <$> st_tasks st = ids;
  inv_titles : fst <$> st_chapters st = titles;
  inv_trace : Forall (event_ok ids) (st_trace st)
}.

(** ** The order of the events of a task *)

(** A task that has not taken a turn yet. *)
Definition fresh (t : task) : Prop :=
  t_prog t = _process_chunk (t_chunk t) (t_file t)
                            default_max_retries default_retry_delay.

(** The text file of the chunk of [t] has been written. *)
Definition written (trace : list (origin * event)) (t : task) : Prop :=
  exists j,
    trace !! j
    = Some (task_origin t, EvWriteText (text_path (t_file t)) (t_chunk t)).

Definition no_request (ev : event) : Prop := is_request ev = false.

Definition task_order (trace : list (origin * event)) (t : task) : Prop :=
  written trace t \/ emits no_request (t_prog t) \/ fresh t.

(** Every request in the trace has, earlier in the trace and from the
    same chunk, the write of a text file holding the text it sends. *)
Definition requests_after_writes (trace : list (origin * event)) : Prop :=
  forall k o mo vo chunk,
    trace !! k = Some (o, EvRequest mo vo chunk) ->
    exists j p,
      (j < k)%nat /\ trace !! j = Some (o, EvWriteText p chunk).

Record order_inv (st : state) : Prop := OrderInv {
  ord_ok : Forall task_ok (st_tasks st);
  ord_tasks : Forall (task_order (st_trace st)) (st_tasks st);
  ord_trace : requests_after_writes (st_trace st)
}.

(** ** A coroutine on its own and the event loop *)

(** The reply of the event loop that carries an answer of the service. *)
Definition reply_of_create (o : outcome (list N)) : reply :=
  match o with Ok r => ReplyResponse r | Exc e => ReplyError e end.

Definition reply_of_stream (o : outcome unit) : reply :=
  match o with Ok _ => ReplyDone | Exc e => ReplyError e end.

(** The replies a coroutine gets, in order, when it runs on its own
    against the service [sv]. *)
Fixpoint exec_replies {A} (sv : service) (t : prog A) (n : nat) : list reply :=
  match t with
  | Ret _ | Raise _ | OutOfFuel => []
  | Echo _ k | WriteText _ _ k => exec_replies sv k n
  | SpeechCreate _ _ _ k =>
      reply_of_create (create_reply sv n)
        :: exec_replies sv (k (create_reply sv n)) (S n)
  | StreamToFile _ _ k =>
      reply_of_stream (stream_reply sv (Nat.pred n))
        :: exec_replies sv (k (stream_reply sv (Nat.pred n))) n
  | Sleep _ k => ReplyDone :: exec_replies sv (k (Ok tt)) n
  end.

(** The turns of one task: it is resumed with each reply in turn. *)
Fixpoint resume_all {A} (t : prog A) (fs : filesystem) (rs : list reply)
  : option (prog A * filesystem * list event) :=
  match rs with
  | [] => Some (t, fs, [])
  | r :: rs' =>
      match task_move t (Resume r) fs with
      | Some (t', fs', evs) =>
          match resume_all t' fs' rs' with
          | Some (t'', fs'', evs') => Some (t'', fs'', evs ++ evs')
          | None => None
          end
      | None => None
      end
  end.

(** The first turn of a task, then its other turns. *)
Definition run_task {A} (t : prog A) (fs : filesystem) (rs : list reply)
  : option (prog A * filesystem * list event) :=
  let '(t1, fs1, evs1) := run_sync t fs in
  match resume_all t1 fs1 rs with
  | Some (t', fs', evs) => Some (t', fs', evs1 ++ evs)
  | None => None
  end.

(** The service does not raise [CancelledError]: that is the business of
    the task groups. *)
Definition never_cancels (sv : service) : Prop :=
  (forall n, create_reply sv n <> Exc CancelledError) /\
  (forall n, stream_reply sv n <> Exc CancelledError).

(** ** Worked inputs and runs *)

(** The example text of the specification. *)
Definition spec_example : str :=
  lit "Preface
# Chapter 1
Hello world.
# Chapter 2
Bye.
".

(** Two chapters with a preface in between. *)
Definition preface_text : str :=
  lit "# Chapter 1
One.
# Preface
Two.
# Chapter 2
Three.
".

(** Two chapters and a closing heading that is not selected. *)
Definition example_text : str :=
  lit "Preface
# Chapter 1
Hello world.
# Chapter 2
Bye.
# Epilogue
The end.
".

(** Two chapters whose titles differ in a punctuation mark only. *)
Definition twin_text : str :=
  lit "# Chapter 1!
a
# Chapter 1?
b
# Afterword
".

(** Two chunkers: the whole text as one chunk, and a cut after five
    characters. *)
Definition one_chunk (t : str) : list str := [t].

Definition two_chunks (t : str) : list str := [take 5 t; drop 5 t].

Definition example_input : Path := MkPath [] [lit "books"; lit "chasm.txt"].

Definition example_dir : Path := MkPath [] [lit "books"].

(** The start of the book [example_text] cut into two chunks a chapter,
    with no file there yet: four tasks, in the order of their creation. *)
Definition example_start : state :=
  match _process_book two_chunks example_text example_input ∅ with
  | Ok st => st
  | Exc _ => State ∅ [] [] []
  end.

(** Three tasks start; the request of the first ends with the exception
    [e]; its sibling is cancelled and the first chapter ends; the tasks of
    the second chapter are cancelled, one of them before it has started,
    and the second chapter ends. *)
Definition cancel_schedule (e : exn) : list move :=
  [MTask 0 Start; MTask 1 Start; MTask 2 Start;
   MTask 0 (Resume (ReplyError e));
   MTask 1 Cancel; MJoin 0; MTask 2 Cancel; MTask 3 Cancel; MJoin 1].

(** What is looked at in the state a schedule ends in. *)
Definition summary (st : state)
  : list (option (result unit)) * list chapter_status * option book_result
    * bool :=
  (task_results st, snd <$> st_chapters st, book_outcome st,
   forallb (fun x => negb (is_audio (snd x))) (st_trace st)).

(** The words of the specification: a heading is a line that begins with
    the marker. A position begins a line when it is the first of the text
    or follows a line feed. *)
Definition spec_line_start (text : str) (n : nat) : Prop :=
  n = 0%nat \/ text !! (n - 1)%nat = Some 10%N.

(** What the pattern matches at position [n] of [text]: the marker, the
    run [ws] of one or more whitespace characters (as long as it can be),
    then [title], the rest of the line. *)
Definition marker_at (text : str) (n : nat) (ws title : str) : Prop :=
  exists rest,
    drop n text = hash :: ws ++ title ++ rest /\
    ws <> [] /\
    Forall (fun c => is_space c = true) ws /\
    (forall c, head (title ++ rest) = Some c -> is_space c = false) /\
    Forall (fun c => is_dot c = true) title /\
    (forall c, head rest = Some c -> is_dot c = false).

(** A schedule can be played to its end, and the state it ends in. *)
Definition played (st : state) (ms : list move) : bool :=
  match play st ms with Some _ => true | None => false end.

Definition ran (st : state) (ms : list move) : state :=
  default st (play st ms).

(** The selected chapters of [example_text]. *)
Definition example_selected : list (Z * Z * str) :=
  [(8, 33, lit "Chapter 1"); (33, 50, lit "Chapter 2")].

Definition example_file : Path :=
  joinpath example_dir (speech_name (lit "Chapter 1") 0).

Definition example_audio : list N := [73; 68; 51]%N.

(** A first run of [example_text]: both chunks start, the first gets its
    audio file and its chapter ends; the second is still waiting. *)
Definition first_start : state :=
  start_chapters one_chunk ∅ example_text example_dir 0 example_selected.

Definition first_schedule : list move :=
  [MTask 0 Start; MTask 1 Start;
   MTask 0 (Resume (ReplyResponse example_audio));
   MTask 0 (Resume ReplyDone); MJoin 0].

Definition first_end : state := ran first_start first_schedule.

(** The second run, on the files of the first: the chunk of the second
    chapter is limited once, then gets its audio file. *)
Definition second_start : state :=
  start_chapters one_chunk (st_fs first_end) example_text example_dir 0
                 example_selected.

Definition second_schedule : list move :=
  [MJoin 0; MTask 0 Start;
   MTask 0 (Resume (ReplyError RateLimitError)); MTask 0 (Resume ReplyDone);
   MTask 0 (Resume (ReplyResponse example_audio));
   MTask 0 (Resume ReplyDone); MJoin 1].

Definition second_end : state := ran second_start second_schedule.

(** The service that answers every request with a rate-limit error. *)
Definition always_limited : service :=
  Service (fun _ => Exc RateLimitError) (fun _ => Ok tt).

(** The service that limits the first two requests and fails the third. *)
Definition failing_third : service :=
  Service (fun n => if (n <? 2)%nat then Exc RateLimitError
                    else Exc (OtherError 7))
          (fun _ => Ok tt).

(** The audio file of the first chunk of [Chapter 1] is there. *)
Definition resumed_start : state :=
  start_chapters one_chunk {[ example_file := example_audio ]} example_text
                 example_dir 0 example_selected.

Definition resumed_schedule : list move :=
  [MJoin 0; MTask 0 Start;
   MTask 0 (Resume (ReplyResponse example_audio));
   MTask 0 (Resume ReplyDone); MJoin 1].

Definition resumed_end : state := ran resumed_start resumed_schedule.

(** ** A first run that fails on a chunk

    The first run of [example_text] in which the chunk of the second
    chapter is limited at each of its ten attempts: the task prints its
    failure and returns, both chapters return and so does the book. The
    second run, on the files of the first, takes that chunk up again. *)
Definition limited_turn : list move :=
  [MTask 1 (Resume (ReplyError RateLimitError)); MTask 1 (Resume ReplyDone)].

Definition failed_schedule : list move :=
  [MTask 0 Start; MTask 1 Start;
   MTask 0 (Resume (ReplyResponse example_audio));
   MTask 0 (Resume ReplyDone)]
  ++ concat (replicate 10 limited_turn)
  ++ [MJoin 0; MJoin 1].

Definition failed_end : state := ran first_start failed_schedule.

Definition retry_start : state :=
  start_chapters one_chunk (st_fs failed_end) example_text example_dir 0
                 example_selected.

Definition retry_end : state := ran retry_start resumed_schedule.

Definition second_file : Path :=
  joinpath example_dir (speech_name (lit "Chapter 2") 0).

(** ** More vocabulary: the spans of the headings *)

(** The headings paired with the start of their successor:
    [(start, stop, title)] for every heading but the last. *)
Fixpoint spans (chapters : list (Z * str)) : list (Z * Z * str) :=
  match chapters with
  | [] => []
  | (start, title) :: rest =>
      match rest with
      | [] => []
      | (stop, _) :: _ => (start, stop, title) :: spans rest
      end
  end.

(** The glob on the title of a span, and on the last heading of a list. *)
Definition span_selected (s : Z * Z * str) : bool :=
  fnmatch chapter_glob (snd s).

Definition last_selected (chapters : list (Z * str)) : bool :=
  match last chapters with
  | Some (_, title) => fnmatch chapter_glob title
  | None => false
  end.


(** The attempt numbered [n] ends with a rate-limit error: the request
    does, or the streaming of its answer. *)
Definition rate_limited (sv : service) (n : nat) : Prop :=
  create_reply sv n = Exc RateLimitError \/
  exists r, create_reply sv n = Ok r /\ stream_reply sv n = Exc RateLimitError.

(** The number of audio writes in a list of events. *)
Definition audio_writes (evs : list event) : nat :=
  length (filter (fun ev => is_audio ev = true) evs).

(** ** The ends of the chapters

    A chapter that has returned has all of its tasks returned and has
    printed its message; the message is in the trace for such a chapter
    only; a chapter is cancelled only beside one that has raised; a
    chapter that has raised has all of its tasks ended and raises their
    exceptions. The list [chapter_errors] has them in the order of the
    tasks, a task group in the order in which the tasks have ended: the
    properties proved from this invariant speak of the members of the
    list, not of their order. *)
Record join_inv (st : state) : Prop := JoinInv {
  join_returned : forall c title,
    st_chapters st !! c = Some (title, ChReturned) ->
    all_returned c (st_tasks st) /\
    (OChapter c, EvEcho (MsgCompletedChapter title)) ∈ st_trace st;
  join_message : forall c title,
    (OChapter c, EvEcho (MsgCompletedChapter title)) ∈ st_trace st ->
    st_chapters st !! c = Some (title, ChReturned);
  join_cancelled : forall c title,
    st_chapters st !! c = Some (title, ChCancelled) ->
    exists c' s, st_chapters st !! c' = Some s /\ is_raised s = true;
  join_raised : forall c title errors,
    st_chapters st !! c = Some (title, ChRaised errors) ->
    errors <> [] /\ errors = chapter_errors c (st_tasks st) /\
    all_final c (st_tasks st)
}.

(** ** The budget of a chunk task

    [budget k a t]: from here on the coroutine [t] issues at most [k]
    requests and writes at most [a] audio files, and it does not end with
    a rate-limit error, whatever the service answers and whenever the
    task group cancels it. An awaited sleep ends normally or is
    cancelled. *)
Fixpoint budget {A} (k a : nat) (t : prog A) : Prop :=
  match t with
  | Ret _ | OutOfFuel => True
  | Raise e => e <> RateLimitError
  | Echo _ t' => budget k a t'
  | WriteText _ _ t' => budget k a t'
  | SpeechCreate _ _ _ f =>
      match k with
      | O => False
      | S k' => forall o, budget k' a (f o)
      end
  | StreamToFile _ _ f =>
      match a with
      | O => False
      | S a' => budget k a' (f (Ok tt))
      end /\
      forall e, budget k a (f (Exc e))
  | Sleep _ f => budget k a (f (Ok tt)) /\ budget k a (f (Exc CancelledError))
  end.

(** The budget of a task of the pool: the request of a task suspended at
    the synthesis call is already in the trace. *)
Definition pending {A} (k a : nat) (t : prog A) : Prop :=
  match t with
  | SpeechCreate _ _ _ f => forall o, budget k a (f o)
  | _ => budget k a t
  end.

(** The events of the trace that come from [o]. *)
Definition events_of (o : origin) (trace : list (origin * event))
  : list event :=
  snd <$> filter (fun x => fst x = o) trace.

(** Every task has a budget left that, with the requests and the audio
    writes it has in the trace, stays within the ten attempts and the one
    audio file of its chunk. *)
Definition within_budget (trace : list (origin * event)) (t : task) : Prop :=
  exists k a,
    pending k a (t_prog t) /\
    (requests (events_of (task_origin t) trace) + k
       <= Z.to_nat default_max_retries)%nat /\
    (audio_writes (events_of (task_origin t) trace) + a <= 1)%nat.

Record budget_inv (st : state) : Prop := BudgetInv {
  bud_origins : NoDup (task_origin <$> st_tasks st);
  bud_tasks : Forall (within_budget (st_trace st)) (st_tasks st);
  bud_trace : forall c i,
    events_of (OChunk c i) (st_trace st) <> [] ->
    exists t, t ∈ st_tasks st /\ task_origin t = OChunk c i
}.

(** ** What a chunk task owes

    [settles file Q t]: on every way of [t] to a normal return, the audio
    file [file] is written or the failure message of [file] is printed,
    or else the value returned satisfies [Q]. *)
Fixpoint settles {A} (file : Path) (Q : A -> Prop) (t : prog A) : Prop :=
  match t with
  | Ret a => Q a
  | Raise _ | OutOfFuel => True
  | Echo m t' => m = MsgFailedChunk (name file) \/ settles file Q t'
  | WriteText _ _ t' => settles file Q t'
  | SpeechCreate _ _ _ f => forall o, settles file Q (f o)
  | StreamToFile _ p f =>
      (p = file \/ settles file Q (f (Ok tt))) /\
      forall e, settles file Q (f (Exc e))
  | Sleep _ f => forall o, settles file Q (f o)
  end.

(** The chunk of [t] is settled in the trace: its audio file has been
    written, or its failure has been reported. *)
Definition settled (trace : list (origin * event)) (t : task) : Prop :=
  (exists r, (task_origin t, EvAudio (t_file t) r) ∈ trace) \/
  (task_origin t, EvEcho (MsgFailedChunk (name (t_file t)))) ∈ trace.

Definition settle_inv (st : state) : Prop :=
  Forall (fun t => settled (st_trace st) t \/
                   settles (t_file t) (fun _ => False) (t_prog t))
         (st_tasks st).

(** ** A service that answers

    Every request is answered with the bytes [audio], and every stream
    ends well. *)
Definition answering (audio : list N) : service :=
  Service (fun _ => Ok audio) (fun _ => Ok tt).

(** The events of a run in which nothing goes wrong: no failure message,
    no rate-limit message, no sleep, and every audio file holds the
    answer [audio]. *)
Definition clean_event (audio : list N) (ev : event) : Prop :=
  match ev with
  | EvAudio _ r => r = audio
  | EvEcho (MsgFailedChunk _) | EvEcho (MsgRateLimit _ _) | EvSleep _ => False
  | _ => True
  end.

(** ** More worked inputs *)

(** The service that limits the first two requests and answers the
    third. *)
Definition limited_twice : service :=
  Service (fun n => if (n <? 2)%nat then Exc RateLimitError
                    else Ok example_audio)
          (fun _ => Ok tt).

(** A text with one heading, which is not selected. *)
Definition intro_text : str :=
  lit "# Intro
Hello.
".

(** ** What the file system refuses

    The file system is a map from paths to contents. A real file system
    refuses some paths: a name of more than NAME_MAX bytes, a path of more
    than PATH_MAX bytes. For such a path the [stat] call behind
    [Path.exists()] fails with ENAMETOOLONG, an [OSError] that [exists()]
    does not swallow (Python 3.11 and 3.12), and [write_text] fails in the
    same way. [accepts p] says that the file system takes the path [p].
    [exists_] is [exists()] for the paths it takes; [exists_os] is the
    call with its exception. *)

(** [OSError]: one of the other exception classes. *)
Definition os_error : exn := OtherError 36.

Section Refusals.

Variable accepts : Path -> bool.

Definition exists_os (fs : filesystem) (p : Path) : outcome bool :=
  if accepts p then Ok (exists_ fs p) else Exc os_error.

(** Lines 49-55 with that call: the loop ends at the first path that is
    refused, with the messages printed and the tasks created so far and
    with the exception. *)
Fixpoint spawn_loop_os (fs : filesystem) (c : nat) (chapter_title : str)
    (output_dir : Path) (items : list (nat * str))
  : list event * list task * option exn :=
  match items with
  | [] => ([], [], None)
  | (i, chunk_text) :: items' =>
      let speech_filename :=
        joinpath output_dir (speech_name chapter_title i) in
      match exists_os fs speech_filename with
      | Exc e => ([], [], Some e)
      | Ok found =>
          let '(evs, tasks, raised) :=
            spawn_loop_os fs c chapter_title output_dir items' in
          if found
          then (EvEcho (MsgSkipping speech_filename) :: evs, tasks, raised)
          else (evs,
                Task c i chunk_text speech_filename
                     (_process_chunk chunk_text speech_filename
                        default_max_retries default_retry_delay) :: tasks,
                raised)
      end
  end.

(** Lines 45-55 with the exception of line 52, for the chunker [chunk]. *)
Definition _process_chapter_os (chunk : str -> list str) (fs : filesystem)
    (c : nat) (chapter_text chapter_title : str) (output_dir : Path)
  : list event * list task * option exn :=
  let '(evs, tasks, raised) :=
    spawn_loop_os fs c chapter_title output_dir
                  (enumerate (chunk chapter_text)) in
  (EvEcho (MsgProcessingChapter chapter_title) :: evs, tasks, raised).

(** The file system takes the audio path and the text path of every chunk
    of the selected chapters. *)
Definition book_fits (chunk : str -> list str) (text : str) (dir : Path)
    (selected : list (Z * Z * str)) : Prop :=
  forall c start stop title i chunk_text,
    selected !! c = Some (start, stop, title) ->
    chunk (slice text start stop) !! i = Some chunk_text ->
    accepts (joinpath dir (speech_name title i)) = true /\
    accepts (joinpath dir (text_name title i)) = true.

End Refusals.

(** The limit on the names of the file systems of Linux: 255 bytes. The
    names of line 51 are made of ASCII characters only (the slug, the
    dashes, the digits and the extension), so their length is their length
    in bytes. *)
Definition name_max : nat := 255.

Definition name_fits (p : Path) : bool := (length (name p) <=? name_max)%nat.

(** A title of 248 characters. *)
Definition long_title : str := lit "Chapter " ++ replicate 240 120%N.

(** * Properties *)

(** ** Strings and file names *)

Lemma decimal_digits_acc fuel n acc :
  decimal_digits fuel n acc = decimal_digits fuel n [] ++ acc.
Proof.
  revert n acc. induction fuel as [|fuel IH]; intros n acc;
    cbn [decimal_digits]; [done|].
  destruct (n <? 10)%nat; [done|].
  rewrite (IH _ (_ :: acc)), (IH _ [_]). by rewrite <- app_assoc.
Qed.

Lemma digit_value_char d : (d < 10)%nat -> digit_value (digit_char d) = d.
Proof. intros. unfold digit_value, digit_char. lia. Qed.

Lemma decimal_value_app s1 s2 :
  decimal_value (s1 ++ s2) =
  fold_left (fun a c => 10 * a + digit_value c)%nat s2 (decimal_value s1).
Proof. unfold decimal_value. by rewrite fold_left_app. Qed.

Lemma decimal_value_digit n :
  (n < 10)%nat -> decimal_value [digit_char (n mod 10)] = n.
Proof.
  intros Hn. unfold decimal_value. cbn [fold_left].
  rewrite Nat.mod_small by done. rewrite digit_value_char by done. lia.
Qed.

Lemma decimal_digits_value fuel n :
  (n <= fuel \/ n < 10)%nat -> decimal_value (decimal_digits fuel n []) = n.
Proof.
  revert n. induction fuel as [|fuel IH]; intros n Hn; cbn [decimal_digits].
  - apply decimal_value_digit. lia.
  - destruct (Nat.ltb_spec n 10) as [Hlt|Hge].
    + by apply decimal_value_digit.
    + rewrite decimal_digits_acc, decimal_value_app. cbn [fold_left].
      rewrite IH.
      * rewrite digit_value_char by (apply Nat.mod_upper_bound; lia).
        pose proof (Nat.div_mod_eq n 10). lia.
      * left. assert (n / 10 < n)%nat by (apply Nat.div_lt; lia). lia.
Qed.

Lemma str_of_nat_value n : decimal_value (str_of_nat n) = n.
Proof. apply decimal_digits_value. by left. Qed.

Lemma decimal_value_zeros k s :
  decimal_value (replicate k zero_char ++ s) = decimal_value s.
Proof.
  rewrite decimal_value_app.
  assert (decimal_value (replicate k zero_char) = 0%nat) as ->; [|done].
  induction k as [|k IH]; [done|].
  change (replicate (S k) zero_char) with ([zero_char] ++ replicate k zero_char).
  rewrite decimal_value_app. exact IH.
Qed.

Lemma format_index_value i : decimal_value (format_index i) = i.
Proof. unfold format_index. by rewrite decimal_value_zeros, str_of_nat_value. Qed.

Lemma format_index_inj i j : format_index i = format_index j -> i = j.
Proof.
  intros H. rewrite <- (format_index_value i), <- (format_index_value j).
  by rewrite H.
Qed.

Lemma decimal_digits_digits fuel n acc :
  Forall (fun c => is_digit c = true) acc ->
  Forall (fun c => is_digit c = true) (decimal_digits fuel n acc).
Proof.
  assert (Hd : forall m, is_digit (digit_char (m mod 10)) = true).
  { intros m. pose proof (Nat.mod_upper_bound m 10).
    unfold is_digit, char_in, digit_char.
    apply andb_true_iff; split; apply N.leb_le; lia. }
  revert n acc. induction fuel as [|fuel IH]; intros n acc Hacc;
    cbn [decimal_digits].
  - by constructor.
  - destruct (n <? 10)%nat; [by constructor|].
    apply IH. by constructor.
Qed.

Lemma format_index_digits i :
  Forall (fun c => is_digit c = true) (format_index i).
Proof.
  unfold format_index. apply Forall_app. split.
  - apply Forall_replicate. done.
  - apply decimal_digits_digits. constructor.
Qed.

Lemma format_index_length i : (3 <= length (format_index i))%nat.
Proof. unfold format_index. rewrite length_app, length_replicate. lia. Qed.

Lemma slugify_length t : length (slugify t) = length t.
Proof. unfold slugify. by rewrite length_fmap. Qed.

Lemma slugify_lookup t n c :
  t !! n = Some c ->
  slugify t !! n = Some (if is_alnum c then c else underscore).
Proof. intros H. unfold slugify. by rewrite list_lookup_fmap, H. Qed.

Lemma slugify_chars t : Forall (fun c => slug_char c = true) (slugify t).
Proof.
  unfold slugify. apply Forall_fmap, Forall_forall. intros c _. simpl.
  unfold slug_char. destruct (is_alnum c) eqn:E; [by rewrite E|].
  by rewrite orb_true_r.
Qed.

Lemma slug_char_not c x :
  slug_char c = true -> is_alnum x = false -> x <> underscore -> c <> x.
Proof.
  unfold slug_char. intros H Hx Hu ->.
  rewrite Hx in H. simpl in H. apply N.eqb_eq in H. done.
Qed.

Lemma is_digit_not c x : is_digit c = true -> is_digit x = false -> c <> x.
Proof. intros H Hx ->. congruence. Qed.

(** A string is cut in one way at the first occurrence of a character. *)
Lemma app_cons_unique {A} (c : A) a b x y :
  Forall (fun z => z <> c) a -> Forall (fun z => z <> c) b ->
  a ++ c :: x = b ++ c :: y -> a = b /\ x = y.
Proof.
  revert b. induction a as [|z a IH]; intros [|w b] Ha Hb Heq; simpl in *.
  - by inversion Heq.
  - inversion Heq; subst. by inversion Hb.
  - inversion Heq; subst. by inversion Ha.
  - inversion Heq; subst. inversion Ha; inversion Hb; subst.
    destruct (IH b) as [-> ->]; auto.
Qed.

Lemma speech_name_inj t1 i1 t2 i2 :
  speech_name t1 i1 = speech_name t2 i2 ->
  slugify t1 = slugify t2 /\ i1 = i2.
Proof.
  unfold speech_name. intros H.
  change (lit "---") with (45%N :: lit "--") in H. simpl in H.
  apply app_cons_unique in H as [Hs H].
  - split; [done|]. apply format_index_inj.
    change (lit "--" ++ ?a) with (45%N :: 45%N :: a) in H.
    inversion H as [H']. by apply app_inv_tail in H'.
  - eapply Forall_impl; [apply slugify_chars|]. intros c Hc.
    by apply (slug_char_not c 45%N).
  - eapply Forall_impl; [apply slugify_chars|]. intros c Hc.
    by apply (slug_char_not c 45%N).
Qed.

Lemma rfind_none c s : Forall (fun z => z <> c) s -> rfind c s = None.
Proof.
  induction 1 as [|x s Hx _ IH]; simpl; [done|].
  rewrite IH. destruct (N.eqb_spec x c); [done|done].
Qed.

Lemma rfind_last c a b :
  Forall (fun z => z <> c) b -> rfind c (a ++ c :: b) = Some (length a).
Proof.
  intros Hb. induction a as [|x a IH]; simpl.
  - by rewrite (rfind_none c b), N.eqb_refl.
  - by rewrite IH.
Qed.

Lemma name_joinpath dir n : name (joinpath dir n) = n.
Proof. unfold name, joinpath. simpl. apply last_last. Qed.

Lemma parent_joinpath dir n : parent (joinpath dir n) = dir.
Proof.
  unfold parent, joinpath. simpl. rewrite removelast_last. by destruct dir.
Qed.

Lemma speech_name_split t i :
  speech_name t i = (slugify t ++ lit "---" ++ format_index i) ++ dot :: lit "mp3".
Proof. unfold speech_name. by rewrite <- !app_assoc. Qed.

Lemma text_name_split t i :
  text_name t i = (slugify t ++ lit "---" ++ format_index i) ++ lit ".txt".
Proof. unfold text_name. by rewrite <- !app_assoc. Qed.

(** The companion text file of an audio file of the program: the same
    directory, the same name up to the extension. *)
Lemma with_suffix_speech dir t i :
  with_suffix (joinpath dir (speech_name t i)) (lit ".txt")
  = Ok (joinpath dir (text_name t i)).
Proof.
  unfold with_suffix, suffix. rewrite name_joinpath.
  rewrite speech_name_split, text_name_split.
  set (base := slugify t ++ lit "---" ++ format_index i).
  assert (Hlen : (3 <= length base)%nat).
  { unfold base. rewrite !length_app. pose proof (format_index_length i). lia. }
  rewrite rfind_last by (repeat constructor; done).
  destruct (base ++ dot :: lit "mp3") as [|x l] eqn:E.
  { by destruct base. }
  rewrite <- E. clear E x l.
  assert (Hl : length (base ++ dot :: lit "mp3") = (length base + 4)%nat).
  { rewrite length_app. done. }
  rewrite Hl.
  replace ((0 <? length base)%nat && (length base <? length base + 4 - 1)%nat)
    with true.
  2:{ symmetry. apply andb_true_iff. split; apply Nat.ltb_lt; lia. }
  rewrite drop_app_length.
  replace (length base + 4 - length (dot :: lit "mp3"))%nat with (length base)
    by (simpl; lia).
  rewrite take_app_length.
  unfold joinpath. simpl. by rewrite removelast_last.
Qed.

Lemma speech_text_differ dir1 t1 i1 dir2 t2 i2 :
  joinpath dir1 (speech_name t1 i1) <> joinpath dir2 (text_name t2 i2).
Proof.
  unfold joinpath. intros H. inversion H as [[Ha Hp]].
  apply app_inj_tail in Hp as [_ Hn].
  rewrite speech_name_split, text_name_split in Hn.
  change (dot :: lit "mp3") with ([dot; 109%N; 112%N] ++ [51%N]) in Hn.
  change (lit ".txt") with ([dot; 116%N; 120%N] ++ [116%N]) in Hn.
  rewrite !app_assoc in Hn. apply app_inj_tail in Hn as [_ Hn]. done.
Qed.

Lemma joinpath_inj dir n1 n2 : joinpath dir n1 = joinpath dir n2 -> n1 = n2.
Proof.
  unfold joinpath. intros H. inversion H as [Hp].
  by apply app_inv_head in Hp as [= ->].
Qed.

Lemma text_name_inj t1 i1 t2 i2 :
  text_name t1 i1 = text_name t2 i2 -> speech_name t1 i1 = speech_name t2 i2.
Proof.
  rewrite !text_name_split, !speech_name_split.
  intros H. apply app_inv_tail in H. by rewrite H.
Qed.

(** ** The chapter filter and the chapter spans *)

Lemma fnmatch_star n : fnmatch [star] n = true.
Proof.
  induction n as [|c n IH]; [done|].
  simpl in *. by rewrite IH.
Qed.

Lemma fnmatch_literal_prefix pre n :
  Forall (fun c => literal c = true) pre ->
  fnmatch (pre ++ [star]) n = true <-> exists rest, n = pre ++ rest.
Proof.
  intros Hpre. revert n. induction Hpre as [|p pre Hp _ IH]; intros n.
  - simpl app. rewrite fnmatch_star. split; [by exists n|done].
  - apply andb_true_iff in Hp as [Hs Hq].
    apply negb_true_iff in Hs, Hq.
    change ((p :: pre) ++ [star]) with (p :: (pre ++ [star])).
    cbn [fnmatch]. rewrite Hs. destruct n as [|c n].
    + split; [done|]. by intros [rest ?].
    + rewrite Hq. simpl orb. rewrite andb_true_iff, IH, N.eqb_eq.
      split.
      * intros [-> [rest ->]]. by exists rest.
      * intros [rest Hr]. inversion Hr; subst. eauto.
Qed.

(** The glob [Chapter *] selects the titles that start with [Chapter ] and
    a space. *)
Lemma fnmatch_chapter_glob title :
  fnmatch chapter_glob title = true <->
  exists rest, title = lit "Chapter " ++ rest.
Proof.
  change chapter_glob with (lit "Chapter " ++ [star]).
  apply fnmatch_literal_prefix. repeat constructor.
Qed.

(** The end offset of a heading that has a successor in the full list of
    headings is the start offset of that successor. *)
Lemma chapter_end_next chapters idx next :
  chapters !! (idx + 1)%nat = Some next ->
  chapter_end chapters idx = Ok (fst next).
Proof.
  intros H. unfold chapter_end. rewrite H.
  apply lookup_lt_Some in H.
  destruct (Nat.ltb_spec idx (length chapters)); [done|lia].
Qed.

(** For the last heading the guard of line 77 holds as for any other, and
    the lookup of its successor raises. *)
Lemma chapter_end_last chapters idx :
  S idx = length chapters -> chapter_end chapters idx = Exc IndexError.
Proof.
  intros H. unfold chapter_end.
  destruct (Nat.ltb_spec idx (length chapters)); [|lia].
  rewrite lookup_ge_None_2; [done|lia].
Qed.

(** The [else] branch of line 77 is dead: inside the loop [idx] is always
    below [len(chapters)]. *)
Lemma chapter_end_never_minus_one chapters idx chapter :
  chapters !! idx = Some chapter -> chapter_end chapters idx <> Ok (-1) \/
  exists next, chapters !! (idx + 1)%nat = Some next /\ fst next = -1.
Proof.
  intros H. apply lookup_lt_Some in H. unfold chapter_end.
  destruct (Nat.ltb_spec idx (length chapters)); [|lia].
  destruct (chapters !! (idx + 1)%nat) as [next|] eqn:E; [|by left].
  destruct (decide (fst next = -1)) as [Heq|Hne]; [right; eauto|].
  left. congruence.
Qed.

Lemma select_loop_last chapters pre l o title acc :
  chapters = pre ++ l ++ [(o, title)] ->
  fnmatch chapter_glob title = true ->
  select_loop chapters (enumerate_from (length pre) (l ++ [(o, title)])) acc
  = Exc IndexError.
Proof.
  intros Hch Hsel. revert pre acc Hch.
  induction l as [|x l IH]; intros pre acc Hch.
  - cbn [app enumerate_from select_loop snd]. rewrite Hsel.
    rewrite chapter_end_last; [done|].
    subst chapters. rewrite !length_app. simpl. lia.
  - cbn [app enumerate_from select_loop]. specialize (IH (pre ++ [x])).
    rewrite length_app in IH. cbn [length] in IH.
    replace (length pre + 1)%nat with (S (length pre)) in IH by lia.
    assert (Hch' : chapters = (pre ++ [x]) ++ l ++ [(o, title)])
      by (rewrite <- app_assoc; done).
    destruct (fnmatch chapter_glob (snd x)); [|by apply IH].
    assert (Hn : exists next, chapters !! (length pre + 1)%nat = Some next).
    { apply lookup_lt_is_Some_2. subst chapters.
      rewrite !length_app. simpl. lia. }
    destruct Hn as [next Hn].
    rewrite (chapter_end_next _ _ next Hn). by apply IH.
Qed.

(** Whenever the last heading of the text is a selected one, the selection
    loop raises [IndexError]. *)
Lemma select_chapters_last_selected chapters o title :
  fnmatch chapter_glob title = true ->
  select_chapters (chapters ++ [(o, title)]) = Exc IndexError.
Proof.
  intros H. unfold select_chapters, enumerate.
  by apply (select_loop_last _ [] chapters o title []).
Qed.

Lemma select_loop_spans chapters l k acc sel :
  (forall i x, l !! i = Some x -> chapters !! (k + i)%nat = Some x) ->
  Forall (span_of chapters) acc ->
  select_loop chapters (enumerate_from k l) acc = Ok sel ->
  Forall (span_of chapters) sel.
Proof.
  revert k acc. induction l as [|x l IH]; intros k acc Hl Hacc Hsel.
  - cbn [enumerate_from select_loop] in Hsel. by inversion Hsel; subst.
  - cbn [enumerate_from select_loop] in Hsel.
    assert (Hrest : forall i y, l !! i = Some y ->
                                chapters !! (S k + i)%nat = Some y).
    { intros i y Hi. specialize (Hl (S i) y Hi).
      by replace (k + S i)%nat with (S k + i)%nat in Hl by lia. }
    destruct (fnmatch chapter_glob (snd x)) eqn:Hm; [|by eapply IH].
    destruct (chapter_end chapters k) as [e|] eqn:He; [|done].
    eapply IH; [done| |done].
    apply Forall_app. split; [done|]. constructor; [|done].
    unfold chapter_end in He.
    destruct (Nat.ltb_spec k (length chapters)) as [Hlt|Hge].
    + destruct (chapters !! (k + 1)%nat) as [next|] eqn:En; [|done].
      inversion He; subst. exists k, next. simpl.
      specialize (Hl 0%nat x eq_refl).
      replace (k + 0)%nat with k in Hl by lia.
      destruct x as [o t]. done.
    + specialize (Hl 0%nat x eq_refl). apply lookup_lt_Some in Hl. lia.
Qed.

Lemma select_chapters_spans chapters sel :
  select_chapters chapters = Ok sel -> Forall (span_of chapters) sel.
Proof.
  intros H. eapply (select_loop_spans chapters chapters 0 []); [|done|done].
  intros i x Hi. done.
Qed.

(** ** The retry loop, one coroutine on its own *)

Lemma retry_loop_done fuel chunk file max_retries retry_delay retries :
  retry_loop fuel chunk file max_retries retry_delay true retries
  = Ret (true, retries).
Proof. by destruct fuel. Qed.

Lemma retry_loop_exhausted fuel chunk file max_retries retry_delay retries :
  max_retries <= retries ->
  retry_loop fuel chunk file max_retries retry_delay false retries
  = Ret (false, retries).
Proof.
  intros H. destruct fuel; simpl;
    destruct (Z.ltb_spec retries max_retries); try lia; done.
Qed.

Section RetryLoop.

Variable sv : service.
Variables (chunk : str) (file : Path) (max_retries retry_delay : Z).
Context {B : Type} (f : bool * Z -> prog B).

(** One turn of the loop, by the answers of the service to the request
    numbered [n]. *)
Lemma retry_loop_turn fuel retries n fs :
  retries < max_retries ->
  exec sv (bind (retry_loop (S fuel) chunk file max_retries retry_delay
                            false retries) f) n fs =
  match create_reply sv n with
  | Exc RateLimitError =>
      prepend (limited_attempt chunk file retry_delay)
              (exec sv (bind (retry_loop fuel chunk file max_retries
                                         retry_delay false (retries + 1)) f)
                    (S n) fs)
  | Exc e => Run (Raised e) fs [EvRequest tts_model tts_voice chunk]
  | Ok r =>
      match stream_reply sv n with
      | Ok _ =>
          prepend [EvRequest tts_model tts_voice chunk; EvAudio file r;
                   EvEcho (MsgCompletedChunk (name file))]
                  (exec sv (f (true, retries)) (S n) (<[file := r]> fs))
      | Exc RateLimitError =>
          prepend (limited_attempt chunk file retry_delay)
                  (exec sv (bind (retry_loop fuel chunk file max_retries
                                             retry_delay false (retries + 1))
                                 f) (S n) fs)
      | Exc e => Run (Raised e) fs [EvRequest tts_model tts_voice chunk]
      end
  end.
Proof.
  intros Hlt. unfold limited_attempt.
  cbn [retry_loop negb andb].
  destruct (Z.ltb_spec retries max_retries) as [_|]; [|lia].
  cbn [attempt speech_create astream_to_file echo sleep bind try_except
       exec lift].
  destruct (create_reply sv n) as [r|e].
  - cbn [attempt speech_create astream_to_file echo sleep bind try_except
         exec lift Nat.pred].
    destruct (stream_reply sv n) as [u|e].
    + cbn [bind try_except exec lift fst snd emit].
      rewrite retry_loop_done. cbn [bind]. by destruct u.
    + destruct e; cbn [bind try_except exec lift fst snd emit]; done.
  - destruct e; cbn [bind try_except exec lift fst snd emit]; done.
Qed.

Lemma retry_loop_stop fuel retries n fs :
  max_retries <= retries ->
  exec sv (bind (retry_loop fuel chunk file max_retries retry_delay
                            false retries) f) n fs
  = exec sv (f (false, retries)) n fs.
Proof. intros H. by rewrite retry_loop_exhausted. Qed.

End RetryLoop.

Lemma prepend_nil {A} (r : run A) : prepend [] r = r.
Proof. by destruct r. Qed.

Lemma prepend_prepend {A} evs1 evs2 (r : run A) :
  prepend evs1 (prepend evs2 r) = prepend (evs1 ++ evs2) r.
Proof. unfold prepend. simpl. by rewrite app_assoc. Qed.

Lemma requests_app evs1 evs2 :
  requests (evs1 ++ evs2) = (requests evs1 + requests evs2)%nat.
Proof. unfold requests. by rewrite filter_app, length_app. Qed.

Lemma requests_repeat_limited k chunk file retry_delay :
  requests (repeat_events k (limited_attempt chunk file retry_delay)) = k.
Proof.
  induction k as [|k IH]; [done|].
  cbn [repeat_events]. rewrite requests_app, IH. done.
Qed.

Lemma repeat_limited_no_audio k chunk file retry_delay :
  Forall (fun ev => is_audio ev = false)
         (repeat_events k (limited_attempt chunk file retry_delay)).
Proof.
  induction k as [|k IH]; [constructor|].
  cbn [repeat_events]. apply Forall_app. split; [|done].
  unfold limited_attempt. by repeat constructor.
Qed.

Lemma retry_loop_always_limited {B} sv chunk file max_retries retry_delay
    (f : bool * Z -> prog B) k :
  (forall n, create_reply sv n = Exc RateLimitError) ->
  forall fuel retries n fs,
    Z.to_nat (max_retries - retries) = k -> (k <= fuel)%nat ->
    exec sv (bind (retry_loop fuel chunk file max_retries retry_delay
                              false retries) f) n fs
    = prepend (repeat_events k (limited_attempt chunk file retry_delay))
              (exec sv (f (false, Z.max retries max_retries)) (n + k) fs).
Proof.
  intros Hsv. induction k as [|k IH]; intros fuel retries n fs Hk Hfuel.
  - rewrite retry_loop_stop by lia. cbn [repeat_events].
    rewrite prepend_nil.
    replace (Z.max retries max_retries) with retries by lia.
    by replace (n + 0)%nat with n by lia.
  - destruct fuel as [|fuel]; [lia|].
    rewrite retry_loop_turn by lia. rewrite Hsv.
    rewrite (IH fuel (retries + 1)) by lia.
    cbn [repeat_events]. rewrite <- prepend_prepend.
    replace (Z.max (retries + 1) max_retries)
      with (Z.max retries max_retries) by lia.
    by replace (S n + k)%nat with (n + S k)%nat by lia.
Qed.

(** C4. A chunk whose every synthesis request is answered with a
    rate-limit error: [_process_chunk] issues exactly [max_retries]
    requests, each followed by the message and by a sleep of [retry_delay]
    seconds; it then prints the failure message and returns normally,
    having raised nothing and written no audio file (the file system holds
    the companion text file and is otherwise as before). Any fuel from
    [max_retries] on gives this result. *)
Theorem process_chunk_always_rate_limited
    sv fuel chunk file txt max_retries retry_delay fs :
  (forall n, create_reply sv n = Exc RateLimitError) ->
  0 <= max_retries ->
  (Z.to_nat max_retries <= fuel)%nat ->
  with_suffix file (lit ".txt") = Ok txt ->
  let r := exec sv (_process_chunk_fuel fuel chunk file max_retries
                                        retry_delay) 0 fs in
  run_result r = Returned tt /\
  run_events r =
    EvEcho (MsgProcessingChunk (name file)) :: EvWriteText txt chunk ::
    repeat_events (Z.to_nat max_retries)
                  (limited_attempt chunk file retry_delay) ++
    [EvEcho (MsgFailedChunk (name file))] /\
  Z.of_nat (requests (run_events r)) = max_retries /\
  Forall (fun ev => is_audio ev = false) (run_events r) /\
  run_fs r = <[txt := chunk]> fs.
Proof.
  intros Hsv Hmax Hfuel Htxt r.
  assert (Hr : r = Run (Returned tt) (<[txt := chunk]> fs)
                 (EvEcho (MsgProcessingChunk (name file)) ::
                  EvWriteText txt chunk ::
                  repeat_events (Z.to_nat max_retries)
                    (limited_attempt chunk file retry_delay) ++
                  [EvEcho (MsgFailedChunk (name file))])).
  { subst r. unfold _process_chunk_fuel. rewrite Htxt.
    cbn [echo write_text bind lift exec].
    rewrite (retry_loop_always_limited sv chunk file max_retries retry_delay
               _ (Z.to_nat max_retries) Hsv fuel 0)
      by lia.
    cbn [fst negb echo exec]. done. }
  rewrite Hr. cbn [run_result run_events run_fs].
  split; [done|]. split; [done|]. split; [|split; [|done]].
  - change (EvEcho ?a :: EvWriteText ?b ?c :: ?l)
      with ([EvEcho a; EvWriteText b c] ++ l).
    rewrite !requests_app, requests_repeat_limited.
    change (requests [EvEcho (MsgProcessingChunk (name file));
                      EvWriteText txt chunk]) with 0%nat.
    change (requests [EvEcho (MsgFailedChunk (name file))]) with 0%nat.
    lia.
  - constructor; [done|]. constructor; [done|].
    apply Forall_app. split; [|by constructor].
    apply repeat_limited_no_audio.
Qed.

(** ** What a coroutine can emit *)

Lemma emits_bind {A B} P (t : prog A) (f : A -> prog B) :
  emits P t -> (forall a, emits P (f a)) -> emits P (bind t f).
Proof.
  intros Ht Hf. induction t as [a|e| |m k IH|p d k IH|mo vo i k IH|r p k IH|d k IH];
    cbn [bind emits] in *; try done; try (by split; [tauto|apply IH; tauto]);
    destruct Ht as [HP Hk]; (split; [done|]); intros o; by apply IH.
Qed.

Lemma emits_try_except {A} P (body : prog A) handler :
  emits P body ->
  (forall e h, handler e = Some h -> emits P h) ->
  emits P (try_except body handler).
Proof.
  intros Ht Hh.
  induction body as [a|e| |m k IH|p d k IH|mo vo i k IH|r p k IH|d k IH];
    cbn [try_except emits] in *; try done.
  - destruct (handler e) as [h|] eqn:E; [by eapply Hh|done].
  - split; [tauto|apply IH; tauto].
  - split; [tauto|apply IH; tauto].
  - destruct Ht as [HP Hk]. split; [done|]. intros o. by apply IH.
  - destruct Ht as [HP Hk]. split; [done|]. intros o. by apply IH.
  - destruct Ht as [HP Hk]. split; [done|]. intros o. by apply IH.
Qed.

Lemma emits_lift {A} P (o : outcome A) : emits P (lift o).
Proof. by destruct o. Qed.

Lemma emits_impl {A} (P Q : event -> Prop) (t : prog A) :
  (forall ev, P ev -> Q ev) -> emits P t -> emits Q t.
Proof.
  intros HPQ.
  induction t as [a|e| |m k IH|p d k IH|mo vo i k IH|r p k IH|d k IH];
    cbn [emits]; try done; intros [HP Hk]; (split; [by apply HPQ|]);
    try (by apply IH); intros o; by apply IH.
Qed.

Lemma exec_emits {A} P sv (t : prog A) n fs :
  emits P t -> Forall P (run_events (exec sv t n fs)).
Proof.
  revert n fs.
  induction t as [a|e| |m k IH|p d k IH|mo vo i k IH|r p k IH|d k IH];
    intros n fs Ht; cbn [exec emits run_events emit] in *;
    try (by constructor).
  - constructor; [tauto|apply IH; tauto].
  - constructor; [tauto|apply IH; tauto].
  - destruct Ht as [HP Hk]. constructor; [done|]. by apply IH.
  - destruct Ht as [HP Hk]. destruct (stream_reply sv (Nat.pred n)).
    + cbn [run_events emit]. constructor; [done|]. by apply IH.
    + by apply IH.
  - destruct Ht as [HP Hk]. constructor; [done|]. by apply IH.
Qed.

Lemma loop_chunk_event chunk file txt ev :
  loop_event chunk file ev -> chunk_event chunk file txt ev.
Proof. by destruct ev. Qed.

Lemma emits_retry_loop fuel chunk file max_retries retry_delay success retries :
  emits (loop_event chunk file)
        (retry_loop fuel chunk file max_retries retry_delay success retries).
Proof.
  revert success retries. induction fuel as [|fuel IH]; intros success retries;
    cbn [retry_loop]; destruct (negb success && (retries <? max_retries));
    try done.
  apply emits_bind; [|intros st; apply IH].
  apply emits_try_except.
  - cbn [attempt speech_create astream_to_file echo bind emits lift].
    split; [done|]. intros [r|e]; cbn [bind lift emits]; [|done].
    split; [done|]. intros [u|e]; cbn [bind lift emits]; done.
  - intros e h Hh. destruct e; try done. inversion Hh; subst.
    cbn [echo sleep bind emits lift]. split; [done|]. split; [done|].
    intros [u|e]; done.
Qed.

Lemma emits_process_chunk fuel chunk file txt max_retries retry_delay :
  with_suffix file (lit ".txt") = Ok txt ->
  emits (chunk_event chunk file txt)
        (_process_chunk_fuel fuel chunk file max_retries retry_delay).
Proof.
  intros Htxt. unfold _process_chunk_fuel. rewrite Htxt.
  cbn [echo write_text lift bind emits]. split; [done|]. split; [done|].
  apply emits_bind.
  - eapply emits_impl; [|apply emits_retry_loop].
    intros ev. apply loop_chunk_event.
  - intros st. destruct (negb (fst st)); done.
Qed.

(** ** Events and the file system *)

Lemma exec_fs {A} sv (t : prog A) n fs :
  run_fs (exec sv t n fs) = apply_events (run_events (exec sv t n fs)) fs.
Proof.
  revert n fs.
  induction t as [a|e| |m k IH|p d k IH|mo vo i k IH|r p k IH|d k IH];
    intros n fs; cbn [exec run_fs run_events emit apply_events fold_left
                      apply_event]; try done; try apply IH.
  destruct (stream_reply sv (Nat.pred n));
    cbn [exec run_fs run_events emit apply_events fold_left apply_event];
    apply IH.
Qed.

Lemma apply_events_frame evs fs q :
  Forall (fun ev => target ev <> Some q) evs ->
  apply_events evs fs !! q = fs !! q.
Proof.
  intros H. revert fs. induction H as [|ev evs Hev _ IH]; intros fs; [done|].
  unfold apply_events in *. cbn [fold_left]. rewrite IH.
  destruct ev; cbn [apply_event target] in *; try done;
    apply lookup_insert_ne; congruence.
Qed.

(** No run of a coroutine is cut short by the fuel of its loop: the fuel
    [max_retries] is enough whatever the service answers. *)
Lemma retry_loop_fuel {B} sv chunk file max_retries retry_delay
    (f : bool * Z -> prog B) fuel :
  (forall st n fs, run_result (exec sv (f st) n fs) <> Diverged) ->
  forall success retries n fs,
    (Z.to_nat (max_retries - retries) <= fuel)%nat ->
    run_result
      (exec sv (bind (retry_loop fuel chunk file max_retries retry_delay
                                 success retries) f) n fs) <> Diverged.
Proof.
  intros Hf. induction fuel as [|fuel IH]; intros success retries n fs Hfuel.
  - destruct success; [rewrite retry_loop_done; apply Hf|].
    rewrite retry_loop_stop by lia. apply Hf.
  - destruct success; [rewrite retry_loop_done; apply Hf|].
    destruct (Z.ltb_spec retries max_retries) as [Hlt|Hge].
    + rewrite retry_loop_turn by done.
      destruct (create_reply sv n) as [r|e].
      * destruct (stream_reply sv n) as [u|e]; [apply Hf|].
        destruct e; try done; cbn [prepend run_result]; apply IH; lia.
      * destruct e; try done; cbn [prepend run_result]; apply IH; lia.
    + rewrite retry_loop_stop by lia. apply Hf.
Qed.

Lemma process_chunk_terminates sv chunk file max_retries retry_delay fuel n fs :
  (Z.to_nat max_retries <= fuel)%nat ->
  run_result (exec sv (_process_chunk_fuel fuel chunk file max_retries
                                           retry_delay) n fs) <> Diverged.
Proof.
  intros Hfuel. unfold _process_chunk_fuel.
  cbn [echo bind exec emit run_result].
  destruct (with_suffix file (lit ".txt")) as [txt|e]; [|done].
  cbn [lift write_text bind exec emit run_result].
  apply retry_loop_fuel; [|lia].
  intros st m fs'. destruct (negb (fst st)); done.
Qed.

(** Run on its own, the task of a chunk first prints its message and
    writes the companion text file; every request comes after that write,
    which is the only text write of the task, and the file is there with
    that content when the task ends, whatever the service answers. *)
Lemma process_chunk_writes_text_first
    sv fuel chunk dir title i max_retries retry_delay fs :
  let file := joinpath dir (speech_name title i) in
  let txt := joinpath dir (text_name title i) in
  let r := exec sv (_process_chunk_fuel fuel chunk file max_retries
                                        retry_delay) 0 fs in
  exists rest,
    run_events r =
      EvEcho (MsgProcessingChunk (speech_name title i)) ::
      EvWriteText txt chunk :: rest /\
    Forall (fun ev => is_write_text ev = false) rest /\
    run_fs r !! txt = Some chunk.
Proof.
  intros file txt r. subst r. unfold _process_chunk_fuel.
  assert (Htxt : with_suffix file (lit ".txt") = Ok txt)
    by apply with_suffix_speech.
  assert (Hname : name file = speech_name title i) by apply name_joinpath.
  rewrite Htxt, Hname.
  cbn [echo write_text lift bind exec emit run_events run_fs].
  set (t := bind (retry_loop _ _ _ _ _ _ _) _).
  assert (Ht : emits (loop_event chunk file) t).
  { apply emits_bind; [apply emits_retry_loop|].
    intros st. destruct (negb (fst st)); done. }
  exists (run_events (exec sv t 0 (<[txt := chunk]> fs))).
  split; [done|]. split.
  - eapply Forall_impl; [by apply exec_emits|].
    intros ev Hev. by destruct ev.
  - rewrite exec_fs, apply_events_frame; [apply lookup_insert_eq|].
    eapply Forall_impl; [by apply exec_emits|].
    intros ev Hev. destruct ev; cbn [target loop_event] in *; try done.
    subst p. intros H.
    apply (speech_text_differ dir title i dir title i).
    apply (inj Some) in H. exact H.
Qed.

Lemma retry_loop_raises {B} sv chunk file max_retries retry_delay
    (f : bool * Z -> prog B) e k :
  e <> RateLimitError ->
  forall fuel retries n fs,
    (forall j, (j < k)%nat -> create_reply sv (n + j) = Exc RateLimitError) ->
    (create_reply sv (n + k) = Exc e \/
     exists r, create_reply sv (n + k) = Ok r /\
               stream_reply sv (n + k) = Exc e) ->
    retries + Z.of_nat k < max_retries -> (k < fuel)%nat ->
    exec sv (bind (retry_loop fuel chunk file max_retries retry_delay
                              false retries) f) n fs
    = Run (Raised e) fs
          (repeat_events k (limited_attempt chunk file retry_delay) ++
           [EvRequest tts_model tts_voice chunk]).
Proof.
  intros He. induction k as [|k IH]; intros fuel retries n fs Hpre Hk Hlt Hfuel;
    (destruct fuel as [|fuel]; [lia|]); rewrite retry_loop_turn by lia.
  - replace (n + 0)%nat with n in Hk by lia.
    destruct Hk as [->|(r & -> & ->)]; by destruct e.
  - rewrite <- (Nat.add_0_r n) at 1. rewrite Hpre by lia.
    rewrite (IH fuel (retries + 1) (S n)); [done| | |lia|lia].
    + intros j Hj. replace (S n + j)%nat with (n + S j)%nat by lia.
      apply Hpre. lia.
    + by replace (S n + k)%nat with (n + S k)%nat by lia.
Qed.

Lemma retry_loop_no_rate_limit {B} sv chunk file max_retries retry_delay
    (f : bool * Z -> prog B) fuel :
  (forall st n fs, run_result (exec sv (f st) n fs) <> Raised RateLimitError) ->
  forall success retries n fs,
    run_result
      (exec sv (bind (retry_loop fuel chunk file max_retries retry_delay
                                 success retries) f) n fs)
    <> Raised RateLimitError.
Proof.
  intros Hf. induction fuel as [|fuel IH]; intros success retries n fs.
  - destruct success; [rewrite retry_loop_done; apply Hf|].
    cbn [retry_loop negb andb].
    destruct (retries <? max_retries); [done|apply Hf].
  - destruct success; [rewrite retry_loop_done; apply Hf|].
    destruct (Z.ltb_spec retries max_retries) as [Hlt|Hge].
    + rewrite retry_loop_turn by done.
      destruct (create_reply sv n) as [r|e].
      * destruct (stream_reply sv n) as [u|e]; [apply Hf|].
        destruct e; try done; cbn [prepend run_result]; apply IH.
      * destruct e; try done; cbn [prepend run_result]; apply IH.
    + rewrite retry_loop_stop by lia. apply Hf.
Qed.

(** A rate-limit error of the service never leaves [_process_chunk]. *)
Lemma process_chunk_no_rate_limit sv fuel chunk file max_retries retry_delay
    n fs :
  run_result (exec sv (_process_chunk_fuel fuel chunk file max_retries
                                           retry_delay) n fs)
  <> Raised RateLimitError.
Proof.
  unfold _process_chunk_fuel. cbn [echo bind exec emit run_result].
  destruct (with_suffix file (lit ".txt")) as [txt|e] eqn:E.
  - cbn [lift write_text bind exec emit run_result].
    apply retry_loop_no_rate_limit.
    intros st m fs'. destruct (negb (fst st)); done.
  - cbn [lift bind exec run_result]. unfold with_suffix in E.
    destruct (name file); by inversion E.
Qed.

(** An exception of the synthesis call that is not a rate-limit error
    ends [_process_chunk] at once: the task ends with that exception, the
    request that failed is the last event, and nothing is printed after
    it. *)
Lemma process_chunk_raises sv fuel chunk file txt max_retries retry_delay
    fs e k :
  with_suffix file (lit ".txt") = Ok txt ->
  e <> RateLimitError ->
  (forall j, (j < k)%nat -> create_reply sv j = Exc RateLimitError) ->
  (create_reply sv k = Exc e \/
   exists r, create_reply sv k = Ok r /\ stream_reply sv k = Exc e) ->
  Z.of_nat k < max_retries -> (k < fuel)%nat ->
  exec sv (_process_chunk_fuel fuel chunk file max_retries retry_delay) 0 fs
  = Run (Raised e) (<[txt := chunk]> fs)
        (EvEcho (MsgProcessingChunk (name file)) :: EvWriteText txt chunk ::
         repeat_events k (limited_attempt chunk file retry_delay) ++
         [EvRequest tts_model tts_voice chunk]).
Proof.
  intros Htxt He Hpre Hk Hlt Hfuel. unfold _process_chunk_fuel. rewrite Htxt.
  cbn [echo write_text bind lift exec].
  rewrite (retry_loop_raises sv chunk file max_retries retry_delay _ e k);
    done || lia.
Qed.

(** ** The tasks a book starts with *)

Section Start.

Variable chunk : str -> list str.
Variable fs : filesystem.
Variable dir : Path.

Lemma spawn_loop_tasks c title l k evs tasks :
  spawn_loop fs c title dir (enumerate_from k l) = (evs, tasks) ->
  Forall (fun ev => is_echo ev = true) evs /\
  Forall (fun t =>
            t_chapter t = c /\
            (k <= t_index t)%nat /\
            l !! (t_index t - k)%nat = Some (t_chunk t) /\
            t_file t = joinpath dir (speech_name title (t_index t)) /\
            fs !! t_file t = None /\
            t_prog t = _process_chunk (t_chunk t) (t_file t)
                         default_max_retries default_retry_delay) tasks.
Proof.
  revert k evs tasks. induction l as [|x l IH]; intros k evs tasks H.
  - cbn [enumerate_from spawn_loop] in H. by inversion H; subst.
  - cbn [enumerate_from spawn_loop] in H.
    destruct (spawn_loop fs c title dir (enumerate_from (S k) l))
      as [evs' tasks'] eqn:E.
    destruct (IH _ _ _ E) as [Hevs Htasks].
    assert (Htasks' : Forall (fun t =>
            t_chapter t = c /\
            (k <= t_index t)%nat /\
            (x :: l) !! (t_index t - k)%nat = Some (t_chunk t) /\
            t_file t = joinpath dir (speech_name title (t_index t)) /\
            fs !! t_file t = None /\
            t_prog t = _process_chunk (t_chunk t) (t_file t)
                         default_max_retries default_retry_delay) tasks').
    { eapply Forall_impl; [exact Htasks|].
      intros t (Hc & Hk & Hl & Hrest). split; [done|]. split; [lia|].
      split; [|done].
      replace (t_index t - k)%nat with (S (t_index t - S k)) by lia. done. }
    unfold exists_ in H. case_bool_decide as Hex; inversion H; subst.
    + split; [by constructor|done].
    + split; [done|]. constructor; [|done]. cbn.
      split; [done|]. split; [lia|]. rewrite Nat.sub_diag.
      split; [done|]. split; [done|]. split; [|done].
      by apply eq_None_not_Some.
Qed.

Lemma process_chapter_tasks c chapter_text title evs tasks :
  _process_chapter chunk fs c chapter_text title dir = (evs, tasks) ->
  Forall (fun ev => is_echo ev = true) evs /\
  Forall (task_of chunk fs dir c chapter_text title) tasks.
Proof.
  unfold _process_chapter, enumerate. intros H.
  destruct (spawn_loop _ _ _ _ _) as [evs' tasks'] eqn:E.
  inversion H; subst. apply spawn_loop_tasks in E as [Hevs Htasks].
  split; [by constructor|].
  eapply Forall_impl; [exact Htasks|].
  intros t (Hc & _ & Hl & Hrest). rewrite Nat.sub_0_r in Hl. done.
Qed.

(** The state a book starts in: nothing written yet, only messages of
    the chapters in the trace, every chapter waiting for its tasks, and
    one task for every chunk whose audio file is missing. *)
Lemma start_chapters_spec text selected c0 :
  let st := start_chapters chunk fs text dir c0 selected in
  st_fs st = fs /\
  Forall (fun x => is_echo (snd x) = true /\
                   exists c, fst x = OChapter c) (st_trace st) /\
  st_chapters st = (fun s => (snd s, ChJoining)) <$> selected /\
  Forall (fun t =>
            exists start stop title,
              (c0 <= t_chapter t)%nat /\
              selected !! (t_chapter t - c0)%nat
                = Some (start, stop, title) /\
              task_of chunk fs dir (t_chapter t)
                      (slice text start stop) title t) (st_tasks st).
Proof.
  revert c0. induction selected as [|[[start stop] title] rest IH];
    intros c0; cbn [start_chapters].
  - by repeat split.
  - destruct (_process_chapter chunk fs c0 (slice text start stop) title dir)
      as [evs tasks] eqn:E.
    apply process_chapter_tasks in E as [Hevs Htasks].
    destruct (IH (S c0)) as (Hfs & Htr & Hch & Hts).
    cbn [st_fs st_trace st_chapters st_tasks]. split; [done|].
    split; [|split].
    + apply Forall_app. split; [|done]. unfold tag.
      apply Forall_fmap. eapply Forall_impl; [exact Hevs|].
      intros ev Hev. cbn. eauto.
    + rewrite Hch. done.
    + apply Forall_app. split.
      * eapply Forall_impl; [exact Htasks|].
        intros t Ht. exists start, stop, title.
        destruct Ht as (Hc & Hrest). rewrite Hc, Nat.sub_diag.
        split; [lia|]. split; [done|]. by split.
      * eapply Forall_impl; [exact Hts|].
        intros t (start' & stop' & title' & Hle & Hsel & Ht).
        exists start', stop', title'. split; [lia|]. split; [|done].
        replace (t_chapter t - c0)%nat with (S (t_chapter t - S c0)) by lia.
        done.
Qed.

End Start.

(** ** What the steps of a run preserve *)

Lemma text_path_speech dir title i :
  text_path (joinpath dir (speech_name title i))
  = joinpath dir (text_name title i).
Proof. unfold text_path. by rewrite with_suffix_speech. Qed.

Lemma apply_events_app evs1 evs2 fs :
  apply_events (evs1 ++ evs2) fs = apply_events evs2 (apply_events evs1 fs).
Proof. unfold apply_events. by rewrite fold_left_app. Qed.

Lemma run_sync_spec {A} P (t t' : prog A) fs fs' evs :
  emits P t -> run_sync t fs = (t', fs', evs) ->
  emits P t' /\ Forall P evs /\ fs' = apply_events evs fs.
Proof.
  revert fs fs' evs t'.
  induction t as [a|e| |m k IH|p d k IH|mo vo i k IH|r p k IH|d k IH];
    intros fs fs' evs t' Ht H; cbn [run_sync emits] in *;
    try (by inversion H; subst; repeat split; try done; repeat constructor;
         tauto).
  - destruct (run_sync k fs) as [[t1 fs1] evs1] eqn:E.
    inversion H; subst. destruct Ht as [HP Hk].
    destruct (IH _ _ _ _ Hk E) as (? & ? & ?).
    split; [done|]. split; [by constructor|done].
  - destruct (run_sync k (<[p := d]> fs)) as [[t1 fs1] evs1] eqn:E.
    inversion H; subst. destruct Ht as [HP Hk].
    destruct (IH _ _ _ _ Hk E) as (? & ? & ?).
    split; [done|]. split; [by constructor|done].
Qed.

Lemma resume_spec {A} P (t t1 : prog A) r fs fs1 evs1 :
  emits P t -> resume t r fs = Some (t1, fs1, evs1) ->
  emits P t1 /\ Forall P evs1 /\ fs1 = apply_events evs1 fs.
Proof.
  intros Ht H. destruct t; try done; destruct r as [a|  |e]; try done;
    cbn [resume emits] in *; try (destruct (decide (e = CancelledError)));
    try done; inversion H; subst; destruct Ht as [HP Hk];
    (split; [apply Hk|]); split; try done; by repeat constructor.
Qed.

Lemma cancel_spec {A} P (t t1 : prog A) :
  emits P t -> cancel t = Some t1 -> emits P t1.
Proof.
  intros Ht H. destruct t; try done; cbn [cancel emits] in *;
    inversion H; subst; try done; apply Ht.
Qed.

Lemma task_move_spec {A} P (t t' : prog A) a fs fs' evs :
  emits P t -> task_move t a fs = Some (t', fs', evs) ->
  emits P t' /\ Forall P evs /\ fs' = apply_events evs fs.
Proof.
  intros Ht H. destruct a as [|r|]; cbn [task_move] in H.
  - destruct (is_await t || is_final t); [done|].
    inversion H as [H']. by eapply run_sync_spec.
  - destruct (resume t r fs) as [[[t1 fs1] evs1]|] eqn:E; [|done].
    destruct (resume_spec P _ _ _ _ _ _ Ht E) as (Ht1 & Hevs1 & ->).
    destruct (run_sync t1 _) as [[t2 fs2] evs2] eqn:E2.
    inversion H; subst.
    destruct (run_sync_spec P _ _ _ _ _ Ht1 E2) as (? & ? & ->).
    split; [done|]. split; [by apply Forall_app|].
    by rewrite apply_events_app.
  - destruct (cancel t) as [t1|] eqn:E; [|done].
    inversion H as [H']. eapply run_sync_spec; [|done].
    by eapply cancel_spec.
Qed.

Lemma echo_apply_events evs fs :
  Forall (fun ev => is_echo ev = true) evs -> apply_events evs fs = fs.
Proof.
  intros H. revert fs. induction H as [|ev evs Hev _ IH]; intros fs; [done|].
  unfold apply_events in *. cbn [fold_left]. rewrite IH. by destruct ev.
Qed.

Lemma inv_step fs0 ids titles st st' :
  inv fs0 ids titles st -> step st st' -> inv fs0 ids titles st'.
Proof.
  intros [Hfs Htasks Hids Htitles Htrace] Hstep.
  destruct Hstep as [st n t a p' fs' evs Hn Ha Hmove
                    |st c title Hc Hall
                    |st c title Hc Hall Herr
                    |st c title Hc Hall Herr Hab].
  - assert (Hok : task_ok t) by (eapply Forall_lookup_1; done).
    destruct (task_move_spec _ _ _ _ _ _ _ Hok Hmove) as (Hp' & Hevs & ->).
    assert (Hid : (t_chapter t, t_index t, t_chunk t, t_file t) ∈ ids).
    { rewrite <- Hids. apply list_elem_of_fmap.
      exists t. split; [done|]. by eapply list_elem_of_lookup_2. }
    constructor; cbn [st_fs st_trace st_tasks st_chapters].
    + rewrite fmap_app, apply_events_app, <- Hfs. f_equal.
      unfold tag. rewrite <- list_fmap_compose. symmetry. apply list_fmap_id.
    + apply Forall_insert; done.
    + rewrite list_fmap_insert. cbn. rewrite <- Hids.
      apply list_insert_id. by rewrite list_lookup_fmap, Hn.
    + done.
    + apply Forall_app. split; [done|]. unfold tag. apply Forall_fmap.
      eapply Forall_impl; [exact Hevs|]. intros ev Hev.
      unfold event_ok, task_origin. cbn. eauto.
  - constructor; cbn [st_fs st_trace st_tasks st_chapters]; try done.
    + rewrite fmap_app, apply_events_app, <- Hfs. done.
    + rewrite list_fmap_insert. cbn. rewrite <- Htitles.
      apply list_insert_id. by rewrite list_lookup_fmap, Hc.
    + apply Forall_app. split; [done|]. by repeat constructor.
  - constructor; cbn [st_fs st_trace st_tasks st_chapters]; try done.
    rewrite list_fmap_insert. cbn. rewrite <- Htitles.
    apply list_insert_id. by rewrite list_lookup_fmap, Hc.
  - constructor; cbn [st_fs st_trace st_tasks st_chapters]; try done.
    rewrite list_fmap_insert. cbn. rewrite <- Htitles.
    apply list_insert_id. by rewrite list_lookup_fmap, Hc.
Qed.

Lemma inv_steps fs0 ids titles st st' :
  inv fs0 ids titles st -> steps st st' -> inv fs0 ids titles st'.
Proof.
  intros H Hs. induction Hs as [|st1 st2 st3 _ IH Hstep]; [done|].
  eapply inv_step; [|exact Hstep]. by apply IH.
Qed.

Lemma task_ok_process_chunk c i chunk file max_retries retry_delay :
  task_ok (Task c i chunk file
                (_process_chunk chunk file max_retries retry_delay)).
Proof.
  unfold task_ok, text_path, _process_chunk. cbn [t_chunk t_file t_prog].
  destruct (with_suffix file (lit ".txt")) as [txt|e] eqn:E.
  - by apply emits_process_chunk.
  - unfold _process_chunk_fuel. rewrite E. by cbn.
Qed.

Lemma apply_events_keeps evs fs q :
  is_Some (fs !! q) -> is_Some (apply_events evs fs !! q).
Proof.
  revert fs. induction evs as [|ev evs IH]; intros fs Hq; [done|].
  unfold apply_events in *. cbn [fold_left]. apply IH.
  destruct ev; cbn [apply_event]; try done;
    rewrite lookup_insert; case_decide; eauto.
Qed.

Section Run.

Variable chunk : str -> list str.
Variables (text : str) (input_path : Path) (fs0 : filesystem).
Variable selected : list (Z * Z * str).
Variable st0 : state.

Hypothesis Hselected : select_chapters (find_chapters text) = Ok selected.
Hypothesis Hstart : _process_book chunk text input_path fs0 = Ok st0.

Lemma start_state :
  st0 = start_chapters chunk fs0 text (parent input_path) 0 selected.
Proof.
  unfold _process_book in Hstart. rewrite Hselected in Hstart.
  by inversion Hstart.
Qed.

(** Every task of the run is the task of a chunk of a selected chapter
    whose audio file was missing at the start. *)
Lemma start_ids c i chunk_text file :
  (c, i, chunk_text, file) ∈ (task_id_of <$> st_tasks st0) ->
  exists start stop title,
    selected !! c = Some (start, stop, title) /\
    chunk (slice text start stop) !! i = Some chunk_text /\
    file = joinpath (parent input_path) (speech_name title i) /\
    fs0 !! file = None.
Proof.
  intros Hin. rewrite start_state in Hin.
  apply list_elem_of_fmap in Hin as (t & Hid & Ht).
  destruct (start_chapters_spec chunk fs0 (parent input_path) text selected 0)
    as (_ & _ & _ & Hts).
  rewrite Forall_forall in Hts.
  destruct (Hts t Ht) as (start & stop & title & _ & Hsel & Htask).
  rewrite Nat.sub_0_r in Hsel.
  destruct Htask as (Hc & Hi & Hf & Hnone & _).
  unfold task_id_of in Hid. inversion Hid; subst.
  exists start, stop, title. by rewrite <- Hf.
Qed.

Lemma start_inv : inv fs0 (task_id_of <$> st_tasks st0) (snd <$> selected) st0.
Proof.
  destruct (start_chapters_spec chunk fs0 (parent input_path) text selected 0)
    as (Hfs & Htr & Hch & Hts).
  rewrite <- start_state in Hfs, Htr, Hch, Hts.
  constructor.
  - rewrite Hfs. symmetry. apply echo_apply_events.
    apply Forall_fmap. eapply Forall_impl; [exact Htr|]. by intros x [? _].
  - eapply Forall_impl; [exact Hts|].
    intros t (start & stop & title & _ & _ & Htask).
    destruct Htask as (_ & _ & _ & _ & Hp).
    unfold task_ok. rewrite Hp.
    apply (task_ok_process_chunk (t_chapter t) (t_index t)).
  - done.
  - rewrite Hch. rewrite <- list_fmap_compose.
    by apply list_fmap_ext.
  - eapply Forall_impl; [exact Htr|].
    intros [o ev] [Hecho [c Ho]]. cbn in *. subst o. done.
Qed.

Lemma run_inv st : steps st0 st -> inv fs0 (task_id_of <$> st_tasks st0) (snd <$> selected) st.
Proof. apply inv_steps, start_inv. Qed.

(** Where an event that writes a file can write. *)
Lemma write_event_path st o ev p :
  steps st0 st -> (o, ev) ∈ st_trace st -> target ev = Some p ->
  exists c i start stop title chunk_text,
    o = OChunk c i /\
    selected !! c = Some (start, stop, title) /\
    chunk (slice text start stop) !! i = Some chunk_text /\
    fs0 !! joinpath (parent input_path) (speech_name title i) = None /\
    ((exists r, ev = EvAudio p r) /\
       p = joinpath (parent input_path) (speech_name title i) \/
     ev = EvWriteText p chunk_text /\
       p = joinpath (parent input_path) (text_name title i)).
Proof.
  intros Hsteps Hin Htarget.
  pose proof (inv_trace _ _ _ _ (run_inv st Hsteps)) as Htr.
  rewrite Forall_forall in Htr. specialize (Htr _ Hin).
  unfold event_ok in Htr. cbn in Htr. destruct o as [c|c i].
  { destruct ev; done. }
  destruct Htr as (chunk_text & file & Hid & Hev).
  destruct (start_ids _ _ _ _ Hid)
    as (start & stop & title & Hsel & Hchunk & -> & Hnone).
  exists c, i, start, stop, title, chunk_text.
  split; [done|]. split; [done|]. split; [done|]. split; [done|].
  rewrite text_path_speech in Hev.
  destruct ev; cbn [target chunk_event] in *; try done.
  - right. inversion Htarget; subst. destruct Hev as [-> ->]. done.
  - left. inversion Htarget; subst. split; [eauto|done].
Qed.

(** A chunk whose audio file is there at the start has no task: nothing
    in the trace comes from it, and its audio file and its text file
    are, in every state of the run, as they were. *)
Lemma skipped_chunk_untouched st c start stop title i :
  steps st0 st ->
  selected !! c = Some (start, stop, title) ->
  is_Some (fs0 !! joinpath (parent input_path) (speech_name title i)) ->
  (forall ev, (OChunk c i, ev) ∉ st_trace st) /\
  st_fs st !! joinpath (parent input_path) (speech_name title i)
    = fs0 !! joinpath (parent input_path) (speech_name title i) /\
  st_fs st !! joinpath (parent input_path) (text_name title i)
    = fs0 !! joinpath (parent input_path) (text_name title i).
Proof.
  intros Hsteps Hsel [data Hdata].
  pose proof (run_inv st Hsteps) as [Hfs _ _ _ Htr].
  rewrite Forall_forall in Htr.
  split; [|split].
  - intros ev Hin. specialize (Htr _ Hin). unfold event_ok in Htr.
    cbn in Htr. destruct Htr as (chunk_text & file & Hid & _).
    destruct (start_ids _ _ _ _ Hid)
      as (start' & stop' & title' & Hsel' & _ & -> & Hnone).
    rewrite Hsel in Hsel'. inversion Hsel'; subst. congruence.
  - rewrite Hfs. apply apply_events_frame, Forall_fmap, Forall_forall.
    intros [o ev] Hin Htarget. cbn in Htarget.
    destruct (write_event_path st o ev _ Hsteps Hin Htarget)
      as (c' & i' & start' & stop' & title' & chunk_text & _ & _ & _
          & Hnone & [[_ Hp]|[_ Hp]]).
    + rewrite <- Hp in Hnone. congruence.
    + by apply speech_text_differ in Hp.
  - rewrite Hfs. apply apply_events_frame, Forall_fmap, Forall_forall.
    intros [o ev] Hin Htarget. cbn in Htarget.
    destruct (write_event_path st o ev _ Hsteps Hin Htarget)
      as (c' & i' & start' & stop' & title' & chunk_text & _ & _ & _
          & Hnone & [[_ Hp]|[_ Hp]]).
    + symmetry in Hp. by apply speech_text_differ in Hp.
    + apply joinpath_inj, text_name_inj in Hp. rewrite <- Hp in Hnone.
      congruence.
Qed.

(** What the trace of a run holds: messages of the chapters, and events
    of the tasks of chunks whose audio file was missing at the start. *)
Lemma trace_event st o ev :
  steps st0 st -> (o, ev) ∈ st_trace st ->
  match o with
  | OChapter _ => is_echo ev = true
  | OChunk c i =>
      exists start stop title chunk_text,
        selected !! c = Some (start, stop, title) /\
        chunk (slice text start stop) !! i = Some chunk_text /\
        fs0 !! joinpath (parent input_path) (speech_name title i) = None /\
        chunk_event chunk_text (joinpath (parent input_path) (speech_name title i))
                    (joinpath (parent input_path) (text_name title i)) ev
  end.
Proof.
  intros Hsteps Hin.
  pose proof (inv_trace _ _ _ _ (run_inv st Hsteps)) as Htr.
  rewrite Forall_forall in Htr. specialize (Htr _ Hin).
  unfold event_ok in Htr. cbn in Htr. destruct o as [c|c i]; [done|].
  destruct Htr as (chunk_text & file & Hid & Hev).
  destruct (start_ids _ _ _ _ Hid)
    as (start & stop & title & Hsel & Hchunk & -> & Hnone).
  rewrite text_path_speech in Hev.
  by exists start, stop, title, chunk_text.
Qed.

Lemma skipped_chunk_no_task st c start stop title i :
  steps st0 st ->
  selected !! c = Some (start, stop, title) ->
  is_Some (fs0 !! joinpath (parent input_path) (speech_name title i)) ->
  Forall (fun t => task_origin t <> OChunk c i) (st_tasks st).
Proof.
  intros Hsteps Hsel [data Hdata]. apply Forall_forall. intros t Ht Ho.
  pose proof (inv_ids _ _ _ _ (run_inv st Hsteps)) as Hids.
  assert (Hid : task_id_of t ∈ (task_id_of <$> st_tasks st0)).
  { rewrite <- Hids. apply list_elem_of_fmap. eauto. }
  unfold task_id_of in Hid. unfold task_origin in Ho.
  inversion Ho as [[Hc Hi]]. rewrite Hc, Hi in Hid.
  destruct (start_ids _ _ _ _ Hid)
    as (start' & stop' & title' & Hsel' & _ & Hf & Hnone).
  rewrite Hsel in Hsel'. inversion Hsel'; subst. congruence.
Qed.

(** The program deletes nothing. *)
Lemma run_keeps_files st q :
  steps st0 st -> is_Some (fs0 !! q) -> is_Some (st_fs st !! q).
Proof.
  intros Hsteps. rewrite (inv_fs _ _ _ _ (run_inv st Hsteps)).
  apply apply_events_keeps.
Qed.

(** When the audio file of every chunk is there at the start, the run
    has no task, issues no request and leaves the file system as it
    was. *)
Lemma complete_book_untouched st :
  (forall c start stop title i,
      selected !! c = Some (start, stop, title) ->
      is_Some (chunk (slice text start stop) !! i) ->
      is_Some (fs0 !! joinpath (parent input_path) (speech_name title i))) ->
  steps st0 st ->
  st_tasks st = [] /\
  Forall (fun x => is_echo (snd x) = true) (st_trace st) /\
  st_fs st = fs0.
Proof.
  intros Hall Hsteps.
  assert (Htr : Forall (fun x => is_echo (snd x) = true) (st_trace st)).
  { apply Forall_forall. intros [o ev] Hin.
    pose proof (trace_event st o ev Hsteps Hin) as H.
    destruct o as [c|c i]; [done|].
    destruct H as (start & stop & title & chunk_text & Hsel & Hc & Hnone & _).
    destruct (Hall c start stop title i Hsel) as [data Hdata]; [eauto|].
    congruence. }
  split; [|split; [done|]].
  - pose proof (inv_ids _ _ _ _ (run_inv st Hsteps)) as Hids.
    destruct (st_tasks st) as [|t ts]; [done|].
    assert (Hid : task_id_of t ∈ (task_id_of <$> st_tasks st0)).
    { rewrite <- Hids. apply list_elem_of_fmap. exists t.
      split; [done|]. by left. }
    destruct (start_ids _ _ _ _ Hid)
      as (start & stop & title & Hsel & Hc & Hf & Hnone).
    destruct (Hall (t_chapter t) start stop title (t_index t) Hsel)
      as [data Hdata]; [eauto|]. congruence.
  - rewrite (inv_fs _ _ _ _ (run_inv st Hsteps)).
    apply echo_apply_events, Forall_fmap. done.
Qed.

End Run.

(** ** Schedules are runs *)

Lemma steps_trans st1 st2 st3 : steps st1 st2 -> steps st2 st3 -> steps st1 st3.
Proof.
  intros H12 H23. induction H23 as [|st2 st3 st4 _ IH Hstep]; [done|].
  eapply steps_step; [|exact Hstep]. by apply IH.
Qed.

Lemma do_task_step st n a st' : do_task st n a = Some st' -> step st st'.
Proof.
  unfold do_task. intros H.
  destruct (st_tasks st !! n) as [t|] eqn:Hn; [|done].
  destruct (match a with Cancel => negb (aborting st (t_chapter t))
                       | _ => false end) eqn:Ha; [done|].
  destruct (task_move (t_prog t) a (st_fs st)) as [[[p' fs'] evs]|] eqn:Hm;
    [|done].
  inversion H; subst. eapply step_task; [done| |done].
  intros ->. by apply negb_false_iff in Ha.
Qed.

Lemma do_join_step st c st' : do_join st c = Some st' -> step st st'.
Proof.
  unfold do_join. intros H.
  destruct (st_chapters st !! c) as [[title status]|] eqn:Hc; [|done].
  destruct status; try done.
  destruct (decide (all_final c (st_tasks st))) as [Hfin|]; [|done].
  destruct (chapter_errors c (st_tasks st)) as [|e errors] eqn:He.
  - destruct (decide (all_returned c (st_tasks st))) as [Hret|].
    + inversion H; subst. by apply step_join_return.
    + destruct (outer_abort st c) eqn:Hab; [|done].
      inversion H; subst. by apply step_join_cancel.
  - inversion H; subst. rewrite <- He. apply step_join_raise; [done|done|].
    by rewrite He.
Qed.

Lemma play_steps ms st st' : play st ms = Some st' -> steps st st'.
Proof.
  revert st. induction ms as [|m ms IH]; intros st H; cbn [play] in H.
  - inversion H; subst. constructor.
  - destruct (do_move st m) as [st1|] eqn:Hm; [|done].
    eapply steps_trans; [|by apply IH].
    eapply steps_step; [constructor|].
    destruct m as [n a|c]; [by eapply do_task_step|by eapply do_join_step].
Qed.

(** ** The text file comes before the requests, in every run *)

Lemma run_sync_fresh chunk file fs :
  match with_suffix file (lit ".txt") with
  | Ok txt =>
      exists p',
        run_sync (_process_chunk chunk file default_max_retries
                                 default_retry_delay) fs
        = (p', <[txt := chunk]> fs,
           [EvEcho (MsgProcessingChunk (name file)); EvWriteText txt chunk;
            EvRequest tts_model tts_voice chunk])
  | Exc e =>
      run_sync (_process_chunk chunk file default_max_retries
                               default_retry_delay) fs
      = (Raise e, fs, [EvEcho (MsgProcessingChunk (name file))])
  end.
Proof.
  unfold _process_chunk, _process_chunk_fuel.
  change (Z.to_nat default_max_retries) with 10%nat.
  destruct (with_suffix file (lit ".txt")) as [txt|e].
  - cbn. eexists. reflexivity.
  - reflexivity.
Qed.

Lemma written_app trace more t : written trace t -> written (trace ++ more) t.
Proof. intros [j Hj]. exists j. by apply lookup_app_l_Some. Qed.

Lemma task_order_app trace more t :
  task_order trace t -> task_order (trace ++ more) t.
Proof. intros [H|H]; [left; by apply written_app|by right]. Qed.

Lemma requests_after_writes_app trace more :
  requests_after_writes trace ->
  Forall (fun x => is_request (snd x) = false) more ->
  requests_after_writes (trace ++ more).
Proof.
  intros Htr Hmore k o mo vo chunk Hk.
  apply lookup_app_Some in Hk as [Hk|[Hge Hk]].
  - destruct (Htr _ _ _ _ _ Hk) as (j & p & Hj & Hw).
    exists j, p. split; [done|]. by apply lookup_app_l_Some.
  - rewrite Forall_forall in Hmore.
    apply list_elem_of_lookup_2, Hmore in Hk. done.
Qed.

Lemma order_step st st' : order_inv st -> step st st' -> order_inv st'.
Proof.
  intros [Hok Hts Htr] Hstep.
  destruct Hstep as [st n t a p' fs' evs Hn Ha Hmove
                    |st c title Hc Hall
                    |st c title Hc Hall Herr
                    |st c title Hc Hall Herr Hab];
    [| |by constructor|by constructor].
  2:{ constructor; cbn [st_tasks st_trace]; [done| |].
      - eapply Forall_impl; [exact Hts|]. intros t. apply task_order_app.
      - apply requests_after_writes_app; [done|by repeat constructor]. }
  assert (Htok : task_ok t) by (eapply Forall_lookup_1; done).
  assert (Hto : task_order (st_trace st) t) by (eapply Forall_lookup_1; done).
  destruct (task_move_spec _ _ _ _ _ _ _ Htok Hmove) as (Hp' & Hevs & _).
  (* the turn of a fresh task *)
  assert (Hfresh : fresh t ->
            (evs = [] \/ evs = [EvEcho (MsgProcessingChunk (name (t_file t)))] \/
             evs = [EvEcho (MsgProcessingChunk (name (t_file t)));
                    EvWriteText (text_path (t_file t)) (t_chunk t);
                    EvRequest tts_model tts_voice (t_chunk t)]) /\
            (Forall no_request evs -> emits no_request p')).
  { intros Hf. unfold fresh in Hf. rewrite Hf in Hmove.
    pose proof (run_sync_fresh (t_chunk t) (t_file t) (st_fs st)) as Hrun.
    unfold text_path. destruct a as [|r|]; cbn [task_move] in Hmove.
    - change (is_await _ || is_final _) with false in Hmove.
      destruct (with_suffix (t_file t) (lit ".txt")) as [txt|e].
      + destruct Hrun as [q Hq]. rewrite Hq in Hmove. inversion Hmove; subst.
        split; [by right; right|]. intros Hno.
        inversion Hno as [|? ? _ Hno']. inversion Hno' as [|? ? _ Hno''].
        inversion Hno'' as [|? ? Hr _]. done.
      + rewrite Hrun in Hmove. inversion Hmove; subst.
        split; [by right; left|done].
    - done.
    - inversion Hmove; subst. split; [by left|done]. }
  constructor; cbn [st_tasks st_trace].
  - by apply Forall_insert.
  - apply Forall_insert.
    + eapply Forall_impl; [exact Hts|]. intros t0. apply task_order_app.
    + unfold task_order. cbn [set_prog t_prog].
      destruct Hto as [Hw|[Hno|Hf]].
      * left. apply written_app.
        destruct Hw as [j Hj]. by exists j.
      * right; left. eapply task_move_spec; [exact Hno|exact Hmove].
      * destruct (Hfresh Hf) as [[ -> | [ -> | -> ]] Hemits].
        -- right; left. apply Hemits. constructor.
        -- right; left. apply Hemits. by repeat constructor.
        -- left. exists (S (length (st_trace st))).
           rewrite lookup_app_r by lia.
           replace (S (length (st_trace st)) - length (st_trace st))%nat
             with 1%nat by lia. done.
  - intros k o mo vo chunk Hk.
    apply lookup_app_Some in Hk as [Hk|[Hge Hk]].
    { destruct (Htr _ _ _ _ _ Hk) as (j & p & Hj & Hw).
      exists j, p. split; [done|]. by apply lookup_app_l_Some. }
    unfold tag in Hk. rewrite list_lookup_fmap in Hk.
    destruct (evs !! (k - length (st_trace st))%nat) as [ev|] eqn:Hev; [|done].
    cbn in Hk. inversion Hk; subst o ev.
    assert (Hchunk : chunk = t_chunk t).
    { rewrite Forall_forall in Hevs.
      apply list_elem_of_lookup_2, Hevs in Hev. cbn in Hev. tauto. }
    subst chunk. destruct Hto as [[j Hj]|[Hno|Hf]].
    + exists j, (text_path (t_file t)).
      apply lookup_lt_Some in Hj as Hlt. split; [lia|].
      by apply lookup_app_l_Some.
    + destruct (task_move_spec _ _ _ _ _ _ _ Hno Hmove) as (_ & Hnone & _).
      rewrite Forall_forall in Hnone.
      apply list_elem_of_lookup_2, Hnone in Hev. done.
    + destruct (Hfresh Hf) as [[ -> | [ -> | -> ]] _].
      * done.
      * destruct (k - length (st_trace st))%nat as [|[|?]]; done.
      * destruct (k - length (st_trace st))%nat as [|[|[|?]]] eqn:Hd;
          try done.
        exists (S (length (st_trace st))), (text_path (t_file t)).
        split; [lia|]. rewrite lookup_app_r by lia.
        replace (S (length (st_trace st)) - length (st_trace st))%nat
          with 1%nat by lia. done.
Qed.

Lemma order_steps st st' : order_inv st -> steps st st' -> order_inv st'.
Proof.
  intros H Hs. induction Hs as [|st1 st2 st3 _ IH Hstep]; [done|].
  eapply order_step; [|exact Hstep]. by apply IH.
Qed.

Lemma order_start chunk fs text dir selected :
  order_inv (start_chapters chunk fs text dir 0 selected).
Proof.
  destruct (start_chapters_spec chunk fs dir text selected 0)
    as (_ & Htr & _ & Hts).
  constructor.
  - eapply Forall_impl; [exact Hts|].
    intros t (start & stop & title & _ & _ & Htask).
    destruct Htask as (_ & _ & _ & _ & Hp).
    unfold task_ok. rewrite Hp.
    apply (task_ok_process_chunk (t_chapter t) (t_index t)).
  - eapply Forall_impl; [exact Hts|].
    intros t (start & stop & title & _ & _ & Htask).
    right; right. apply Htask.
  - intros k o mo vo c Hk. rewrite Forall_forall in Htr.
    apply list_elem_of_lookup_2, Htr in Hk. by destruct Hk as [? _].
Qed.

(** C7. The companion text file of a chunk is the name of its audio file
    with the extension [.txt] and holds the text of the chunk. Run on its
    own against any service (success, rate limits or any other exception),
    the task of a chunk first prints its message and writes that file;
    every request comes after the write, which is the only text write of
    the task, and the file holds the text when the task ends. And in every
    state of every run of a book, whatever the schedule, the answers of
    the service and the cancellations, every request in the trace has
    before it, from the same chunk, the write of a text file holding the
    text the request sends. *)
Theorem text_file_written_before_requests :
  (forall sv fuel chunk_text dir title i max_retries retry_delay fs,
      let file := joinpath dir (speech_name title i) in
      let txt := joinpath dir (text_name title i) in
      let r := exec sv (_process_chunk_fuel fuel chunk_text file max_retries
                                            retry_delay) 0 fs in
      exists rest,
        run_events r =
          EvEcho (MsgProcessingChunk (speech_name title i)) ::
          EvWriteText txt chunk_text :: rest /\
        Forall (fun ev => is_write_text ev = false) rest /\
        run_fs r !! txt = Some chunk_text) /\
  (forall chunk text input_path fs0 st0 st,
      _process_book chunk text input_path fs0 = Ok st0 ->
      steps st0 st ->
      requests_after_writes (st_trace st)).
Proof.
  split.
  - intros sv fuel chunk_text dir title i max_retries retry_delay fs.
    apply process_chunk_writes_text_first.
  - intros chunk text input_path fs0 st0 st Hstart Hsteps.
    unfold _process_book in Hstart.
    destruct (select_chapters (find_chapters text)) as [selected|]; [|done].
    inversion Hstart; subst st0.
    eapply ord_trace, order_steps; [|exact Hsteps]. apply order_start.
Qed.

(** ** A coroutine run on its own is a run of the event loop *)

Lemma run_task_resume {A} (t t1 : prog A) fs fs1 evs1 r rs :
  is_await t = true ->
  resume t r fs = Some (t1, fs1, evs1) ->
  run_task t fs (r :: rs)
  = match run_task t1 fs1 rs with
    | Some (t', fs', evs) =>
        Some (t', fs', (run_sync t fs).2 ++ evs1 ++ evs)
    | None => None
    end.
Proof.
  intros Ht Hr. unfold run_task.
  assert (Hs : exists evs0, run_sync t fs = (t, fs, evs0))
    by (destruct t; try done; eexists; reflexivity).
  destruct Hs as [evs0 Hs]. rewrite Hs. cbn [resume_all task_move snd].
  rewrite Hr. destruct (run_sync t1 fs1) as [[t2 fs2] evs2].
  destruct (resume_all t2 fs2 rs) as [[[t' fs'] evs]|]; [|done].
  by rewrite <- !app_assoc.
Qed.

(** Run on its own against a service, a coroutine takes the turns of a
    task that gets the replies of that service: same events in the same
    order, same file system, same end. *)
Lemma exec_is_run_task {A} sv (t : prog A) n fs :
  never_cancels sv ->
  exists t',
    run_task t fs (exec_replies sv t n)
    = Some (t', run_fs (exec sv t n fs), run_events (exec sv t n fs)) /\
    final_result t' = Some (run_result (exec sv t n fs)).
Proof.
  intros [Hc Hs]. revert n fs.
  induction t as [a|e| |m k IH|p d k IH|mo vo i k IH|r p k IH|d k IH];
    intros n fs; cbn [exec exec_replies].
  - by exists (Ret a).
  - by exists (Raise e).
  - by exists OutOfFuel.
  - destruct (IH n fs) as (t' & Hrun & Hres). exists t'. split; [|done].
    unfold run_task in *. cbn [run_sync].
    destruct (run_sync k fs) as [[t1 fs1] evs1].
    destruct (resume_all t1 fs1 _) as [[[t2 fs2] evs2]|]; [|done].
    injection Hrun as -> Hfs Hev. cbn [emit run_fs run_events].
    by rewrite <- Hfs, <- Hev.
  - destruct (IH n (<[p := d]> fs)) as (t' & Hrun & Hres).
    exists t'. split; [|done].
    unfold run_task in *. cbn [run_sync].
    destruct (run_sync k (<[p := d]> fs)) as [[t1 fs1] evs1].
    destruct (resume_all t1 fs1 _) as [[[t2 fs2] evs2]|]; [|done].
    injection Hrun as -> Hfs Hev. cbn [emit run_fs run_events].
    by rewrite <- Hfs, <- Hev.
  - destruct (IH (create_reply sv n) (S n) fs) as (t' & Hrun & Hres).
    exists t'. split; [|done].
    assert (Hr : resume (SpeechCreate mo vo i k)
                   (reply_of_create (create_reply sv n)) fs
                 = Some (k (create_reply sv n), fs, [])).
    { specialize (Hc n). destruct (create_reply sv n) as [a|e]; cbn; [done|].
      destruct (decide (e = CancelledError)); [congruence|done]. }
    by rewrite (fun H => run_task_resume _ _ _ _ _ _ _ H Hr), Hrun.
  - specialize (Hs (Nat.pred n)).
    destruct (stream_reply sv (Nat.pred n)) as [[]|e] eqn:E.
    + destruct (IH (Ok tt) n (<[p := r]> fs)) as (t' & Hrun & Hres).
      exists t'. split; [|done].
      assert (Hr : resume (StreamToFile r p k) (reply_of_stream (Ok tt)) fs
                   = Some (k (Ok tt), <[p := r]> fs, [EvAudio p r])) by done.
      by rewrite (fun H => run_task_resume _ _ _ _ _ _ _ H Hr), Hrun.
    + destruct (IH (Exc e) n fs) as (t' & Hrun & Hres).
      exists t'. split; [|done].
      assert (Hr : resume (StreamToFile r p k) (reply_of_stream (Exc e)) fs
                   = Some (k (Exc e), fs, [])).
      { cbn. destruct (decide (e = CancelledError)); [congruence|done]. }
      by rewrite (fun H => run_task_resume _ _ _ _ _ _ _ H Hr), Hrun.
  - destruct (IH (Ok tt) n fs) as (t' & Hrun & Hres).
    exists t'. split; [|done].
    assert (Hr : resume (Sleep d k) ReplyDone fs = Some (k (Ok tt), fs, []))
      by done.
    by rewrite (fun H => run_task_resume _ _ _ _ _ _ _ H Hr), Hrun.
Qed.

Lemma set_prog_id t : set_prog t (t_prog t) = t.
Proof. by destruct t. Qed.

Lemma resume_all_steps rs st n t p fs' evs :
  st_tasks st !! n = Some t ->
  resume_all (t_prog t) (st_fs st) rs = Some (p, fs', evs) ->
  steps st (State fs' (st_trace st ++ tag (task_origin t) evs)
                  (<[n := set_prog t p]> (st_tasks st)) (st_chapters st)).
Proof.
  revert st t evs. induction rs as [|r rs IH]; intros st t evs Hn Hrun;
    cbn [resume_all] in Hrun.
  - inversion Hrun; subst. rewrite set_prog_id, list_insert_id by done.
    unfold tag. cbn [fmap list_fmap]. rewrite app_nil_r. destruct st.
    constructor.
  - destruct (task_move (t_prog t) (Resume r) (st_fs st))
      as [[[t1 fs1] evs1]|] eqn:Hmove; [|done].
    destruct (resume_all t1 fs1 rs) as [[[t2 fs2] evs2]|] eqn:Hrest; [|done].
    inversion Hrun; subst.
    set (st1 := State fs1 (st_trace st ++ tag (task_origin t) evs1)
                      (<[n := set_prog t t1]> (st_tasks st)) (st_chapters st)).
    assert (Hstep : step st st1)
      by (eapply (step_task st n t (Resume r)); done).
    assert (Hn1 : st_tasks st1 !! n = Some (set_prog t t1)).
    { cbn. apply list_lookup_insert_eq. by eapply lookup_lt_Some. }
    specialize (IH st1 (set_prog t t1) evs2 Hn1 Hrest).
    cbn [st1 st_trace st_tasks st_chapters set_prog t_chapter t_index t_chunk
         t_file task_origin] in IH.
    rewrite list_insert_insert_eq in IH.
    unfold tag in *. rewrite fmap_app, app_assoc.
    eapply steps_trans; [|exact IH].
    eapply steps_step; [constructor|exact Hstep].
Qed.

(** A task that has not started, in a pool, can take the turns of a run on
    its own against a service: the pool then holds the file system and the
    events of that run, and the task has ended as the run has. *)
Lemma exec_in_pool sv st n t :
  never_cancels sv ->
  st_tasks st !! n = Some t ->
  is_await (t_prog t) = false -> is_final (t_prog t) = false ->
  let r := exec sv (t_prog t) 0 (st_fs st) in
  exists p,
    final_result p = Some (run_result r) /\
    steps st (State (run_fs r)
                    (st_trace st ++ tag (task_origin t) (run_events r))
                    (<[n := set_prog t p]> (st_tasks st)) (st_chapters st)).
Proof.
  intros Hsv Hn Haw Hfin r.
  destruct (exec_is_run_task sv (t_prog t) 0 (st_fs st) Hsv)
    as (p & Hrun & Hres).
  exists p. split; [done|]. fold r in Hrun. unfold run_task in Hrun.
  destruct (run_sync (t_prog t) (st_fs st)) as [[t1 fs1] evs1] eqn:Hsync.
  destruct (resume_all t1 fs1 _) as [[[t2 fs2] evs2]|] eqn:Hrest; [|done].
  injection Hrun as -> <- <-.
  set (st1 := State fs1 (st_trace st ++ tag (task_origin t) evs1)
                    (<[n := set_prog t t1]> (st_tasks st)) (st_chapters st)).
  assert (Hstep : step st st1).
  { eapply (step_task st n t Start); [done|done|].
    cbn [task_move]. by rewrite Haw, Hfin, Hsync. }
  assert (Hn1 : st_tasks st1 !! n = Some (set_prog t t1)).
  { cbn. apply list_lookup_insert_eq. by eapply lookup_lt_Some. }
  pose proof (resume_all_steps _ st1 n (set_prog t t1) p fs2 evs2 Hn1 Hrest)
    as Hsteps.
  cbn [st1 st_trace st_tasks st_chapters set_prog t_chapter t_index t_chunk
       t_file task_origin] in Hsteps.
  rewrite list_insert_insert_eq in Hsteps.
  unfold tag in *. rewrite fmap_app, app_assoc.
  eapply steps_trans; [|exact Hsteps].
  eapply steps_step; [constructor|exact Hstep].
Qed.

Lemma decimal_digits_short fuel n acc :
  (n < 1000)%nat -> (length (decimal_digits fuel n acc) <= length acc + 3)%nat.
Proof.
  intros Hn.
  assert (H2 : (n / 10 / 10 < 10)%nat).
  { apply Nat.Div0.div_lt_upper_bound, Nat.Div0.div_lt_upper_bound. lia. }
  destruct fuel as [|[|[|fuel]]]; cbn [decimal_digits];
    repeat (match goal with
            | |- context [(?x <? 10)%nat] => destruct (Nat.ltb_spec x 10)
            end); cbn [length]; lia.
Qed.

Lemma format_index_three i : (i < 1000)%nat -> length (format_index i) = 3%nat.
Proof.
  intros Hi. unfold format_index, str_of_nat.
  pose proof (decimal_digits_short i i [] Hi) as H. cbn [length] in H.
  rewrite length_app, length_replicate. lia.
Qed.

(** ** The files of a run *)

(** C9. Whatever a run writes, it writes for a chunk [i] of a selected
    chapter [c], into the directory of the input file, under the name made
    of the slug of the chapter title, three dashes, the index and the
    extension: [.mp3] for the audio, [.txt] for the text of the chunk. The
    index is written in decimal and padded with zeros to three digits; the
    slug keeps the characters of [[a-zA-Z0-9]] and has an underscore for
    every other character of the title. *)
Theorem output_files_named
    chunk text input_path fs0 selected st0 st o ev p :
  select_chapters (find_chapters text) = Ok selected ->
  _process_book chunk text input_path fs0 = Ok st0 ->
  steps st0 st ->
  (o, ev) ∈ st_trace st ->
  target ev = Some p ->
  exists c i start stop title chunk_text,
    o = OChunk c i /\
    selected !! c = Some (start, stop, title) /\
    chunk (slice text start stop) !! i = Some chunk_text /\
    ((exists r, ev = EvAudio p r) /\
       p = joinpath (parent input_path)
             (slugify title ++ lit "---" ++ format_index i ++ lit ".mp3") \/
     ev = EvWriteText p chunk_text /\
       p = joinpath (parent input_path)
             (slugify title ++ lit "---" ++ format_index i ++ lit ".txt")) /\
    parent p = parent input_path /\
    decimal_value (format_index i) = i /\
    Forall (fun d => is_digit d = true) (format_index i) /\
    (3 <= length (format_index i))%nat /\
    ((i < 1000)%nat -> length (format_index i) = 3%nat) /\
    length (slugify title) = length title /\
    (forall n x, title !! n = Some x ->
                 slugify title !! n
                 = Some (if is_alnum x then x else underscore)).
Proof.
  intros Hsel Hstart Hsteps Hin Htarget.
  destruct (write_event_path chunk text input_path fs0 selected st0 Hsel
              Hstart st o ev p Hsteps Hin Htarget)
    as (c & i & start & stop & title & chunk_text & Ho & Hc & Hi & _ & Hp).
  exists c, i, start, stop, title, chunk_text.
  split; [done|]. split; [done|]. split; [done|].
  split; [exact Hp|]. split.
  { destruct Hp as [[_ ->]|[_ ->]]; apply parent_joinpath. }
  split; [apply format_index_value|]. split; [apply format_index_digits|].
  split; [apply format_index_length|]. split; [apply format_index_three|].
  split; [apply slugify_length|]. intros n x. apply slugify_lookup.
Qed.

(** C10. A chunk whose audio file is there when the book is started has no
    task: in every state of the run no task is the task of that chunk,
    nothing in the trace comes from it (no message, no text write, no
    request, no audio write), and its audio file and its companion text
    file are as they were at the start (absent if absent, with the old
    content if present). *)
Theorem existing_audio_chunk_is_untouched
    chunk text input_path fs0 selected st0 st c start stop title i :
  select_chapters (find_chapters text) = Ok selected ->
  _process_book chunk text input_path fs0 = Ok st0 ->
  steps st0 st ->
  selected !! c = Some (start, stop, title) ->
  is_Some (fs0 !! joinpath (parent input_path) (speech_name title i)) ->
  Forall (fun t => task_origin t <> OChunk c i) (st_tasks st) /\
  (forall ev, (OChunk c i, ev) ∉ st_trace st) /\
  st_fs st !! joinpath (parent input_path) (speech_name title i)
    = fs0 !! joinpath (parent input_path) (speech_name title i) /\
  st_fs st !! joinpath (parent input_path) (text_name title i)
    = fs0 !! joinpath (parent input_path) (text_name title i).
Proof.
  intros Hsel Hstart Hsteps Hc Hex. split.
  - by eapply skipped_chunk_no_task.
  - by eapply skipped_chunk_untouched.
Qed.

(** C5 (amended). The book is run twice on the same text, the second
    time on the files the first run left. A chunk whose audio file is
    there when a run starts is skipped by that run: no request is issued
    for it. So in the second run nothing comes from a chunk whose audio
    file the first run left (or found), its audio and text files stay as
    they are, no file disappears, and when every chunk has its audio file
    the second run has no task at all, issues no request and leaves the
    file system exactly as it found it. *)
Theorem rerun_skips_existing_audio
    chunk text input_path fs0 selected st0 st1 st0' st2 :
  select_chapters (find_chapters text) = Ok selected ->
  _process_book chunk text input_path fs0 = Ok st0 ->
  steps st0 st1 ->
  _process_book chunk text input_path (st_fs st1) = Ok st0' ->
  steps st0' st2 ->
  let audio title i := joinpath (parent input_path) (speech_name title i) in
  let txt title i := joinpath (parent input_path) (text_name title i) in
  (forall c start stop title i ev,
      selected !! c = Some (start, stop, title) ->
      is_Some (fs0 !! audio title i) ->
      (OChunk c i, ev) ∉ st_trace st1) /\
  (forall c start stop title i,
      selected !! c = Some (start, stop, title) ->
      is_Some (st_fs st1 !! audio title i) ->
      (forall ev, (OChunk c i, ev) ∉ st_trace st2) /\
      st_fs st2 !! audio title i = st_fs st1 !! audio title i /\
      st_fs st2 !! txt title i = st_fs st1 !! txt title i) /\
  (forall q, is_Some (st_fs st1 !! q) -> is_Some (st_fs st2 !! q)) /\
  ((forall c start stop title i,
       selected !! c = Some (start, stop, title) ->
       is_Some (chunk (slice text start stop) !! i) ->
       is_Some (st_fs st1 !! audio title i)) ->
   st_tasks st2 = [] /\
   Forall (fun x => is_request (snd x) = false) (st_trace st2) /\
   st_fs st2 = st_fs st1).
Proof.
  intros Hsel Hstart1 Hsteps1 Hstart2 Hsteps2 audio txt.
  split; [|split; [|split]].
  - intros c start stop title i ev Hc Hex.
    destruct (skipped_chunk_untouched chunk text input_path fs0 selected st0
                Hsel Hstart1 st1 c start stop title i Hsteps1 Hc Hex)
      as [Hno _].
    apply Hno.
  - intros c start stop title i Hc Hex.
    exact (skipped_chunk_untouched chunk text input_path (st_fs st1) selected
             st0' Hsel Hstart2 st2 c start stop title i Hsteps2 Hc Hex).
  - intros q.
    exact (run_keeps_files chunk text input_path (st_fs st1) selected st0'
             Hsel Hstart2 st2 q Hsteps2).
  - intros Hall.
    destruct (complete_book_untouched chunk text input_path (st_fs st1)
                selected st0' Hsel Hstart2 st2 Hall Hsteps2)
      as (Ht & Htr & Hfs).
    split; [done|]. split; [|done].
    eapply Forall_impl; [exact Htr|]. intros [o ev] H. by destruct ev.
Qed.

(** ** The span of the last heading *)

(** C1 (the code at a failing input). On the example text of the
    specification the last heading, [Chapter 2], is a selected one. The
    guard of line 77 lets the lookup of its successor happen, the lookup
    raises [IndexError], and [_process_book] ends with that exception
    before any chapter text is cut and before any task is created,
    whatever the chunker, the path of the input and the file system. *)
Theorem spec_example_raises_index_error chunk input_path fs :
  find_chapters spec_example
    = [(8, lit "Chapter 1"); (33, lit "Chapter 2")] /\
  chapter_end (find_chapters spec_example) 1 = Exc IndexError /\
  _process_book chunk spec_example input_path fs = Exc IndexError.
Proof.
  split; [by vm_compute|]. split; [by vm_compute|].
  unfold _process_book.
  assert (select_chapters (find_chapters spec_example) = Exc IndexError)
    as -> by (by vm_compute).
  done.
Qed.

(** C2 (the code at a failing input). In a text with the headings
    [Chapter 1], [Preface], [Chapter 2] the end offset of [Chapter 1] is
    the start of [Preface], the next entry of the full list, and the end
    offset of [Preface] is the start of [Chapter 2]; for the last heading
    no end offset is computed: the lookup raises [IndexError], no span
    reaches the end of the text at offset 51, and the selection as a
    whole raises. *)
Theorem preface_text_last_span_raises :
  find_chapters preface_text
    = [(0, lit "Chapter 1"); (17, lit "Preface"); (32, lit "Chapter 2")] /\
  chapter_end (find_chapters preface_text) 0 = Ok 17 /\
  chapter_end (find_chapters preface_text) 1 = Ok 32 /\
  chapter_end (find_chapters preface_text) 2 = Exc IndexError /\
  length preface_text = 51%nat /\
  select_chapters (find_chapters preface_text) = Exc IndexError.
Proof. repeat split; by vm_compute. Qed.

(** ** Distinct chunks, equal paths *)

(** C8 (counterexample). The chapters [Chapter 1!] and [Chapter 1?] have
    the same slug: in one run their first chunks are two tasks, of two
    chapters, with one and the same audio file. *)
Lemma twin_chapters_share_a_path :
  exists st0 file,
    _process_book one_chunk twin_text example_input ∅ = Ok st0 /\
    (fun t => (t_chapter t, t_index t, t_file t)) <$> st_tasks st0
    = [(0%nat, 0%nat, file); (1%nat, 0%nat, file)].
Proof.
  eexists _, _. split; [reflexivity|]. vm_compute. reflexivity.
Qed.

(** C8 (amended). Two audio paths in one directory are equal exactly when
    the slugs of the chapter titles are equal and the chunk indices are
    equal; the same holds of the text paths. So two chunks have distinct
    paths as soon as their indices differ or the slugs of their chapter
    titles differ. *)
Theorem speech_paths_equal_iff dir title1 i1 title2 i2 :
  (joinpath dir (speech_name title1 i1) = joinpath dir (speech_name title2 i2)
   <-> slugify title1 = slugify title2 /\ i1 = i2) /\
  (joinpath dir (text_name title1 i1) = joinpath dir (text_name title2 i2)
   <-> slugify title1 = slugify title2 /\ i1 = i2).
Proof.
  split; split.
  - intros H. by apply joinpath_inj, speech_name_inj in H.
  - intros [Hs ->]. unfold speech_name. by rewrite Hs.
  - intros H. by apply joinpath_inj, text_name_inj, speech_name_inj in H.
  - intros [Hs ->]. unfold text_name. by rewrite Hs.
Qed.

(** ** Exceptions that are not rate limits *)

Lemma play_summary st ms b :
  from_option summary ([], [], None, false) (play st ms) = b ->
  snd b = true ->
  exists st', steps st st' /\ summary st' = b.
Proof.
  destruct (play st ms) as [st'|] eqn:E; cbn [from_option].
  - intros Hb _. exists st'. split; [by eapply play_steps|done].
  - intros <-. done.
Qed.

Lemma cancel_schedule_run e :
  e <> RateLimitError -> e <> CancelledError ->
  exists st,
    steps example_start st /\
    task_results st
      = [Some (Raised e); Some (Raised CancelledError);
         Some (Raised CancelledError); Some (Raised CancelledError)] /\
    snd <$> st_chapters st = [ChRaised [e]; ChCancelled] /\
    book_outcome st = Some (BookRaised [[e]]) /\
    Forall (fun x => is_audio (snd x) = false) (st_trace st).
Proof.
  intros He Hc.
  destruct (play_summary example_start (cancel_schedule e)
              ([Some (Raised e); Some (Raised CancelledError);
                Some (Raised CancelledError); Some (Raised CancelledError)],
               [ChRaised [e]; ChCancelled], Some (BookRaised [[e]]), true))
    as (st & Hsteps & Hst).
  - destruct e as [| | | |id]; try done; vm_compute; reflexivity.
  - done.
  - exists st. split; [done|]. unfold summary in Hst.
    inversion Hst as [[H1 H2 H3 H4]]. repeat split.
    apply Forall_forall. intros x Hx.
    rewrite forallb_forall in H4. apply negb_true_iff, H4.
    by apply list_elem_of_In.
Qed.

(** C6. The synthesis call (the request, or the streaming of its answer)
    of a chunk ends with an exception [e] that is not a rate-limit error,
    after any number [k] of rate-limited attempts. [_process_chunk] has no
    handler for it: the task ends with [e], the failed request is its last
    event, nothing is printed or retried after it. A rate-limit error, in
    contrast, never leaves [_process_chunk], whatever the service does.
    The exception then goes through both task groups: there is a run of a
    book with two chapters of two chunks in which the task that raised
    [e] has its sibling chunk cancelled, its chapter raises the group of
    [e], the tasks of the other chapter are cancelled (no audio file is
    ever written) and [_process_book] raises. *)
Theorem other_errors_propagate
    sv fuel chunk file txt max_retries retry_delay fs e k :
  with_suffix file (lit ".txt") = Ok txt ->
  e <> RateLimitError ->
  (forall j, (j < k)%nat -> create_reply sv j = Exc RateLimitError) ->
  (create_reply sv k = Exc e \/
   exists r, create_reply sv k = Ok r /\ stream_reply sv k = Exc e) ->
  Z.of_nat k < max_retries ->
  (k < fuel)%nat ->
  let r := exec sv (_process_chunk_fuel fuel chunk file max_retries
                                        retry_delay) 0 fs in
  run_result r = Raised e /\
  last (run_events r) = Some (EvRequest tts_model tts_voice chunk) /\
  requests (run_events r) = S k /\
  Forall (fun ev => is_audio ev = false) (run_events r) /\
  (forall sv' fuel' n fs',
      run_result (exec sv' (_process_chunk_fuel fuel' chunk file max_retries
                                                retry_delay) n fs')
      <> Raised RateLimitError) /\
  (e <> CancelledError ->
   exists st,
     steps example_start st /\
     task_results st
       = [Some (Raised e); Some (Raised CancelledError);
          Some (Raised CancelledError); Some (Raised CancelledError)] /\
     snd <$> st_chapters st = [ChRaised [e]; ChCancelled] /\
     book_outcome st = Some (BookRaised [[e]]) /\
     Forall (fun x => is_audio (snd x) = false) (st_trace st)).
Proof.
  intros Htxt He Hpre Hk Hlt Hfuel r.
  assert (Hr : r = Run (Raised e) (<[txt := chunk]> fs)
          (EvEcho (MsgProcessingChunk (name file)) :: EvWriteText txt chunk ::
           repeat_events k (limited_attempt chunk file retry_delay) ++
           [EvRequest tts_model tts_voice chunk])).
  { subst r. by apply process_chunk_raises. }
  rewrite Hr. cbn [run_result run_events].
  split; [done|]. split; [|split; [|split; [|split]]].
  - change (EvEcho ?a :: EvWriteText ?b ?c :: ?l ++ ?m)
      with (([EvEcho a; EvWriteText b c] ++ l) ++ m).
    apply last_snoc.
  - change (EvEcho ?a :: EvWriteText ?b ?c :: ?l)
      with ([EvEcho a; EvWriteText b c] ++ l).
    rewrite !requests_app, requests_repeat_limited.
    change (requests [EvEcho (MsgProcessingChunk (name file));
                      EvWriteText txt chunk]) with 0%nat.
    change (requests [EvRequest tts_model tts_voice chunk]) with 1%nat.
    lia.
  - constructor; [done|]. constructor; [done|].
    apply Forall_app. split; [apply repeat_limited_no_audio|by constructor].
  - intros sv' fuel' n fs'. apply process_chunk_no_rate_limit.
  - intros Hc.
    destruct (cancel_schedule_run e He Hc) as (st & Hsteps & Hrest).
    exists st. split; [done|exact Hrest].
Qed.

(** ** The headings the segmenter records *)

Lemma span_while_split {A} (f : A -> bool) l a b :
  span_while f l = (a, b) ->
  l = a ++ b /\ Forall (fun x => f x = true) a /\
  (forall x, head b = Some x -> f x = false).
Proof.
  revert a b. induction l as [|x l IH]; intros a b; cbn [span_while].
  - intros [= <- <-]. by repeat split.
  - destruct (f x) eqn:Hx.
    + destruct (span_while f l) as [a' b'].
      intros [= <- <-]. destruct (IH a' b' eq_refl) as (-> & Ha & Hb).
      split; [done|]. split; [by constructor|done].
    + intros [= <- <-]. split; [done|]. split; [constructor|].
      intros y [= <-]. done.
Qed.

Lemma span_while_app {A} (f : A -> bool) a b :
  Forall (fun x => f x = true) a ->
  (forall x, head b = Some x -> f x = false) ->
  span_while f (a ++ b) = (a, b).
Proof.
  intros Ha Hb. induction Ha as [|x a Hx _ IH]; cbn [app span_while].
  - destruct b as [|y b]; [done|]. cbn [span_while].
    by rewrite (Hb y eq_refl).
  - by rewrite Hx, IH.
Qed.

Lemma span_while_spec {A} (f : A -> bool) l a b :
  span_while f l = (a, b) <->
  l = a ++ b /\ Forall (fun x => f x = true) a /\
  (forall x, head b = Some x -> f x = false).
Proof.
  split; [apply span_while_split|].
  intros (-> & Ha & Hb). by apply span_while_app.
Qed.

Lemma match_here_spec t len title :
  match_here t = Some (len, title) <->
  exists ws, marker_at t 0 ws title /\ len = S (length ws + length title).
Proof.
  unfold match_here, marker_at. cbn [drop]. split.
  - destruct t as [|c rest0]; [done|].
    destruct (N.eqb_spec c hash) as [->|]; [|done].
    destruct (span_while is_space rest0) as [ws after] eqn:Ews.
    destruct ws as [|w ws]; [done|].
    destruct (span_while is_dot after) as [title' rest] eqn:Et.
    intros [= <- <-].
    apply span_while_spec in Ews as (-> & Hws & Hafter).
    apply span_while_spec in Et as (-> & Ht & Hrest).
    exists (w :: ws). split; [|done]. exists rest. rewrite drop_0.
    by repeat split.
  - intros (ws & (rest & Hd & Hne & Hws & Hafter & Ht & Hrest) & ->).
    rewrite drop_0 in Hd. subst t. rewrite N.eqb_refl.
    assert (span_while is_space (ws ++ title ++ rest) = (ws, title ++ rest))
      as -> by (by apply span_while_spec).
    destruct ws as [|w ws]; [done|].
    assert (span_while is_dot (title ++ rest) = (title, rest))
      as -> by (by apply span_while_spec).
    done.
Qed.

Lemma marker_at_drop text n ws title :
  marker_at text n ws title <-> marker_at (drop n text) 0 ws title.
Proof. done. Qed.

Lemma finditer_from_start t pos skip m :
  m ∈ finditer_from pos skip t -> (pos + skip <= m_start m)%nat.
Proof.
  revert pos skip. induction t as [|c t IH]; intros pos skip Hm;
    cbn [finditer_from] in Hm.
  - by apply elem_of_nil in Hm.
  - destruct skip as [|k].
    + destruct (match_here (c :: t)) as [[len title]|].
      * apply elem_of_cons in Hm as [->|Hm]; [cbn; lia|].
        apply IH in Hm. lia.
      * apply IH in Hm. lia.
    + apply IH in Hm. lia.
Qed.

(** Every match of [finditer_from] is a match of the pattern. *)
Lemma finditer_from_sound t pos skip m :
  m ∈ finditer_from pos skip t ->
  exists len,
    match_here (drop (m_start m - pos) t) = Some (len, m_group1 m) /\
    m_end m = (m_start m + len)%nat.
Proof.
  revert pos skip. induction t as [|c t IH]; intros pos skip Hm;
    cbn [finditer_from] in Hm.
  - by apply elem_of_nil in Hm.
  - assert (Hrec : forall k, m ∈ finditer_from (S pos) k t ->
              exists len,
                match_here (drop (m_start m - pos) (c :: t))
                  = Some (len, m_group1 m) /\
                m_end m = (m_start m + len)%nat).
    { intros k Hk. pose proof (finditer_from_start _ _ _ _ Hk) as Hge.
      destruct (IH _ _ Hk) as (len & Hlen & Hend). exists len.
      replace (m_start m - pos)%nat with (S (m_start m - S pos)) by lia.
      done. }
    destruct skip as [|k]; [|by eapply Hrec].
    destruct (match_here (c :: t)) as [[len title]|] eqn:E; [|by eapply Hrec].
    apply elem_of_cons in Hm as [->|Hm]; [|by eapply Hrec].
    exists len. cbn. by rewrite Nat.sub_diag.
Qed.

(** Matches come in the order of the text and do not overlap. *)
Lemma finditer_from_ordered t pos skip i j mi mj :
  (i < j)%nat ->
  finditer_from pos skip t !! i = Some mi ->
  finditer_from pos skip t !! j = Some mj ->
  (m_end mi <= m_start mj)%nat.
Proof.
  revert pos skip i j. induction t as [|c t IH]; intros pos skip i j Hij Hi Hj;
    cbn [finditer_from] in Hi, Hj; [done|].
  destruct skip as [|k]; [|by eapply IH].
  destruct (match_here (c :: t)) as [[len title]|] eqn:E; [|by eapply IH].
  destruct i as [|i]; destruct j as [|j]; try lia; cbn in Hi, Hj.
  - inversion Hi; subst. cbn.
    apply list_elem_of_lookup_2, finditer_from_start in Hj.
    apply match_here_spec in E as (ws & _ & ->). cbn in Hj. lia.
  - eapply IH; [|done|done]. lia.
Qed.

(** Every place where the pattern matches is the start of a recorded match
    or lies inside one. *)
Lemma finditer_from_complete t pos skip j len title :
  (skip <= j)%nat ->
  match_here (drop j t) = Some (len, title) ->
  exists m,
    m ∈ finditer_from pos skip t /\
    (m_start m = (pos + j)%nat /\ m_group1 m = title \/
     (m_start m < pos + j < m_end m)%nat).
Proof.
  revert pos skip j. induction t as [|c t IH]; intros pos skip j Hskip Hj.
  - by rewrite drop_nil in Hj.
  - cbn [finditer_from]. destruct skip as [|k].
    + destruct (match_here (c :: t)) as [[len0 title0]|] eqn:E.
      * destruct j as [|j].
        { cbn [drop] in Hj. rewrite E in Hj. inversion Hj; subst.
          eexists. split; [by left|]. left. cbn. split; [lia|done]. }
        destruct (Nat.lt_ge_cases j (Nat.pred len0)) as [Hlt|Hge].
        { eexists. split; [by left|]. right. cbn. lia. }
        destruct (IH (S pos) (Nat.pred len0) j Hge Hj) as (m & Hm & Hcase).
        exists m. split; [by right|].
        replace (pos + S j)%nat with (S pos + j)%nat by lia. done.
      * destruct j as [|j]; [cbn [drop] in Hj; congruence|].
        destruct (IH (S pos) 0%nat j ltac:(lia) Hj) as (m & Hm & Hcase).
        exists m. split; [done|].
        replace (pos + S j)%nat with (S pos + j)%nat by lia. done.
    + destruct j as [|j]; [lia|].
      destruct (IH (S pos) k j ltac:(lia) Hj) as (m & Hm & Hcase).
      exists m. split; [done|].
      replace (pos + S j)%nat with (S pos + j)%nat by lia. done.
Qed.

(** C3 (counterexample). A marker in the middle of a line, and the second
    of two markers, each followed by a space, are recorded as headings,
    though neither begins a line. *)
Lemma marker_inside_a_line_is_a_heading :
  find_chapters (lit "foo # bar") = [(4, lit "bar")] /\
  ~ spec_line_start (lit "foo # bar") 4 /\
  find_chapters (lit "## Title") = [(1, lit "Title")] /\
  ~ spec_line_start (lit "## Title") 1.
Proof.
  split; [by vm_compute|]. split; [|split; [by vm_compute|]].
  - intros [H|H]; [lia|]. vm_compute in H. discriminate.
  - intros [H|H]; [lia|]. vm_compute in H. discriminate.
Qed.

(** C3 (amended). The headings are the matches of [finditer], each given
    by the offset of its marker and its title. Every match is a marker
    followed by a run of whitespace and by the rest of the line, which is
    the title; it may stand anywhere in a line. The matches are in the
    order of the text and do not overlap. And every place of the text
    where a marker is followed by whitespace is the start of a recorded
    heading with that title, or lies inside a recorded match. *)
Theorem headings_are_marker_occurrences text :
  find_chapters text
    = (fun m => (Z.of_nat (m_start m), m_group1 m)) <$> finditer text /\
  (forall m, m ∈ finditer text ->
     exists ws,
       marker_at text (m_start m) ws (m_group1 m) /\
       m_end m = (m_start m + 1 + length ws + length (m_group1 m))%nat) /\
  (forall i j mi mj,
     (i < j)%nat ->
     finditer text !! i = Some mi -> finditer text !! j = Some mj ->
     (m_start mi < m_end mi <= m_start mj)%nat) /\
  (forall n ws title,
     marker_at text n ws title ->
     exists m,
       m ∈ finditer text /\
       (m_start m = n /\ m_group1 m = title \/
        (m_start m < n < m_end m)%nat)).
Proof.
  split; [done|]. split; [|split].
  - intros m Hm. destruct (finditer_from_sound _ _ _ _ Hm) as (len & Hlen & He).
    rewrite Nat.sub_0_r in Hlen.
    apply match_here_spec in Hlen as (ws & Hws & ->).
    exists ws. split; [by apply marker_at_drop|lia].
  - intros i j mi mj Hij Hi Hj. split; [|by eapply finditer_from_ordered].
    apply list_elem_of_lookup_2 in Hi.
    destruct (finditer_from_sound _ _ _ _ Hi) as (len & Hlen & He).
    apply match_here_spec in Hlen as (ws & _ & ->). lia.
  - intros n ws title Hn.
    apply marker_at_drop in Hn.
    assert (Hm : match_here (drop n text)
                 = Some (S (length ws + length title), title)).
    { apply match_here_spec. by exists ws. }
    destruct (finditer_from_complete text 0 0 n _ _ ltac:(lia) Hm)
      as (m & Hin & Hcase).
    by exists m.
Qed.

(** ** Worked runs *)

Lemma ran_steps st ms : played st ms = true -> steps st (ran st ms).
Proof.
  unfold played, ran. destruct (play st ms) as [st'|] eqn:E; [|done].
  intros _. by eapply play_steps.
Qed.

Lemma example_text_selected :
  select_chapters (find_chapters example_text) = Ok example_selected.
Proof. by vm_compute. Qed.

Lemma example_book fs :
  _process_book one_chunk example_text example_input fs
  = Ok (start_chapters one_chunk fs example_text example_dir 0
                       example_selected).
Proof. unfold _process_book. by rewrite example_text_selected. Qed.

(** C4 at a concrete input: the defaults (10 attempts, 5 seconds), a
    service that always limits, an empty file system. *)
Lemma process_chunk_always_rate_limited_witness :
  let r := exec always_limited
             (_process_chunk (lit "Hello world.") example_file
                             default_max_retries default_retry_delay) 0 ∅ in
  run_result r = Returned tt /\
  requests (run_events r) = 10%nat /\
  Forall (fun ev => is_audio ev = false) (run_events r) /\
  run_fs r = {[ joinpath example_dir (text_name (lit "Chapter 1") 0)
                := lit "Hello world." ]}.
Proof.
  destruct (process_chunk_always_rate_limited always_limited 10
              (lit "Hello world.") example_file
              (joinpath example_dir (text_name (lit "Chapter 1") 0))
              default_max_retries default_retry_delay ∅)
    as (H1 & _ & H3 & H4 & H5).
  - intros n. reflexivity.
  - unfold default_max_retries. lia.
  - vm_compute. lia.
  - apply with_suffix_speech.
  - split; [exact H1|]. split; [|split; [exact H4|exact H5]].
    apply Nat2Z.inj. exact H3.
Defined.

(** C5 (amended) at a concrete input: the two runs [first_end] and
    [second_end]; the first chunk of [Chapter 1] has its audio file after
    the first run. *)
Lemma rerun_skips_existing_audio_witness :
  (forall ev, (OChunk 0 0, ev) ∉ st_trace second_end) /\
  st_fs second_end !! example_file = st_fs first_end !! example_file /\
  st_fs first_end !! example_file = Some example_audio.
Proof.
  destruct (rerun_skips_existing_audio one_chunk example_text example_input
              ∅ example_selected first_start first_end second_start second_end)
    as (_ & H2 & _).
  - exact example_text_selected.
  - exact (example_book ∅).
  - apply ran_steps. vm_compute. reflexivity.
  - exact (example_book (st_fs first_end)).
  - apply ran_steps. vm_compute. reflexivity.
  - destruct (H2 0%nat 8 33 (lit "Chapter 1") 0%nat) as (Hno & Haudio & _).
    + reflexivity.
    + vm_compute. eexists. reflexivity.
    + split; [exact Hno|]. split; [exact Haudio|]. vm_compute. reflexivity.
Defined.

(** C5 (counterexample). The book [example_text] is run twice with no
    deletion in between. In the first run the chunk of the second chapter
    is limited ten times: its task gives up, the chapters and the book
    return, and three files are there, the audio file of that chunk not
    among them. The second run, on these files, skips the first chunk and
    issues a request for the second, whose audio file it writes: four
    files are there when it returns. The file sets of the two runs
    differ. *)
Lemma failed_chunk_is_run_again :
  _process_book one_chunk example_text example_input ∅ = Ok first_start /\
  steps first_start failed_end /\
  book_outcome failed_end = Some BookReturned /\
  size (st_fs failed_end) = 3%nat /\
  st_fs failed_end !! second_file = None /\
  _process_book one_chunk example_text example_input (st_fs failed_end)
  = Ok retry_start /\
  steps retry_start retry_end /\
  book_outcome retry_end = Some BookReturned /\
  requests (snd <$> st_trace retry_end) = 1%nat /\
  size (st_fs retry_end) = 4%nat /\
  st_fs retry_end !! second_file = Some example_audio /\
  st_fs retry_end <> st_fs failed_end.
Proof.
  assert (H1 : st_fs failed_end !! second_file = None)
    by (vm_compute; reflexivity).
  assert (H2 : st_fs retry_end !! second_file = Some example_audio)
    by (vm_compute; reflexivity).
  split; [exact (example_book ∅)|].
  split; [apply ran_steps; vm_compute; reflexivity|].
  split; [vm_compute; reflexivity|].
  split; [vm_compute; reflexivity|].
  split; [exact H1|].
  split; [exact (example_book (st_fs failed_end))|].
  split; [apply ran_steps; vm_compute; reflexivity|].
  split; [vm_compute; reflexivity|].
  split; [vm_compute; reflexivity|].
  split; [vm_compute; reflexivity|].
  split; [exact H2|].
  intros H. rewrite H, H1 in H2. discriminate H2.
Qed.

(** C6 at a concrete input: two rate limits, then another exception. *)
Lemma other_errors_propagate_witness :
  let r := exec failing_third
             (_process_chunk (lit "Hello world.") example_file
                             default_max_retries default_retry_delay) 0 ∅ in
  run_result r = Raised (OtherError 7) /\ requests (run_events r) = 3%nat.
Proof.
  destruct (other_errors_propagate failing_third 10 (lit "Hello world.")
              example_file
              (joinpath example_dir (text_name (lit "Chapter 1") 0))
              default_max_retries default_retry_delay ∅ (OtherError 7) 2)
    as (H1 & _ & H3 & _).
  - apply with_suffix_speech.
  - discriminate.
  - intros j Hj. destruct j as [|[|j]]; [reflexivity|reflexivity|lia].
  - left. reflexivity.
  - unfold default_max_retries. lia.
  - lia.
  - split; [exact H1|exact H3].
Defined.

(** C9 at a concrete input: the text write of the first chunk in the
    first run of [example_text]. *)
Lemma output_files_named_witness :
  exists c i title,
    example_selected !! c = Some (8, 33, title) /\
    joinpath example_dir (text_name (lit "Chapter 1") 0)
    = joinpath (parent example_input)
        (slugify title ++ lit "---" ++ format_index i ++ lit ".txt").
Proof.
  destruct (output_files_named one_chunk example_text example_input ∅
              example_selected first_start first_end (OChunk 0 0)
              (EvWriteText
                 (joinpath example_dir (text_name (lit "Chapter 1") 0))
                 (slice example_text 8 33))
              (joinpath example_dir (text_name (lit "Chapter 1") 0)))
    as (c & i & start & stop & title & chunk_text & Ho & Hc & Hi & Hp & _).
  - exact example_text_selected.
  - exact (example_book ∅).
  - apply ran_steps. vm_compute. reflexivity.
  - apply (list_elem_of_lookup_2 _ 3%nat). vm_compute. reflexivity.
  - reflexivity.
  - injection Ho as <- <-. vm_compute in Hc. injection Hc as <- <- <-.
    exists 0%nat, 0%nat, (lit "Chapter 1"). split; [reflexivity|].
    destruct Hp as [[[r Hr] _]|[_ Hp]]; [discriminate Hr|exact Hp].
Defined.

(** C10 at a concrete input: the run [resumed_end], started with the audio
    file of the first chunk of [Chapter 1] in place. *)
Lemma existing_audio_chunk_is_untouched_witness :
  Forall (fun t => task_origin t <> OChunk 0 0) (st_tasks resumed_end) /\
  (forall ev, (OChunk 0 0, ev) ∉ st_trace resumed_end) /\
  st_fs resumed_end !! joinpath (parent example_input)
                                (speech_name (lit "Chapter 1") 0)
    = ({[ example_file := example_audio ]} : filesystem)
        !! joinpath (parent example_input) (speech_name (lit "Chapter 1") 0) /\
  st_fs resumed_end !! joinpath (parent example_input)
                                (text_name (lit "Chapter 1") 0)
    = ({[ example_file := example_audio ]} : filesystem)
        !! joinpath (parent example_input) (text_name (lit "Chapter 1") 0).
Proof.
  apply (existing_audio_chunk_is_untouched one_chunk example_text
           example_input {[ example_file := example_audio ]} example_selected
           resumed_start resumed_end 0%nat 8 33 (lit "Chapter 1") 0%nat).
  - exact example_text_selected.
  - exact (example_book _).
  - apply ran_steps. vm_compute. reflexivity.
  - reflexivity.
  - vm_compute. eexists. reflexivity.
Defined.

(** C3 (amended) at a concrete input: the marker in the middle of the
    line [foo # bar]. *)
Lemma headings_are_marker_occurrences_witness :
  exists m,
    m ∈ finditer (lit "foo # bar") /\
    (m_start m = 4%nat /\ m_group1 m = lit "bar" \/
     (m_start m < 4 < m_end m)%nat).
Proof.
  apply (proj2 (proj2 (proj2 (headings_are_marker_occurrences
                                (lit "foo # bar")))) 4%nat (lit " ")).
  exists []. split; [reflexivity|]. split; [discriminate|].
  split; [repeat constructor|]. split; [intros c [= <-]; reflexivity|].
  split; [repeat constructor|]. intros c Hc. discriminate Hc.
Defined.

(** C8 (amended) at a concrete input: two chunks of one chapter. *)
Lemma speech_paths_equal_iff_witness :
  joinpath example_dir (speech_name (lit "Chapter 1") 0)
  <> joinpath example_dir (speech_name (lit "Chapter 1") 1).
Proof.
  intros H.
  apply (proj1 (proj1 (speech_paths_equal_iff example_dir (lit "Chapter 1") 0
                         (lit "Chapter 1") 1))) in H.
  destruct H as [_ H]. discriminate H.
Defined.

(** C7 at a concrete input: the first run of [example_text]. *)
Lemma text_file_written_before_requests_witness :
  requests_after_writes (st_trace first_end).
Proof.
  apply (proj2 text_file_written_before_requests one_chunk example_text
           example_input ∅ first_start first_end).
  - exact (example_book ∅).
  - apply ran_steps. vm_compute. reflexivity.
Defined.

(** * Further properties of the code *)

(** ** [slugify] *)

(** X1. A slug has the length of the title and is made of the characters
    of [[a-zA-Z0-9]] and the underscore only: it holds no path separator,
    no dot, no dash and no space, so it is one path component and the
    three dashes and the extension of a file name are found after it.
    Slugging a slug changes nothing, and a title made of letters and
    digits is its own slug. *)
Theorem slugify_safe_and_idempotent title :
  length (slugify title) = length title /\
  Forall (fun c => is_alnum c = true \/ c = underscore) (slugify title) /\
  Forall (fun c => c <> 47%N /\ c <> 92%N /\ c <> dot /\ c <> 45%N /\
                   c <> 32%N /\ c <> 0%N) (slugify title) /\
  slugify (slugify title) = slugify title /\
  (Forall (fun c => is_alnum c = true) title -> slugify title = title).
Proof.
  split; [apply slugify_length|]. split; [|split; [|split]].
  - eapply Forall_impl; [apply slugify_chars|]. intros c Hc.
    unfold slug_char in Hc. apply orb_true_iff in Hc as [Hc|Hc]; [by left|].
    right. by apply N.eqb_eq.
  - eapply Forall_impl; [apply slugify_chars|]. intros c Hc.
    repeat split; by apply (slug_char_not c).
  - unfold slugify. rewrite <- list_fmap_compose. apply list_fmap_ext.
    intros _ c _. cbn. destruct (is_alnum c) eqn:E; [by rewrite E|done].
  - intros H. unfold slugify. rewrite <- (list_fmap_id title) at 2.
    apply Forall_fmap_ext_1. eapply Forall_impl; [exact H|].
    intros c Hc. cbn. by rewrite Hc.
Qed.

(** ** The chapter filter *)

(** X2. The glob of line 74 selects a heading exactly when its title
    begins with the eight characters of [Chapter ] and a space, whatever
    follows (nothing may follow). The match is case sensitive and needs
    the space: [Chapter] alone, [chapter 1] and [Chapters] are not
    selected. *)
Theorem glob_selects_chapter_titles title :
  (fnmatch chapter_glob title = true <->
   exists rest, title = lit "Chapter " ++ rest) /\
  fnmatch chapter_glob (lit "Chapter ") = true /\
  fnmatch chapter_glob (lit "Chapter") = false /\
  fnmatch chapter_glob (lit "chapter 1") = false /\
  fnmatch chapter_glob (lit "Chapters") = false.
Proof. split; [apply fnmatch_chapter_glob|]. by vm_compute. Qed.

(** ** The selection loop *)

Lemma last_selected_cons x y l :
  last_selected (x :: y :: l) = last_selected (y :: l).
Proof. done. Qed.

Lemma select_loop_result chapters pre l acc :
  chapters = pre ++ l ->
  select_loop chapters (enumerate_from (length pre) l) acc
  = if last_selected l then Exc IndexError
    else Ok (acc ++ List.filter span_selected (spans l)).
Proof.
  revert pre acc. induction l as [|x l IH]; intros pre acc Hch.
  - cbn. by rewrite app_nil_r.
  - cbn [enumerate_from select_loop]. destruct l as [|y l].
    + destruct x as [o t]. cbn [snd fst].
      change (last_selected [(o, t)]) with (fnmatch chapter_glob t).
      destruct (fnmatch chapter_glob t) eqn:Ht.
      * rewrite chapter_end_last; [done|].
        subst chapters. rewrite length_app. cbn. lia.
      * cbn. by rewrite app_nil_r.
    + rewrite last_selected_cons.
      specialize (IH (pre ++ [x])). rewrite length_app in IH. cbn [length] in IH.
      replace (length pre + 1)%nat with (S (length pre)) in IH by lia.
      assert (Hch' : chapters = (pre ++ [x]) ++ y :: l)
        by (by rewrite <- app_assoc).
      destruct x as [o t]. destruct y as [o' t']. cbn [snd fst spans].
      destruct (fnmatch chapter_glob t) eqn:Ht.
      * rewrite (chapter_end_next _ _ (o', t')).
        2:{ subst chapters. rewrite lookup_app_r by lia.
            by replace (length pre + 1 - length pre)%nat with 1%nat by lia. }
        rewrite IH by done. destruct (last_selected ((o', t') :: l)); [done|].
        cbn [List.filter fst]. unfold span_selected at 2. cbn [snd].
        rewrite Ht. by rewrite <- app_assoc.
      * rewrite IH by done. destruct (last_selected ((o', t') :: l)); [done|].
        cbn [List.filter]. unfold span_selected at 2. cbn [snd]. by rewrite Ht.
Qed.

(** X3. What lines 71-77 compute, for every list of headings. When the
    last heading matches the glob the loop raises [IndexError] (and only
    then, and no other exception). Otherwise it returns, in the order of
    the text, one entry for every selected heading, with the start of the
    heading, the start of the next heading of the full list (selected or
    not) and the title. *)
Theorem select_chapters_result chapters :
  select_chapters chapters
  = if last_selected chapters then Exc IndexError
    else Ok (List.filter span_selected (spans chapters)).
Proof.
  unfold select_chapters, enumerate.
  exact (select_loop_result chapters [] chapters [] eq_refl).
Qed.

(** X4. The sentinel [-1] of line 77 is never the end of a chapter: for
    every heading of a text the guard holds, and the end offset is the
    start of the next heading (a position of the text) or the lookup has
    raised. *)
Theorem chapter_end_never_sentinel text idx :
  (idx < length (find_chapters text))%nat ->
  chapter_end (find_chapters text) idx <> Ok (-1) /\
  (forall e, chapter_end (find_chapters text) idx = Ok e -> 0 <= e) /\
  (forall x, chapter_end (find_chapters text) idx = Exc x ->
             x = IndexError /\ S idx = length (find_chapters text)).
Proof.
  intros Hidx. unfold chapter_end.
  destruct (Nat.ltb_spec idx (length (find_chapters text))) as [_|]; [|lia].
  destruct (find_chapters text !! (idx + 1)%nat) as [next|] eqn:E.
  - assert (0 <= fst next).
    { unfold find_chapters in E. rewrite list_lookup_fmap in E.
      destruct (finditer text !! (idx + 1)%nat) as [m|]; [|done].
      cbn in E. inversion E; subst. cbn. lia. }
    split; [intros [= H']; lia|]. split; [by intros e [= <-]|done].
  - apply lookup_ge_None in E.
    split; [done|]. split; [done|]. intros x [= <-]. split; [done|lia].
Qed.

(** ** A text without a selected heading *)

Lemma filter_none {A} (f : A -> bool) l :
  Forall (fun x => f x = false) l -> List.filter f l = [].
Proof. induction 1 as [|x l Hx _ IH]; cbn; [done|]. by rewrite Hx. Qed.

Lemma spans_titles chapters s :
  s ∈ spans chapters -> exists o, (o, snd s) ∈ chapters.
Proof.
  induction chapters as [|[o t] rest IH]; cbn [spans]; [by intros H%elem_of_nil|].
  destruct rest as [|[o' t'] rest]; [by intros H%elem_of_nil|].
  intros [->|H]%elem_of_cons.
  - exists o. cbn. by left.
  - destruct (IH H) as [o'' Ho]. exists o''. by right.
Qed.

Lemma no_step_from_nothing fs trace st :
  ~ step (State fs trace [] []) st.
Proof. intros H. inversion H; subst; cbn in *; done. Qed.

(** X5. A text in which no heading title matches the glob (a text without
    any heading among them) is not an error and does nothing:
    [_process_book] creates no chapter task and no chunk task, prints
    nothing, no step of a run is possible, the file system stays as it is
    and the function returns normally. *)
Theorem nothing_selected_nothing_done chunk text input_path fs :
  (forall o title, (o, title) ∈ find_chapters text ->
                   fnmatch chapter_glob title = false) ->
  _process_book chunk text input_path fs = Ok (State fs [] [] []) /\
  book_outcome (State fs [] [] []) = Some BookReturned /\
  (forall st, steps (State fs [] [] []) st -> st = State fs [] [] []).
Proof.
  intros Hnone.
  assert (Hlast : last_selected (find_chapters text) = false).
  { unfold last_selected.
    destruct (last (find_chapters text)) as [[o t]|] eqn:E; [|done].
    apply (Hnone o). apply last_Some in E as [l' ->].
    apply elem_of_app. right. by left. }
  assert (Hsel : List.filter span_selected (spans (find_chapters text)) = []).
  { apply filter_none, Forall_forall. intros s Hs.
    destruct (spans_titles _ _ Hs) as [o Ho]. by apply (Hnone o). }
  split; [|split; [done|]].
  - pose proof (select_loop_result (find_chapters text) []
                  (find_chapters text) [] eq_refl) as Hres.
    cbn [length app] in Hres. rewrite Hlast, Hsel in Hres.
    unfold _process_book, select_chapters, enumerate. by rewrite Hres.
  - intros st Hsteps. remember (State fs [] [] []) as s0 eqn:Hs0.
    induction Hsteps as [|st1 st2 st3 _ IH Hstep]; [done|].
    specialize (IH Hs0). subst. by apply no_step_from_nothing in Hstep.
Qed.

(** ** The text of a selected chapter *)

Lemma finditer_lookup_sound text idx m :
  finditer text !! idx = Some m ->
  exists ws rest,
    drop (m_start m) text = hash :: ws ++ m_group1 m ++ rest /\
    ws <> [] /\ Forall (fun c => is_space c = true) ws /\
    m_end m = (m_start m + S (length ws + length (m_group1 m)))%nat /\
    (m_start m < length text)%nat.
Proof.
  intros Hm. apply list_elem_of_lookup_2 in Hm.
  destruct (finditer_from_sound _ _ _ _ Hm) as (len & Hlen & Hend).
  rewrite Nat.sub_0_r in Hlen.
  apply match_here_spec in Hlen as (ws & (rest & Hd & Hne & Hws & _) & ->).
  rewrite drop_0 in Hd. exists ws, rest. repeat split; try done.
  destruct (Nat.lt_ge_cases (m_start m) (length text)) as [|Hge]; [done|].
  by rewrite drop_ge in Hd.
Qed.

(** X6. Every selected chapter of a text has a span inside the text, from
    the marker of its heading to the marker of the next heading of the
    full list, and the chapter text cut by line 83 begins with the
    chapter's own heading: the marker, the whitespace and the title, which
    begins with [Chapter ] and a space. The heading line is part of what
    is sent to the chunker. *)
Theorem chapter_text_begins_with_heading text selected start stop title :
  select_chapters (find_chapters text) = Ok selected ->
  (start, stop, title) ∈ selected ->
  0 <= start < stop /\ stop < Z.of_nat (length text) /\
  length (slice text start stop) = Z.to_nat (stop - start) /\
  exists ws rest,
    slice text start stop = hash :: ws ++ title ++ rest /\
    ws <> [] /\ Forall (fun c => is_space c = true) ws /\
    exists r, title = lit "Chapter " ++ r.
Proof.
  intros Hsel Hin.
  pose proof (select_chapters_spans _ _ Hsel) as Hspans.
  rewrite Forall_forall in Hspans.
  destruct (Hspans _ Hin) as (idx & next & Hi & Hj & Hstop & Hglob).
  cbn [fst snd] in *. unfold find_chapters in Hi, Hj.
  rewrite list_lookup_fmap in Hi, Hj.
  destruct (finditer text !! idx) as [mi|] eqn:Emi; [|done].
  destruct (finditer text !! (idx + 1)%nat) as [mj|] eqn:Emj; [|done].
  cbn in Hi, Hj. inversion Hi; subst start title. inversion Hj; subst next.
  cbn in Hstop. subst stop.
  destruct (finditer_lookup_sound _ _ _ Emi) as (ws & rest & Hd & Hne & Hws & Hend & _).
  destruct (finditer_lookup_sound _ _ _ Emj) as (_ & _ & _ & _ & _ & _ & Hlt).
  assert (Hord : (m_end mi <= m_start mj)%nat).
  { eapply (finditer_from_ordered text 0 0 idx (idx + 1)); [lia|done|done]. }
  assert (Hslice : slice text (Z.of_nat (m_start mi)) (Z.of_nat (m_start mj))
                   = take (m_start mj - m_start mi) (drop (m_start mi) text)).
  { unfold slice, slice_bound.
    destruct (Z.ltb_spec (Z.of_nat (m_start mi)) 0); [lia|].
    destruct (Z.ltb_spec (Z.of_nat (m_start mj)) 0); [lia|].
    f_equal; [|f_equal]; lia. }
  split; [lia|]. split; [lia|]. split.
  - rewrite Hslice, length_take, length_drop. lia.
  - exists ws, (take (m_start mj - m_start mi
                      - S (length ws + length (m_group1 mi))) rest).
    split; [|split; [done|split; [done|by apply fnmatch_chapter_glob]]].
    rewrite Hslice, Hd.
    change (hash :: ws ++ m_group1 mi ++ rest)
      with ([hash] ++ ws ++ m_group1 mi ++ rest).
    rewrite !app_assoc, take_app_ge by (rewrite !length_app; cbn; lia).
    rewrite !length_app. cbn [length]. rewrite <- !app_assoc.
    reflexivity.
Qed.

(** ** Where a run writes *)

Lemma selected_title_slug selected chapters c start stop title :
  select_chapters chapters = Ok selected ->
  selected !! c = Some (start, stop, title) ->
  exists r, slugify title = lit "Chapter_" ++ slugify r.
Proof.
  intros Hsel Hc. pose proof (select_chapters_spans _ _ Hsel) as Hspans.
  rewrite Forall_forall in Hspans.
  destruct (Hspans _ (list_elem_of_lookup_2 _ _ _ Hc)) as (_ & _ & _ & _ & _ & H).
  cbn in H. apply fnmatch_chapter_glob in H as [r ->]. exists r.
  unfold slugify. by rewrite fmap_app.
Qed.

(** X7. A run writes into the directory of the input file only, and only
    files whose name begins with [Chapter_]: every other path of the file
    system (a file elsewhere, a file of another name, the input file
    itself unless it bears such a name) holds in every state of the run
    what it held at the start. *)
Theorem writes_stay_in_place chunk text input_path fs0 selected st0 st :
  select_chapters (find_chapters text) = Ok selected ->
  _process_book chunk text input_path fs0 = Ok st0 ->
  steps st0 st ->
  (forall o ev p,
      (o, ev) ∈ st_trace st -> target ev = Some p ->
      parent p = parent input_path /\
      exists rest, name p = lit "Chapter_" ++ rest) /\
  (forall q,
      parent q <> parent input_path \/
      ~ (exists rest, name q = lit "Chapter_" ++ rest) ->
      st_fs st !! q = fs0 !! q) /\
  (~ (exists rest, name input_path = lit "Chapter_" ++ rest) ->
   st_fs st !! input_path = fs0 !! input_path).
Proof.
  intros Hsel Hstart Hsteps.
  assert (Hw : forall o ev p,
             (o, ev) ∈ st_trace st -> target ev = Some p ->
             parent p = parent input_path /\
             exists rest, name p = lit "Chapter_" ++ rest).
  { intros o ev p Hin Ht.
    destruct (write_event_path chunk text input_path fs0 selected st0 Hsel
                Hstart st o ev p Hsteps Hin Ht)
      as (c & i & start & stop & title & chunk_text & _ & Hc & _ & _ & Hp).
    destruct (selected_title_slug _ _ _ _ _ _ Hsel Hc) as [r Hr].
    destruct Hp as [[_ ->]|[_ ->]]; rewrite parent_joinpath, name_joinpath;
      (split; [done|]); unfold speech_name, text_name; rewrite Hr;
      rewrite <- app_assoc; eauto. }
  assert (Hframe : forall q,
             parent q <> parent input_path \/
             ~ (exists rest, name q = lit "Chapter_" ++ rest) ->
             st_fs st !! q = fs0 !! q).
  { intros q Hq.
    rewrite (inv_fs _ _ _ _ (run_inv chunk text input_path fs0 selected st0
                               Hsel Hstart st Hsteps)).
    apply apply_events_frame, Forall_fmap, Forall_forall.
    intros [o ev] Hin Ht. cbn in Ht.
    destruct (Hw o ev q Hin Ht) as [Hp Hn]. destruct Hq as [Hq|Hq]; done. }
  split; [exact Hw|]. split; [exact Hframe|].
  intros Hn. apply Hframe. by right.
Qed.

(** ** What a run asks of the service *)

(** X8. Every synthesis request of a run is for the model [tts-1] and the
    voice [fable], and its input is a chunk of the text of a selected
    chapter, cut between that chapter's heading and the next heading: the
    chunk whose task issues the request, and whose audio file was missing
    at the start. Nothing of an unselected part of the book is ever
    sent. *)
Theorem requests_send_chapter_chunks
    chunk text input_path fs0 selected st0 st o mo vo input :
  select_chapters (find_chapters text) = Ok selected ->
  _process_book chunk text input_path fs0 = Ok st0 ->
  steps st0 st ->
  (o, EvRequest mo vo input) ∈ st_trace st ->
  mo = lit "tts-1" /\ vo = lit "fable" /\
  exists c i start stop title,
    o = OChunk c i /\
    selected !! c = Some (start, stop, title) /\
    chunk (slice text start stop) !! i = Some input /\
    fs0 !! joinpath (parent input_path) (speech_name title i) = None.
Proof.
  intros Hsel Hstart Hsteps Hin.
  pose proof (trace_event chunk text input_path fs0 selected st0 Hsel Hstart
                st o _ Hsteps Hin) as H.
  destruct o as [c|c i]; [done|].
  destruct H as (start & stop & title & chunk_text & Hc & Hi & Hnone & Hev).
  cbn in Hev. destruct Hev as (-> & -> & ->).
  split; [done|]. split; [done|]. by exists c, i, start, stop, title.
Qed.

(** ** The retry loop: success, no attempt, and the bound *)

Lemma retry_loop_succeeds {B} sv chunk file max_retries retry_delay
    (f : bool * Z -> prog B) r k :
  forall fuel retries n fs,
    (forall j, (j < k)%nat -> rate_limited sv (n + j)) ->
    create_reply sv (n + k) = Ok r ->
    stream_reply sv (n + k) = Ok tt ->
    retries + Z.of_nat k < max_retries -> (k < fuel)%nat ->
    exec sv (bind (retry_loop fuel chunk file max_retries retry_delay
                              false retries) f) n fs
    = prepend (repeat_events k (limited_attempt chunk file retry_delay) ++
               [EvRequest tts_model tts_voice chunk; EvAudio file r;
                EvEcho (MsgCompletedChunk (name file))])
              (exec sv (f (true, retries + Z.of_nat k)) (n + S k)
                    (<[file := r]> fs)).
Proof.
  induction k as [|k IH]; intros fuel retries n fs Hpre Hc Hs Hlt Hfuel;
    (destruct fuel as [|fuel]; [lia|]); rewrite retry_loop_turn by lia.
  - replace (n + 0)%nat with n in Hc, Hs by lia. rewrite Hc, Hs.
    cbn [repeat_events app].
    replace (retries + Z.of_nat 0) with retries by lia.
    by replace (n + 1)%nat with (S n) by lia.
  - assert (H0 : rate_limited sv n).
    { replace n with (n + 0)%nat by lia. apply Hpre. lia. }
    assert (Hrec :
      exec sv (bind (retry_loop fuel chunk file max_retries retry_delay
                                false (retries + 1)) f) (S n) fs
      = prepend (repeat_events k (limited_attempt chunk file retry_delay) ++
                 [EvRequest tts_model tts_voice chunk; EvAudio file r;
                  EvEcho (MsgCompletedChunk (name file))])
                (exec sv (f (true, retries + Z.of_nat (S k))) (n + S (S k))
                      (<[file := r]> fs))).
    { rewrite (IH fuel (retries + 1) (S n) fs); try lia.
      - replace (retries + 1 + Z.of_nat k) with (retries + Z.of_nat (S k))
          by lia.
        by replace (S n + S k)%nat with (n + S (S k))%nat by lia.
      - intros j Hj. replace (S n + j)%nat with (n + S j)%nat by lia.
        apply Hpre. lia.
      - by replace (S n + k)%nat with (n + S k)%nat by lia.
      - by replace (S n + k)%nat with (n + S k)%nat by lia. }
    destruct H0 as [->|(r0 & -> & ->)]; rewrite Hrec, prepend_prepend;
      cbn [repeat_events]; by rewrite <- app_assoc.
Qed.

Lemma process_chunk_success_run
    sv fuel chunk file txt max_retries retry_delay fs r k :
  with_suffix file (lit ".txt") = Ok txt ->
  (forall j, (j < k)%nat -> rate_limited sv j) ->
  create_reply sv k = Ok r ->
  stream_reply sv k = Ok tt ->
  Z.of_nat k < max_retries ->
  (k < fuel)%nat ->
  exec sv (_process_chunk_fuel fuel chunk file max_retries retry_delay) 0 fs
  = Run (Returned tt) (<[file := r]> (<[txt := chunk]> fs))
        (EvEcho (MsgProcessingChunk (name file)) :: EvWriteText txt chunk ::
         repeat_events k (limited_attempt chunk file retry_delay) ++
         [EvRequest tts_model tts_voice chunk; EvAudio file r;
          EvEcho (MsgCompletedChunk (name file))]).
Proof.
  intros Htxt Hpre Hc Hs Hlt Hfuel.
  unfold _process_chunk_fuel. rewrite Htxt.
  cbn [echo write_text bind lift exec].
  rewrite (retry_loop_succeeds sv chunk file max_retries retry_delay _ r k
             fuel 0 0%nat (<[txt := chunk]> fs) Hpre Hc Hs) by lia.
  cbn [fst negb exec prepend emit run_result run_fs run_events].
  unfold emit, prepend. cbn [run_result run_fs run_events].
  by rewrite app_nil_r.
Qed.

(** X9. The happy path of [_process_chunk], after any number [k] of
    rate-limited attempts below [max_retries]: the attempt numbered [k]
    gets its answer and streams it. The task prints its message, writes
    the text file, makes [k] attempts that each end in the rate-limit
    message and a sleep, then issues the request that succeeds, writes the
    audio file and prints the completion message; it returns normally and
    prints no failure message. The file system then holds the text file
    and the audio file with the bytes of the answer, and [k + 1] requests
    were issued. *)
Theorem process_chunk_succeeds_after_rate_limits
    sv fuel chunk file txt max_retries retry_delay fs r k :
  with_suffix file (lit ".txt") = Ok txt ->
  (forall j, (j < k)%nat -> rate_limited sv j) ->
  create_reply sv k = Ok r ->
  stream_reply sv k = Ok tt ->
  Z.of_nat k < max_retries ->
  (k < fuel)%nat ->
  let out := exec sv (_process_chunk_fuel fuel chunk file max_retries
                                          retry_delay) 0 fs in
  run_result out = Returned tt /\
  run_events out =
    EvEcho (MsgProcessingChunk (name file)) :: EvWriteText txt chunk ::
    repeat_events k (limited_attempt chunk file retry_delay) ++
    [EvRequest tts_model tts_voice chunk; EvAudio file r;
     EvEcho (MsgCompletedChunk (name file))] /\
  run_fs out = <[file := r]> (<[txt := chunk]> fs) /\
  requests (run_events out) = S k /\
  audio_writes (run_events out) = 1%nat /\
  EvEcho (MsgFailedChunk (name file)) ∉ run_events out.
Proof.
  intros Htxt Hpre Hc Hs Hlt Hfuel out.
  assert (Hout : out = Run (Returned tt) (<[file := r]> (<[txt := chunk]> fs))
            (EvEcho (MsgProcessingChunk (name file)) :: EvWriteText txt chunk ::
             repeat_events k (limited_attempt chunk file retry_delay) ++
             [EvRequest tts_model tts_voice chunk; EvAudio file r;
              EvEcho (MsgCompletedChunk (name file))])).
  { subst out. by apply process_chunk_success_run. }
  rewrite Hout. cbn [run_result run_events run_fs].
  split; [done|]. split; [done|]. split; [done|].
  assert (Haud : forall n,
             filter (fun ev => is_audio ev = true)
                    (repeat_events n (limited_attempt chunk file retry_delay))
             = []).
  { intros n. induction n as [|n IH]; [done|].
    cbn [repeat_events]. by rewrite filter_app, IH. }
  split; [|split].
  - change (EvEcho ?a :: EvWriteText ?b ?c :: ?l)
      with ([EvEcho a; EvWriteText b c] ++ l).
    rewrite !requests_app, requests_repeat_limited.
    change (requests [EvEcho (MsgProcessingChunk (name file));
                      EvWriteText txt chunk]) with 0%nat.
    change (requests [EvRequest tts_model tts_voice chunk; EvAudio file r;
                      EvEcho (MsgCompletedChunk (name file))]) with 1%nat.
    lia.
  - unfold audio_writes.
    change (EvEcho ?a :: EvWriteText ?b ?c :: ?l)
      with ([EvEcho a; EvWriteText b c] ++ l).
    rewrite !filter_app, Haud. done.
  - intros Hin. apply elem_of_cons in Hin as [Hin|Hin]; [done|].
    apply elem_of_cons in Hin as [Hin|Hin]; [done|].
    apply elem_of_app in Hin as [Hin|Hin].
    + clear -Hin. induction k as [|k IH]; cbn [repeat_events] in Hin.
      * by apply elem_of_nil in Hin.
      * apply elem_of_app in Hin as [Hin|Hin]; [|by apply IH].
        unfold limited_attempt in Hin.
        repeat (apply elem_of_cons in Hin as [Hin|Hin]; [done|]).
        by apply elem_of_nil in Hin.
    + repeat (apply elem_of_cons in Hin as [Hin|Hin]; [done|]).
      by apply elem_of_nil in Hin.
Qed.

(** X10. With [max_retries] zero or negative the loop of [_process_chunk]
    is not entered: the task prints its message, writes the text file and
    prints the failure message, and returns. No request is issued and the
    service is never asked, whatever it would answer. *)
Theorem process_chunk_without_retries
    sv fuel chunk file txt max_retries retry_delay n fs :
  with_suffix file (lit ".txt") = Ok txt ->
  max_retries <= 0 ->
  exec sv (_process_chunk_fuel fuel chunk file max_retries retry_delay) n fs
  = Run (Returned tt) (<[txt := chunk]> fs)
        [EvEcho (MsgProcessingChunk (name file)); EvWriteText txt chunk;
         EvEcho (MsgFailedChunk (name file))].
Proof.
  intros Htxt Hmax. unfold _process_chunk_fuel. rewrite Htxt.
  cbn [echo write_text bind lift exec].
  rewrite retry_loop_stop by lia. done.
Qed.

Lemma requests_echo m : requests [EvEcho m] = 0%nat.
Proof. done. Qed.

Lemma audio_writes_echo m : audio_writes [EvEcho m] = 0%nat.
Proof. done. Qed.

Lemma audio_writes_app evs1 evs2 :
  audio_writes (evs1 ++ evs2) = (audio_writes evs1 + audio_writes evs2)%nat.
Proof. unfold audio_writes. by rewrite filter_app, length_app. Qed.

Lemma audio_writes_limited chunk file retry_delay :
  audio_writes (limited_attempt chunk file retry_delay) = 0%nat.
Proof. done. Qed.

Lemma failed_not_limited chunk file retry_delay :
  EvEcho (MsgFailedChunk (name file))
    ∉ limited_attempt chunk file retry_delay.
Proof.
  unfold limited_attempt. intros Hin.
  repeat (apply elem_of_cons in Hin as [Hin|Hin]; [done|]).
  by apply elem_of_nil in Hin.
Qed.

(** What is said of the events of a loop: the bound on the requests, at
    most one audio write, and no failure message after an audio write. *)
Lemma retry_loop_bounds {B} sv chunk file max_retries retry_delay
    (f : bool * Z -> prog B) fuel :
  (forall st n fs, run_events (exec sv (f st) n fs)
                   = if fst st then [] else
                       [EvEcho (MsgFailedChunk (name file))]) ->
  forall retries n fs evs,
    evs = run_events
            (exec sv (bind (retry_loop fuel chunk file max_retries
                                       retry_delay false retries) f) n fs) ->
    (requests evs <= Z.to_nat (max_retries - retries))%nat /\
    (audio_writes evs <= 1)%nat /\
    (audio_writes evs = 1%nat ->
     EvEcho (MsgFailedChunk (name file)) ∉ evs).
Proof.
  intros Hf.
  assert (Hstop : forall retries : Z,
    (requests [EvEcho (MsgFailedChunk (name file))]
       <= Z.to_nat (max_retries - retries))%nat /\
    (audio_writes [EvEcho (MsgFailedChunk (name file))] <= 1)%nat /\
    (audio_writes [EvEcho (MsgFailedChunk (name file))] = 1%nat ->
     EvEcho (MsgFailedChunk (name file))
       ∉ [EvEcho (MsgFailedChunk (name file))])).
  { intros retries. rewrite requests_echo, audio_writes_echo.
    split; [lia|]. split; [lia|]. discriminate. }
  assert (Hraise : forall retries : Z,
    (requests [EvRequest tts_model tts_voice chunk]
       <= Z.to_nat (max_retries - retries))%nat ->
    (requests [EvRequest tts_model tts_voice chunk]
       <= Z.to_nat (max_retries - retries))%nat /\
    (audio_writes [EvRequest tts_model tts_voice chunk] <= 1)%nat /\
    (audio_writes [EvRequest tts_model tts_voice chunk] = 1%nat ->
     EvEcho (MsgFailedChunk (name file))
       ∉ [EvRequest tts_model tts_voice chunk])).
  { intros retries H. split; [done|].
    change (audio_writes [EvRequest tts_model tts_voice chunk]) with 0%nat.
    split; [lia|]. discriminate. }
  induction fuel as [|fuel IH]; intros retries n fs evs ->.
  - destruct (Z.ltb_spec retries max_retries) as [Hlt|Hge].
    + cbn [retry_loop negb andb].
      destruct (Z.ltb_spec retries max_retries); [|lia].
      cbn [bind exec run_events].
      change (requests []) with 0%nat. change (audio_writes []) with 0%nat.
      split; [lia|]. split; [lia|]. discriminate.
    + rewrite retry_loop_stop, Hf by lia. apply Hstop.
  - destruct (Z.ltb_spec retries max_retries) as [Hlt|Hge];
      [|rewrite retry_loop_stop, Hf by lia; apply Hstop].
    rewrite retry_loop_turn by done.
    assert (Hone : (requests [EvRequest tts_model tts_voice chunk]
                    <= Z.to_nat (max_retries - retries))%nat).
    { change (requests [EvRequest tts_model tts_voice chunk]) with 1%nat.
      lia. }
    assert (Hlim : forall evs,
      evs = run_events
        (prepend (limited_attempt chunk file retry_delay)
           (exec sv (bind (retry_loop fuel chunk file max_retries
                             retry_delay false (retries + 1)) f) (S n) fs)) ->
      (requests evs <= Z.to_nat (max_retries - retries))%nat /\
      (audio_writes evs <= 1)%nat /\
      (audio_writes evs = 1%nat ->
       EvEcho (MsgFailedChunk (name file)) ∉ evs)).
    { intros evs ->. cbn [prepend run_events].
      destruct (IH (retries + 1) (S n) fs _ eq_refl) as (Hr & Ha & Hn).
      rewrite requests_app, audio_writes_app, audio_writes_limited.
      change (requests (limited_attempt chunk file retry_delay)) with 1%nat.
      cbn [Nat.add]. split; [lia|]. split; [done|].
      intros H1 Hin. apply elem_of_app in Hin as [Hin|Hin]; [|by apply Hn].
      by apply failed_not_limited in Hin. }
    destruct (create_reply sv n) as [r|e].
    + destruct (stream_reply sv n) as [u|e].
      * cbn [prepend run_events]. rewrite Hf. cbn [fst]. rewrite app_nil_r.
        change (requests [EvRequest tts_model tts_voice chunk; EvAudio file r;
                          EvEcho (MsgCompletedChunk (name file))]) with 1%nat.
        change (audio_writes
                  [EvRequest tts_model tts_voice chunk; EvAudio file r;
                   EvEcho (MsgCompletedChunk (name file))]) with 1%nat.
        split; [lia|]. split; [lia|]. intros _ Hin.
        repeat (apply elem_of_cons in Hin as [Hin|Hin]; [done|]).
        by apply elem_of_nil in Hin.
      * destruct e; first [by apply Hlim | by apply Hraise].
    + destruct e; first [by apply Hlim | by apply Hraise].
Qed.

(** X11. Whatever the service answers, [_process_chunk] ends: it issues at
    most [max_retries] requests, writes the audio file at most once, and
    never ends with a rate-limit error; when it has written the audio
    file it prints no failure message. *)
Theorem process_chunk_bounded
    sv chunk file max_retries retry_delay n fs :
  let out := exec sv (_process_chunk chunk file max_retries retry_delay) n fs in
  run_result out <> Diverged /\
  run_result out <> Raised RateLimitError /\
  (requests (run_events out) <= Z.to_nat max_retries)%nat /\
  (audio_writes (run_events out) <= 1)%nat /\
  (audio_writes (run_events out) = 1%nat ->
   EvEcho (MsgFailedChunk (name file)) ∉ run_events out).
Proof.
  intros out. subst out. unfold _process_chunk.
  split; [by apply process_chunk_terminates|].
  split; [apply process_chunk_no_rate_limit|].
  unfold _process_chunk_fuel. cbn [echo bind exec emit run_events].
  destruct (with_suffix file (lit ".txt")) as [txt|e].
  - cbn [lift write_text bind exec emit run_events].
    destruct (retry_loop_bounds sv chunk file max_retries retry_delay
                (fun st => if negb (fst st)
                           then echo (MsgFailedChunk (name file)) else Ret tt)
                (Z.to_nat max_retries)
                ltac:(by intros [[|] z] m fs') 0 n (<[txt := chunk]> fs)
                _ eq_refl) as (Hr & Ha & Hn).
    replace (max_retries - 0) with max_retries in Hr by lia.
    set (evs := run_events _) in *.
    change (EvEcho ?a :: EvWriteText ?b ?c :: ?l)
      with ([EvEcho a; EvWriteText b c] ++ l).
    rewrite requests_app, audio_writes_app.
    change (requests [EvEcho (MsgProcessingChunk (name file));
                      EvWriteText txt chunk]) with 0%nat.
    change (audio_writes [EvEcho (MsgProcessingChunk (name file));
                          EvWriteText txt chunk]) with 0%nat.
    cbn [Nat.add]. split; [lia|]. split; [exact Ha|].
    intros H1 Hin. apply elem_of_app in Hin as [Hin|Hin]; [|by apply Hn].
    repeat (apply elem_of_cons in Hin as [Hin|Hin]; [done|]).
    by apply elem_of_nil in Hin.
  - cbn [lift bind exec run_events].
    change (requests [EvEcho (MsgProcessingChunk (name file))]) with 0%nat.
    change (audio_writes [EvEcho (MsgProcessingChunk (name file))]) with 0%nat.
    split; [lia|]. split; [lia|]. discriminate.
Qed.

(** ** The paths the file system takes *)

Lemma speech_name_length title i :
  length (speech_name title i)
  = (length title + 7 + length (format_index i))%nat.
Proof.
  unfold speech_name. rewrite !length_app, slugify_length.
  change (length (lit "---")) with 3%nat.
  change (length (lit ".mp3")) with 4%nat. lia.
Qed.

Lemma text_name_length title i :
  length (text_name title i) = length (speech_name title i).
Proof. unfold text_name, speech_name. by rewrite !length_app. Qed.

Lemma name_fits_text dir title i :
  name_fits (joinpath dir (text_name title i))
  = name_fits (joinpath dir (speech_name title i)).
Proof. unfold name_fits. by rewrite !name_joinpath, text_name_length. Qed.

Lemma long_title_does_not_fit dir title i :
  (245 < length title)%nat ->
  name_fits (joinpath dir (speech_name title i)) = false.
Proof.
  intros H. unfold name_fits, name_max.
  rewrite name_joinpath, speech_name_length.
  pose proof (format_index_length i). apply Nat.leb_gt. lia.
Qed.

Lemma short_title_fits dir title i :
  (length title <= 245)%nat -> (i < 1000)%nat ->
  name_fits (joinpath dir (speech_name title i)) = true.
Proof.
  intros H Hi. unfold name_fits, name_max.
  rewrite name_joinpath, speech_name_length, format_index_three by done.
  apply Nat.leb_le. lia.
Qed.

(** For the paths it takes, the loop with the exception is the loop
    without. *)
Lemma spawn_loop_os_fits accepts fs c title dir l k :
  (forall j x, l !! j = Some x ->
     accepts (joinpath dir (speech_name title (k + j))) = true) ->
  spawn_loop_os accepts fs c title dir (enumerate_from k l)
  = (spawn_loop fs c title dir (enumerate_from k l), None).
Proof.
  revert k. induction l as [|x l IH]; intros k Hfits; [done|].
  cbn [enumerate_from spawn_loop_os spawn_loop]. unfold exists_os.
  pose proof (Hfits 0%nat x eq_refl) as H0. rewrite Nat.add_0_r in H0.
  rewrite H0, IH.
  - destruct (spawn_loop fs c title dir (enumerate_from (S k) l))
      as [evs tasks].
    by destruct (exists_ fs (joinpath dir (speech_name title k))).
  - intros j y Hj. replace (S k + j)%nat with (k + S j)%nat by lia.
    by apply (Hfits (S j) y).
Qed.

(** At the first path that is refused the loop raises; it has done what
    the loop without the exception does on the chunks before. *)
Lemma spawn_loop_os_long accepts fs c title dir l k i x :
  l !! i = Some x ->
  accepts (joinpath dir (speech_name title (k + i))) = false ->
  (forall j, (j < i)%nat ->
     accepts (joinpath dir (speech_name title (k + j))) = true) ->
  exists evs tasks,
    spawn_loop_os accepts fs c title dir (enumerate_from k l)
    = (evs, tasks, Some os_error) /\
    (evs, tasks) = spawn_loop fs c title dir (enumerate_from k (take i l)).
Proof.
  revert k i. induction l as [|y l IH]; intros k i Hi Hlong Hpre; [done|].
  cbn [enumerate_from spawn_loop_os]. unfold exists_os.
  destruct i as [|i].
  - rewrite Nat.add_0_r in Hlong. rewrite Hlong. by exists [], [].
  - pose proof (Hpre 0%nat ltac:(lia)) as H0. rewrite Nat.add_0_r in H0.
    rewrite H0. cbn in Hi.
    destruct (IH (S k) i Hi) as (evs & tasks & -> & Heq).
    + by replace (S k + i)%nat with (k + S i)%nat by lia.
    + intros j Hj. replace (S k + j)%nat with (k + S j)%nat by lia.
      apply Hpre. lia.
    + cbn [take enumerate_from spawn_loop]. rewrite <- Heq.
      destruct (exists_ fs (joinpath dir (speech_name title k)));
        eexists _, _; done.
Qed.

Lemma process_chapter_os_fits accepts chunk fs c chapter_text title dir :
  (forall i chunk_text, chunk chapter_text !! i = Some chunk_text ->
     accepts (joinpath dir (speech_name title i)) = true) ->
  _process_chapter_os accepts chunk fs c chapter_text title dir
  = (_process_chapter chunk fs c chapter_text title dir, None).
Proof.
  intros Hfits. unfold _process_chapter_os, _process_chapter, enumerate.
  rewrite spawn_loop_os_fits by done.
  by destruct (spawn_loop fs c title dir _) as [evs tasks].
Qed.

(** The start of no chapter raises when the file system takes the paths
    of the book. *)
Lemma book_fits_start accepts chunk text dir selected fs c start stop title :
  book_fits accepts chunk text dir selected ->
  selected !! c = Some (start, stop, title) ->
  _process_chapter_os accepts chunk fs c (slice text start stop) title dir
  = (_process_chapter chunk fs c (slice text start stop) title dir, None).
Proof.
  intros Hfits Hc. apply process_chapter_os_fits.
  intros i chunk_text Hi. by eapply Hfits.
Qed.

Lemma example_book_fits :
  book_fits name_fits one_chunk example_text example_dir example_selected.
Proof.
  intros c start stop title i chunk_text Hc Hi.
  destruct i as [|i]; [|done].
  destruct c as [|[|c]]; [| |done]; injection Hc as <- <- <-;
    split; vm_compute; reflexivity.
Qed.

(** ** The tasks a book starts with, again *)

Section StartComplete.

Variable chunk : str -> list str.
Variable fs : filesystem.
Variable dir : Path.

Lemma spawn_loop_complete c title l k evs tasks j chunk_text :
  spawn_loop fs c title dir (enumerate_from k l) = (evs, tasks) ->
  l !! j = Some chunk_text ->
  (fs !! joinpath dir (speech_name title (k + j)) = None ->
   Task c (k + j) chunk_text (joinpath dir (speech_name title (k + j)))
        (_process_chunk chunk_text (joinpath dir (speech_name title (k + j)))
                        default_max_retries default_retry_delay) ∈ tasks) /\
  (is_Some (fs !! joinpath dir (speech_name title (k + j))) ->
   EvEcho (MsgSkipping (joinpath dir (speech_name title (k + j)))) ∈ evs).
Proof.
  revert k evs tasks j. induction l as [|x l IH]; intros k evs tasks j H Hj;
    [done|].
  cbn [enumerate_from spawn_loop] in H.
  destruct (spawn_loop fs c title dir (enumerate_from (S k) l))
    as [evs' tasks'] eqn:E.
  destruct j as [|j].
  - cbn in Hj. inversion Hj; subst x. rewrite Nat.add_0_r.
    unfold exists_ in H. case_bool_decide as Hex; inversion H; subst.
    + split; [|intros _; by left].
      intros Hnone. rewrite Hnone in Hex. by destruct Hex.
    + split; [intros _; by left|]. intros Hsome. done.
  - cbn in Hj. destruct (IH (S k) evs' tasks' j E Hj) as [Ht He].
    replace (k + S j)%nat with (S k + j)%nat by lia.
    destruct (exists_ fs (joinpath dir (speech_name title k)));
      inversion H; subst.
    + split; [done|]. intros Hs. right. by apply He.
    + split; [|done]. intros Hn. right. by apply Ht.
Qed.

Lemma spawn_loop_messages c title l k evs tasks :
  spawn_loop fs c title dir (enumerate_from k l) = (evs, tasks) ->
  Forall (fun ev => exists p, ev = EvEcho (MsgSkipping p)) evs.
Proof.
  revert k evs tasks. induction l as [|x l IH]; intros k evs tasks H.
  - cbn [enumerate_from spawn_loop] in H. by inversion H; subst.
  - cbn [enumerate_from spawn_loop] in H.
    destruct (spawn_loop fs c title dir (enumerate_from (S k) l))
      as [evs' tasks'] eqn:E.
    specialize (IH _ _ _ E).
    destruct (exists_ fs (joinpath dir (speech_name title k)));
      inversion H; subst; [|done].
    constructor; [eauto|done].
Qed.

Lemma spawn_loop_nodup c title l k evs tasks :
  spawn_loop fs c title dir (enumerate_from k l) = (evs, tasks) ->
  NoDup (task_origin <$> tasks).
Proof.
  revert k evs tasks. induction l as [|x l IH]; intros k evs tasks H.
  - cbn [enumerate_from spawn_loop] in H. inversion H; subst. constructor.
  - cbn [enumerate_from spawn_loop] in H.
    destruct (spawn_loop fs c title dir (enumerate_from (S k) l))
      as [evs' tasks'] eqn:E.
    pose proof (IH _ _ _ E) as Hnd.
    destruct (spawn_loop_tasks fs dir c title l (S k) evs' tasks' E)
      as [_ Hts].
    destruct (exists_ fs (joinpath dir (speech_name title k)));
      inversion H; subst; [done|].
    cbn [fmap list_fmap]. constructor; [|done].
    intros Hin. apply list_elem_of_fmap in Hin as (t & Ho & Ht).
    rewrite Forall_forall in Hts. destruct (Hts t Ht) as (_ & Hk & _).
    unfold task_origin in Ho. cbn in Ho. inversion Ho. lia.
Qed.

Lemma start_chapters_complete text selected c0 j start stop title :
  selected !! j = Some (start, stop, title) ->
  let st := start_chapters chunk fs text dir c0 selected in
  (OChapter (c0 + j), EvEcho (MsgProcessingChapter title)) ∈ st_trace st /\
  forall i chunk_text,
    chunk (slice text start stop) !! i = Some chunk_text ->
    (fs !! joinpath dir (speech_name title i) = None ->
     Task (c0 + j) i chunk_text (joinpath dir (speech_name title i))
          (_process_chunk chunk_text (joinpath dir (speech_name title i))
                          default_max_retries default_retry_delay)
       ∈ st_tasks st) /\
    (is_Some (fs !! joinpath dir (speech_name title i)) ->
     (OChapter (c0 + j),
      EvEcho (MsgSkipping (joinpath dir (speech_name title i))))
       ∈ st_trace st).
Proof.
  revert c0 j. induction selected as [|[[start' stop'] title'] rest IH];
    intros c0 j Hj; [done|].
  cbn [start_chapters]. unfold _process_chapter, enumerate.
  destruct (spawn_loop fs c0 title' dir
              (enumerate_from 0 (chunk (slice text start' stop'))))
    as [evs tasks] eqn:E.
  cbn [st_trace st_tasks]. destruct j as [|j].
  - cbn in Hj. inversion Hj; subst. rewrite Nat.add_0_r. split.
    + apply elem_of_app. left. unfold tag. cbn [fmap list_fmap]. by left.
    + intros i chunk_text Hi.
      destruct (spawn_loop_complete c0 title _ 0 evs tasks i chunk_text E Hi)
        as [Ht He].
      cbn [Nat.add] in Ht, He. split.
      * intros Hn. apply elem_of_app. left. by apply Ht.
      * intros Hs. apply elem_of_app. left. unfold tag.
        cbn [fmap list_fmap]. right. apply list_elem_of_fmap.
        eexists. split; [done|]. by apply He.
  - cbn in Hj. destruct (IH (S c0) j Hj) as [Hp Hrest].
    replace (c0 + S j)%nat with (S c0 + j)%nat by lia. split.
    + apply elem_of_app. by right.
    + intros i chunk_text Hi. destruct (Hrest i chunk_text Hi) as [Ht He].
      split; intros H; apply elem_of_app; right; auto.
Qed.

Lemma start_chapters_messages text selected c0 :
  Forall (fun x => exists c,
            fst x = OChapter c /\
            ((exists title, snd x = EvEcho (MsgProcessingChapter title)) \/
             (exists p, snd x = EvEcho (MsgSkipping p))))
         (st_trace (start_chapters chunk fs text dir c0 selected)).
Proof.
  revert c0. induction selected as [|[[start stop] title] rest IH];
    intros c0; cbn [start_chapters]; [constructor|].
  unfold _process_chapter, enumerate.
  destruct (spawn_loop fs c0 title dir
              (enumerate_from 0 (chunk (slice text start stop))))
    as [evs tasks] eqn:E.
  cbn [st_trace]. apply Forall_app. split; [|apply IH].
  unfold tag. cbn [fmap list_fmap]. constructor; [cbn; eauto|].
  apply Forall_fmap. eapply Forall_impl; [by eapply spawn_loop_messages|].
  intros ev [p ->]. cbn. eauto.
Qed.

Lemma start_chapters_nodup text selected c0 :
  NoDup (task_origin <$>
           st_tasks (start_chapters chunk fs text dir c0 selected)).
Proof.
  revert c0. induction selected as [|[[start stop] title] rest IH];
    intros c0; cbn [start_chapters]; [constructor|].
  destruct (_process_chapter chunk fs c0 (slice text start stop) title dir)
    as [evs tasks] eqn:E.
  cbn [st_tasks]. rewrite fmap_app. apply NoDup_app.
  pose proof (process_chapter_tasks chunk fs dir c0 _ _ _ _ E) as [_ Hts].
  unfold _process_chapter, enumerate in E.
  destruct (spawn_loop fs c0 title dir
              (enumerate_from 0 (chunk (slice text start stop))))
    as [evs' tasks'] eqn:E'.
  inversion E; subst. split; [by eapply spawn_loop_nodup|]. split; [|apply IH].
  intros o Ho Ho'.
  apply list_elem_of_fmap in Ho as (t & -> & Ht).
  apply list_elem_of_fmap in Ho' as (t' & Heq & Ht').
  rewrite Forall_forall in Hts. destruct (Hts t Ht) as (Hc & _).
  destruct (start_chapters_spec chunk fs dir text rest (S c0))
    as (_ & _ & _ & Hrest).
  rewrite Forall_forall in Hrest.
  destruct (Hrest t' Ht') as (? & ? & ? & Hle & _).
  unfold task_origin in Heq. inversion Heq. lia.
Qed.

End StartComplete.

(** X12. The start of a book (lines 45-55 and 80-84) on a file system
    that takes the paths of its chunks, so that no call of [exists()] on
    line 52 raises: the loop of every selected chapter runs to its end
    without an exception. Nothing is written while the tasks
    are created. Every selected chapter prints its message. Every chunk of
    a selected chapter whose audio file is missing gets a task, the
    coroutine [_process_chunk] of that chunk and that file with the
    default ten attempts and five seconds; every chunk whose audio file is
    there gets the message that it is skipped, and no task. No two tasks
    are for the same chunk, and the tasks of a run stay the ones of its
    start: none is added later and none is dropped. *)
Theorem every_missing_chunk_gets_one_task
    accepts chunk text input_path fs0 selected st0 :
  select_chapters (find_chapters text) = Ok selected ->
  _process_book chunk text input_path fs0 = Ok st0 ->
  book_fits accepts chunk text (parent input_path) selected ->
  st_fs st0 = fs0 /\
  NoDup (task_origin <$> st_tasks st0) /\
  (forall c start stop title,
      selected !! c = Some (start, stop, title) ->
      _process_chapter_os accepts chunk fs0 c (slice text start stop) title
                          (parent input_path)
      = (_process_chapter chunk fs0 c (slice text start stop) title
                          (parent input_path), None) /\
      (OChapter c, EvEcho (MsgProcessingChapter title)) ∈ st_trace st0 /\
      forall i chunk_text,
        chunk (slice text start stop) !! i = Some chunk_text ->
        let file := joinpath (parent input_path) (speech_name title i) in
        exists_os accepts fs0 file = Ok (exists_ fs0 file) /\
        (fs0 !! file = None ->
         Task c i chunk_text file
              (_process_chunk chunk_text file default_max_retries
                              default_retry_delay) ∈ st_tasks st0) /\
        (is_Some (fs0 !! file) ->
         (OChapter c, EvEcho (MsgSkipping file)) ∈ st_trace st0 /\
         Forall (fun t => task_origin t <> OChunk c i) (st_tasks st0))) /\
  (forall st, steps st0 st ->
      task_id_of <$> st_tasks st = task_id_of <$> st_tasks st0).
Proof.
  intros Hsel Hstart Hfits.
  pose proof (start_state chunk text input_path fs0 selected st0 Hsel Hstart)
    as Hst0.
  split; [|split; [|split]].
  - rewrite Hst0.
    by destruct (start_chapters_spec chunk fs0 (parent input_path) text
                   selected 0) as (-> & _).
  - rewrite Hst0. apply start_chapters_nodup.
  - intros c start stop title Hc.
    destruct (start_chapters_complete chunk fs0 (parent input_path) text
                selected 0 c start stop title Hc) as [Hp Hrest].
    cbn [Nat.add] in Hp, Hrest. rewrite <- Hst0 in Hp, Hrest.
    split; [by eapply book_fits_start|]. split; [done|].
    intros i chunk_text Hi file.
    destruct (Hrest i chunk_text Hi) as [Ht He]. split; [|split; [done|]].
    + unfold exists_os, file.
      by rewrite (proj1 (Hfits _ _ _ _ _ _ Hc Hi)).
    + intros Hs. split; [by apply He|].
      exact (skipped_chunk_no_task chunk text input_path fs0 selected st0 Hsel
               Hstart st0 c start stop title i (steps_refl st0) Hc Hs).
  - intros st Hsteps.
    exact (inv_ids _ _ _ _ (run_inv chunk text input_path fs0 selected st0
                              Hsel Hstart st Hsteps)).
Qed.

(** ** The ends of the chapters *)

Lemma final_cannot_move {A} (t : prog A) a fs :
  is_final t = true -> task_move t a fs = None.
Proof.
  intros H. destruct t; try done; destruct a as [|r|]; try done;
    cbn [task_move is_await is_final orb resume cancel]; by destruct r.
Qed.

Lemma returned_is_final {A} (t : prog A) :
  is_returned t = true -> is_final t = true.
Proof. by destruct t. Qed.

Lemma tasks_of_elem c t tasks :
  t ∈ tasks_of c tasks <-> t_chapter t = c /\ t ∈ tasks.
Proof. unfold tasks_of. by rewrite list_elem_of_filter. Qed.

Lemma tasks_of_insert_other c n t p' tasks :
  tasks !! n = Some t -> t_chapter t <> c ->
  tasks_of c (<[n := set_prog t p']> tasks) = tasks_of c tasks.
Proof.
  revert n. induction tasks as [|x tasks IH]; intros n Hn Hc; [done|].
  destruct n as [|n]; cbn in Hn.
  - inversion Hn; subst x. cbn [insert list_insert]. unfold tasks_of.
    rewrite !filter_cons. cbn [set_prog t_chapter].
    destruct (decide (t_chapter t = c)); done.
  - cbn [insert list_insert]. unfold tasks_of in *. rewrite !filter_cons.
    destruct (decide (t_chapter x = c)); [f_equal|]; by apply IH.
Qed.

(** A turn of a task leaves alone the tasks of a chapter all of whose
    tasks have ended. *)
Lemma tasks_of_move c n t a p' fs fs' evs tasks :
  tasks !! n = Some t ->
  task_move (t_prog t) a fs = Some (p', fs', evs) ->
  all_final c tasks ->
  tasks_of c (<[n := set_prog t p']> tasks) = tasks_of c tasks.
Proof.
  intros Hn Hmove Hall. apply tasks_of_insert_other; [done|].
  intros Hc. unfold all_final in Hall. rewrite Forall_forall in Hall.
  assert (Hf : is_final (t_prog t) = true).
  { apply Hall, tasks_of_elem. split; [done|].
    by eapply list_elem_of_lookup_2. }
  by rewrite (final_cannot_move _ a fs Hf) in Hmove.
Qed.

Lemma all_returned_final c tasks : all_returned c tasks -> all_final c tasks.
Proof.
  unfold all_returned, all_final. intros H.
  eapply Forall_impl; [exact H|]. intros t. apply returned_is_final.
Qed.

Lemma outer_abort_raised st c :
  outer_abort st c = true ->
  exists c' s, c' <> c /\ st_chapters st !! c' = Some s /\ is_raised s = true.
Proof.
  unfold outer_abort. intros H. apply orb_true_iff in H as [H|H];
    apply existsb_exists in H as (s & Hin & Hs);
    apply list_elem_of_In, list_elem_of_lookup_1 in Hin as [i Hi].
  - pose proof (lookup_lt_Some _ _ _ Hi) as Hlt. rewrite length_take in Hlt.
    rewrite lookup_take_lt in Hi by lia.
    exists i, s. split; [lia|done].
  - rewrite lookup_drop in Hi. exists (S c + i)%nat, s. split; [lia|done].
Qed.

Lemma join_inv_step st st' :
  join_inv st -> step st st' -> join_inv st'.
Proof.
  intros [Hret Hmsg Hcan Hrai] Hstep.
  destruct Hstep as [st n t a p' fs' evs Hn Ha Hmove
                    |st c title Hc Hall
                    |st c title Hc Hall Herr
                    |st c title Hc Hall Herr Hab].
  - constructor; cbn [st_trace st_tasks st_chapters].
    + intros c title Hc. destruct (Hret c title Hc) as [Hall Hin].
      split; [|apply elem_of_app; by left].
      unfold all_returned.
      rewrite (tasks_of_move c n t a p' _ _ _ _ Hn Hmove
                 (all_returned_final _ _ Hall)). exact Hall.
    + intros c title Hin. apply elem_of_app in Hin as [Hin|Hin]; [auto|].
      unfold tag in Hin. apply list_elem_of_fmap in Hin as (ev & Heq & _).
      unfold task_origin in Heq. discriminate Heq.
    + exact Hcan.
    + intros c title errors Hc.
      destruct (Hrai c title errors Hc) as (Hne & Herr & Hall).
      unfold chapter_errors, all_final.
      rewrite (tasks_of_move c n t a p' _ _ _ _ Hn Hmove Hall). done.
  - assert (Hlt : (c < length (st_chapters st))%nat)
      by (by eapply lookup_lt_Some).
    constructor; cbn [st_trace st_tasks st_chapters].
    + intros c' title' Hc'. destruct (decide (c' = c)) as [->|Hne].
      * rewrite list_lookup_insert_eq in Hc' by done. inversion Hc'; subst.
        split; [done|]. apply elem_of_app. right. by left.
      * rewrite list_lookup_insert_ne in Hc' by done.
        destruct (Hret c' title' Hc') as [H1 H2]. split; [done|].
        apply elem_of_app. by left.
    + intros c' title' Hin. apply elem_of_app in Hin as [Hin|Hin].
      * specialize (Hmsg _ _ Hin). destruct (decide (c' = c)) as [->|Hne];
          [congruence|]. by rewrite list_lookup_insert_ne.
      * apply list_elem_of_singleton in Hin. inversion Hin; subst.
        by rewrite list_lookup_insert_eq.
    + intros c' title' Hc'. destruct (decide (c' = c)) as [->|Hne].
      * rewrite list_lookup_insert_eq in Hc' by done. discriminate Hc'.
      * rewrite list_lookup_insert_ne in Hc' by done.
        destruct (Hcan c' title' Hc') as (c2 & s & Hc2 & Hs).
        exists c2, s. split; [|done]. destruct (decide (c2 = c)) as [->|Hne2].
        -- rewrite Hc in Hc2. inversion Hc2; subst. done.
        -- by rewrite list_lookup_insert_ne.
    + intros c' title' errors Hc'. destruct (decide (c' = c)) as [->|Hne].
      * rewrite list_lookup_insert_eq in Hc' by done. discriminate Hc'.
      * rewrite list_lookup_insert_ne in Hc' by done. eauto.
  - assert (Hlt : (c < length (st_chapters st))%nat)
      by (by eapply lookup_lt_Some).
    constructor; cbn [st_trace st_tasks st_chapters].
    + intros c' title' Hc'. destruct (decide (c' = c)) as [->|Hne].
      * rewrite list_lookup_insert_eq in Hc' by done. discriminate Hc'.
      * rewrite list_lookup_insert_ne in Hc' by done. eauto.
    + intros c' title' Hin. specialize (Hmsg _ _ Hin).
      destruct (decide (c' = c)) as [->|Hne]; [congruence|].
      by rewrite list_lookup_insert_ne.
    + intros c' title' Hc'. destruct (decide (c' = c)) as [->|Hne].
      * rewrite list_lookup_insert_eq in Hc' by done. discriminate Hc'.
      * exists c. eexists. rewrite list_lookup_insert_eq by done. done.
    + intros c' title' errors Hc'. destruct (decide (c' = c)) as [->|Hne].
      * rewrite list_lookup_insert_eq in Hc' by done. inversion Hc'; subst.
        done.
      * rewrite list_lookup_insert_ne in Hc' by done. eauto.
  - assert (Hlt : (c < length (st_chapters st))%nat)
      by (by eapply lookup_lt_Some).
    constructor; cbn [st_trace st_tasks st_chapters].
    + intros c' title' Hc'. destruct (decide (c' = c)) as [->|Hne].
      * rewrite list_lookup_insert_eq in Hc' by done. discriminate Hc'.
      * rewrite list_lookup_insert_ne in Hc' by done. eauto.
    + intros c' title' Hin. specialize (Hmsg _ _ Hin).
      destruct (decide (c' = c)) as [->|Hne]; [congruence|].
      by rewrite list_lookup_insert_ne.
    + intros c' title' _.
      destruct (outer_abort_raised st c Hab) as (c2 & s & Hne2 & Hc2 & Hs).
      exists c2, s. by rewrite list_lookup_insert_ne.
    + intros c' title' errors Hc'. destruct (decide (c' = c)) as [->|Hne].
      * rewrite list_lookup_insert_eq in Hc' by done. discriminate Hc'.
      * rewrite list_lookup_insert_ne in Hc' by done. eauto.
Qed.

Lemma join_inv_steps st st' : join_inv st -> steps st st' -> join_inv st'.
Proof.
  intros H Hs. induction Hs as [|st1 st2 st3 _ IH Hstep]; [done|].
  eapply join_inv_step; [|exact Hstep]. by apply IH.
Qed.

Lemma join_inv_start chunk fs text dir selected :
  join_inv (start_chapters chunk fs text dir 0 selected).
Proof.
  destruct (start_chapters_spec chunk fs dir text selected 0)
    as (_ & _ & Hch & _).
  pose proof (start_chapters_messages chunk fs dir text selected 0) as Hmsg.
  rewrite Forall_forall in Hmsg.
  assert (Hjoin : forall c title status,
             st_chapters (start_chapters chunk fs text dir 0 selected) !! c
             = Some (title, status) -> status = ChJoining).
  { intros c title status. rewrite Hch, list_lookup_fmap.
    destruct (selected !! c); cbn; [|done]. by intros [= _ <-]. }
  constructor.
  - intros c title Hc. by apply Hjoin in Hc.
  - intros c title Hin. destruct (Hmsg _ Hin) as (c' & _ & [[t H]|[p H]]);
      discriminate H.
  - intros c title Hc. by apply Hjoin in Hc.
  - intros c title errors Hc. by apply Hjoin in Hc.
Qed.

Lemma task_error_not_cancelled t e :
  task_error t = Some e -> e <> CancelledError /\ t_prog t = Raise e.
Proof.
  unfold task_error. destruct (t_prog t); try done.
  case_decide; [done|]. by intros [= <-].
Qed.

Lemma book_returned_chapters st c s :
  join_inv st -> book_outcome st = Some BookReturned ->
  st_chapters st !! c = Some s -> snd s = ChReturned.
Proof.
  intros [_ _ Hcan _] Hbook Hc. unfold book_outcome in Hbook.
  destruct (existsb _ (st_chapters st)) eqn:Ejoin; [done|].
  destruct (omap chapter_raised (st_chapters st)) eqn:Eraised; [|done].
  assert (Hnone : forall c' title' errors,
             st_chapters st !! c' <> Some (title', ChRaised errors)).
  { intros c' title' errors Hc'.
    assert (Hin : errors ∈ omap chapter_raised (st_chapters st)).
    { apply list_elem_of_omap. exists (title', ChRaised errors).
      split; [|done]. by apply (list_elem_of_lookup_2 _ c'). }
    rewrite Eraised in Hin. by apply elem_of_nil in Hin. }
  destruct s as [title status]. cbn. destruct status as [| |errors|].
  - assert (Hex : existsb (fun s => match snd s with
                                    | ChJoining => true | _ => false end)
                          (st_chapters st) = true).
    { apply existsb_exists. exists (title, ChJoining). split; [|done].
      by apply list_elem_of_In, (list_elem_of_lookup_2 _ c). }
    congruence.
  - done.
  - by apply Hnone in Hc.
  - destruct (Hcan c title Hc) as (c' & [t' s'] & Hc' & Hs).
    unfold is_raised in Hs. cbn in Hs. destruct s' as [| |errors|]; try done.
    by apply Hnone in Hc'.
Qed.

(** When the book returns, every chunk task has returned. *)
Lemma book_returned_tasks chunk text input_path fs0 selected st0 st :
  select_chapters (find_chapters text) = Ok selected ->
  _process_book chunk text input_path fs0 = Ok st0 ->
  steps st0 st ->
  book_outcome st = Some BookReturned ->
  Forall (fun t => t_prog t = Ret tt) (st_tasks st).
Proof.
  intros Hsel Hstart Hsteps Hbook.
  assert (Hj : join_inv st).
  { eapply join_inv_steps; [|exact Hsteps].
    rewrite (start_state chunk text input_path fs0 selected st0 Hsel Hstart).
    apply join_inv_start. }
  pose proof (run_inv chunk text input_path fs0 selected st0 Hsel Hstart
                st Hsteps) as [_ _ Hids Htitles _].
  assert (Hlen : length (st_chapters st) = length selected).
  { rewrite <- (length_fmap fst), Htitles. apply length_fmap. }
  apply Forall_forall. intros t Ht.
  assert (Hid : task_id_of t ∈ (task_id_of <$> st_tasks st0)).
  { rewrite <- Hids. apply list_elem_of_fmap. eauto. }
  destruct (start_ids chunk text input_path fs0 selected st0 Hsel Hstart
              _ _ _ _ Hid) as (start & stop & title & Hc & _).
  assert (Hlt : (t_chapter t < length (st_chapters st))%nat).
  { rewrite Hlen. by eapply lookup_lt_Some. }
  apply lookup_lt_is_Some in Hlt as [[title' status] Hs].
  pose proof (book_returned_chapters st _ _ Hj Hbook Hs) as Hst.
  cbn in Hst. subst status.
  destruct (join_returned st Hj _ _ Hs) as [Hr _]. unfold all_returned in Hr.
  rewrite Forall_forall in Hr.
  assert (Hrt : is_returned (t_prog t) = true).
  { apply Hr, tasks_of_elem. done. }
  destruct (t_prog t) as [[]| | | | | | |]; done.
Qed.

(** X13. The ends of the chapters (line 57 and the exits of the task
    groups), in every state of every run of a book on a file system
    that takes the paths of its chunks, so that no chapter raises of its
    own, from the [exists()] of line 52. A chapter prints its
    completion message when, and only when, it has returned, and then
    every task of its chunks has returned normally: the message is never
    printed for a chapter with a task that failed or is still running. A
    chapter that raises has all of its tasks ended, and the exceptions it
    raises are those its tasks ended with, cancellations apart, of which
    there is at least one; nothing is said of their order. A chapter is
    cancelled only when another chapter has raised. So when the book
    returns, every chapter has returned and printed its message, and every
    task has returned. *)
Theorem chapters_complete_after_their_tasks
    accepts chunk text input_path fs0 selected st0 st :
  select_chapters (find_chapters text) = Ok selected ->
  _process_book chunk text input_path fs0 = Ok st0 ->
  book_fits accepts chunk text (parent input_path) selected ->
  steps st0 st ->
  (forall c start stop title,
      selected !! c = Some (start, stop, title) ->
      snd (_process_chapter_os accepts chunk fs0 c (slice text start stop)
                               title
                               (parent input_path)) = None) /\
  (forall c title,
      (OChapter c, EvEcho (MsgCompletedChapter title)) ∈ st_trace st <->
      st_chapters st !! c = Some (title, ChReturned)) /\
  (forall c title,
      st_chapters st !! c = Some (title, ChReturned) ->
      all_returned c (st_tasks st)) /\
  (forall c title errors,
      st_chapters st !! c = Some (title, ChRaised errors) ->
      all_final c (st_tasks st) /\
      errors <> [] /\
      forall e,
        e ∈ errors <->
        e <> CancelledError /\
        exists t, t ∈ st_tasks st /\ t_chapter t = c /\ t_prog t = Raise e) /\
  (forall c title,
      st_chapters st !! c = Some (title, ChCancelled) ->
      exists c' title' errors,
        c' <> c /\ st_chapters st !! c' = Some (title', ChRaised errors)) /\
  (book_outcome st = Some BookReturned ->
   snd <$> st_chapters st = replicate (length selected) ChReturned /\
   Forall (fun t => t_prog t = Ret tt) (st_tasks st)).
Proof.
  intros Hsel Hstart Hfits Hsteps.
  pose proof (start_state chunk text input_path fs0 selected st0 Hsel Hstart)
    as Hst0.
  assert (Hj : join_inv st).
  { eapply join_inv_steps; [|exact Hsteps]. rewrite Hst0.
    apply join_inv_start. }
  destruct Hj as [Hret Hmsg Hcan Hrai].
  assert (Hcancel : forall c title,
      st_chapters st !! c = Some (title, ChCancelled) ->
      exists c' title' errors,
        c' <> c /\ st_chapters st !! c' = Some (title', ChRaised errors)).
  { intros c title Hc. destruct (Hcan c title Hc) as (c' & [t' s'] & Hc' & Hs).
    unfold is_raised in Hs. cbn in Hs. destruct s' as [| |errors|]; try done.
    exists c', t', errors. split; [|done]. intros ->. congruence. }
  split; [|split; [|split; [|split; [|split]]]].
  - intros c start stop title Hc.
    by rewrite (book_fits_start accepts chunk text (parent input_path)
                  selected fs0 c start stop title Hfits Hc).
  - intros c title. split; [apply Hmsg|]. intros Hc.
    exact (proj2 (Hret _ _ Hc)).
  - intros c title Hc. exact (proj1 (Hret _ _ Hc)).
  - intros c title errors Hc.
    destruct (Hrai c title errors Hc) as (Hne & -> & Hall).
    split; [done|]. split; [done|].
    intros e. unfold chapter_errors. rewrite list_elem_of_omap. split.
    + intros (t & Ht & Herr).
      apply task_error_not_cancelled in Herr as [Hce Hp].
      apply tasks_of_elem in Ht as [Hch Ht]. eauto.
    + intros (Hce & t & Ht & Hch & Hp). exists t. split.
      * by apply tasks_of_elem.
      * unfold task_error. rewrite Hp. by destruct (decide (e = CancelledError)).
  - exact Hcancel.
  - intros Hbook. split.
    + pose proof (run_inv chunk text input_path fs0 selected st0 Hsel Hstart
                    st Hsteps) as [_ _ _ Htitles _].
      assert (Hlen : length (st_chapters st) = length selected).
      { rewrite <- (length_fmap fst), Htitles. apply length_fmap. }
      apply list_eq_same_length with (n := length selected);
        [by rewrite length_replicate|by rewrite length_fmap|].
      intros i x y Hi Hx Hy. rewrite list_lookup_fmap in Hx.
      destruct (st_chapters st !! i) as [s|] eqn:Es; [|done].
      cbn in Hx. inversion Hx; subst.
      apply lookup_replicate in Hy as [-> _].
      by apply (book_returned_chapters st i s (JoinInv st Hret Hmsg Hcan Hrai)).
    + by eapply book_returned_tasks.
Qed.

(** ** The budget of a chunk, in every run *)

Lemma budget_mono {A} (t : prog A) k a k' a' :
  budget k a t -> (k <= k')%nat -> (a <= a')%nat -> budget k' a' t.
Proof.
  revert k a k' a'.
  induction t as [x|e| |m t IH|p d t IH|mo vo i f IH|r p f IH|d f IH];
    intros k a k' a' H Hk Ha; cbn [budget] in *; try done.
  - by eapply IH.
  - by eapply IH.
  - destruct k as [|k]; [done|]. destruct k' as [|k']; [lia|].
    intros o. eapply IH; [apply H|lia|lia].
  - destruct H as [H1 H2]. split.
    + destruct a as [|a]; [done|]. destruct a' as [|a']; [lia|].
      eapply IH; [exact H1|lia|lia].
    + intros e. eapply IH; [apply H2|lia|lia].
  - destruct H as [H1 H2]. split; eapply IH; done || lia.
Qed.

Lemma budget_retry_loop {B} chunk file max_retries retry_delay
    (f : bool * Z -> prog B) fuel :
  (forall st, budget 0 0 (f st)) ->
  forall success retries,
    budget (Z.to_nat (max_retries - retries)) 1
           (bind (retry_loop fuel chunk file max_retries retry_delay
                             success retries) f).
Proof.
  intros Hf.
  assert (Hf' : forall st k a, budget k a (f st)).
  { intros st k a. eapply budget_mono; [apply Hf|lia|lia]. }
  induction fuel as [|fuel IH]; intros success retries.
  - cbn [retry_loop]. destruct (negb success && (retries <? max_retries));
      cbn [bind budget]; [done|apply Hf'].
  - destruct success; [rewrite retry_loop_done; apply Hf'|].
    destruct (Z.ltb_spec retries max_retries) as [Hlt|Hge];
      [|rewrite retry_loop_exhausted by lia; apply Hf'].
    cbn [retry_loop negb andb].
    destruct (Z.ltb_spec retries max_retries) as [_|]; [|lia].
    replace (Z.to_nat (max_retries - retries))
      with (S (Z.to_nat (max_retries - (retries + 1)))) by lia.
    cbn [attempt speech_create astream_to_file echo sleep bind try_except
         lift budget].
    intros [r|e].
    + cbn [echo sleep lift bind try_except budget fst snd]. split.
      * rewrite retry_loop_done. apply Hf'.
      * intros e.
        destruct e; cbn [echo sleep lift bind try_except budget fst snd];
          done.
    + destruct e; cbn [echo sleep lift bind try_except budget fst snd];
        done.
Qed.

Lemma budget_process_chunk chunk file max_retries retry_delay :
  budget (Z.to_nat max_retries) 1
         (_process_chunk chunk file max_retries retry_delay).
Proof.
  unfold _process_chunk, _process_chunk_fuel. cbn [echo bind budget].
  destruct (with_suffix file (lit ".txt")) as [txt|e] eqn:E.
  - cbn [lift write_text bind budget].
    replace (Z.to_nat max_retries) with (Z.to_nat (max_retries - 0)) at 1
      by (f_equal; lia).
    apply budget_retry_loop. intros st. by destruct (negb (fst st)).
  - cbn [lift bind budget]. unfold with_suffix in E.
    destruct (name file); by inversion E.
Qed.

Lemma budget_pending {A} (t : prog A) k a :
  budget k a t -> is_await t = false -> pending k a t.
Proof. by destruct t. Qed.

Lemma run_sync_budget {A} (t t' : prog A) k a fs fs' evs :
  budget k a t -> run_sync t fs = (t', fs', evs) ->
  exists k', pending k' a t' /\ (requests evs + k' <= k)%nat /\
             audio_writes evs = 0%nat.
Proof.
  revert fs fs' evs t'.
  induction t as [x|e| |m t IH|p d t IH|mo vo i f IH|r p f IH|d f IH];
    intros fs fs' evs t' Ht H; cbn [run_sync budget] in *.
  - inversion H; subst. exists k. by repeat split.
  - inversion H; subst. exists k. by repeat split.
  - inversion H; subst. exists k. by repeat split.
  - destruct (run_sync t fs) as [[t1 fs1] evs1] eqn:E.
    inversion H; subst. destruct (IH _ _ _ _ Ht E) as (k' & Hp & Hr & Ha).
    exists k'. split; [done|]. split; [|done].
    change (EvEcho m :: evs1) with ([EvEcho m] ++ evs1).
    rewrite requests_app, requests_echo. done.
  - destruct (run_sync t (<[p := d]> fs)) as [[t1 fs1] evs1] eqn:E.
    inversion H; subst. destruct (IH _ _ _ _ Ht E) as (k' & Hp & Hr & Ha).
    exists k'. split; [done|]. split; [|done].
    change (EvWriteText p d :: evs1) with ([EvWriteText p d] ++ evs1).
    rewrite requests_app.
    change (requests [EvWriteText p d]) with 0%nat. done.
  - inversion H; subst. destruct k as [|k]; [done|]. exists k.
    split; [exact Ht|]. split; [|done].
    change (requests [EvRequest mo vo i]) with 1%nat. lia.
  - inversion H; subst. exists k. split; [exact Ht|]. by split.
  - inversion H; subst. exists k. split; [exact Ht|]. split; [|done].
    change (requests [EvSleep d]) with 0%nat. lia.
Qed.

Lemma resume_budget {A} (t t1 : prog A) k a r fs fs1 evs1 :
  pending k a t -> resume t r fs = Some (t1, fs1, evs1) ->
  exists a', budget k a' t1 /\ (audio_writes evs1 + a' <= a)%nat /\
             requests evs1 = 0%nat.
Proof.
  intros Ht H. destruct t; try done; destruct r as [x| |e]; try done;
    cbn [resume pending budget] in *;
    try (destruct (decide (e = CancelledError)); [done|]);
    inversion H; subst.
  - exists a. split; [apply Ht|]. by split.
  - exists a. split; [apply Ht|]. by split.
  - destruct Ht as [H1 _]. destruct a as [|a]; [done|]. exists a.
    split; [exact H1|]. split; [|done].
    change (audio_writes [EvAudio p r0]) with 1%nat. lia.
  - destruct Ht as [_ H2]. exists a. split; [apply H2|]. by split.
  - destruct Ht as [H1 _]. exists a. split; [exact H1|]. by split.
Qed.

Lemma cancel_budget {A} (t t1 : prog A) k a :
  pending k a t -> cancel t = Some t1 -> budget k a t1.
Proof.
  intros Ht H. destruct t; try done; cbn [cancel pending budget] in *;
    inversion H; subst; try done; apply Ht.
Qed.

Lemma task_move_budget {A} (t t' : prog A) k a act fs fs' evs :
  pending k a t -> task_move t act fs = Some (t', fs', evs) ->
  exists k' a',
    pending k' a' t' /\ (requests evs + k' <= k)%nat /\
    (audio_writes evs + a' <= a)%nat.
Proof.
  intros Ht H. destruct act as [|r|]; cbn [task_move] in H.
  - destruct (is_await t) eqn:Ea; [done|]. cbn [orb] in H.
    destruct (is_final t); [done|]. inversion H as [H'].
    assert (Hb : budget k a t) by (by destruct t).
    destruct (run_sync_budget _ _ _ _ _ _ _ Hb H') as (k' & Hp & Hr & Ha).
    exists k', a. split; [done|]. split; [done|]. lia.
  - destruct (resume t r fs) as [[[t1 fs1] evs1]|] eqn:E; [|done].
    destruct (resume_budget _ _ _ _ _ _ _ _ Ht E) as (a' & Hb & Ha1 & Hr1).
    destruct (run_sync t1 fs1) as [[t2 fs2] evs2] eqn:E2.
    inversion H; subst.
    destruct (run_sync_budget _ _ _ _ _ _ _ Hb E2) as (k' & Hp & Hr & Ha).
    exists k', a'. split; [done|].
    rewrite requests_app, audio_writes_app. lia.
  - destruct (cancel t) as [t1|] eqn:E; [|done]. inversion H as [H'].
    pose proof (cancel_budget _ _ _ _ Ht E) as Hb.
    destruct (run_sync_budget _ _ _ _ _ _ _ Hb H') as (k' & Hp & Hr & Ha).
    exists k', a. split; [done|]. split; [done|]. lia.
Qed.

Lemma events_of_app o trace more :
  events_of o (trace ++ more) = events_of o trace ++ events_of o more.
Proof. unfold events_of. by rewrite filter_app, fmap_app. Qed.

Lemma events_of_tag o evs : events_of o (tag o evs) = evs.
Proof.
  unfold events_of, tag. induction evs as [|ev evs IH]; [done|].
  cbn [fmap list_fmap]. rewrite filter_cons. cbn [fst].
  destruct (decide (o = o)); [|done]. cbn [fmap list_fmap snd]. f_equal.
  exact IH.
Qed.

Lemma events_of_tag_other o o' evs : o <> o' -> events_of o (tag o' evs) = [].
Proof.
  intros Hne. unfold events_of, tag. induction evs as [|ev evs IH]; [done|].
  cbn [fmap list_fmap]. rewrite filter_cons. cbn [fst].
  destruct (decide (o' = o)); [congruence|]. exact IH.
Qed.

Lemma origins_insert (n : nat) t p' (tasks : list task) :
  tasks !! n = Some t ->
  task_origin <$> <[n := set_prog t p']> tasks = task_origin <$> tasks.
Proof.
  intros Hn. rewrite list_fmap_insert. apply list_insert_id.
  by rewrite list_lookup_fmap, Hn.
Qed.

Lemma budget_inv_step st st' : budget_inv st -> step st st' -> budget_inv st'.
Proof.
  intros [Hnd Hts Htr] Hstep.
  destruct Hstep as [st n t a p' fs' evs Hn Ha Hmove
                    |st c title Hc Hall
                    |st c title Hc Hall Herr
                    |st c title Hc Hall Herr Hab];
    try (constructor; cbn [st_trace st_tasks]; done).
  - constructor; cbn [st_trace st_tasks].
    + by rewrite origins_insert.
    + apply Forall_lookup. intros m tm Hm.
      destruct (decide (m = n)) as [->|Hne].
      * rewrite list_lookup_insert_eq in Hm by (by eapply lookup_lt_Some).
        inversion Hm; subst tm.
        destruct (Forall_lookup_1 _ _ _ _ Hts Hn) as (k & au & Hp & Hr & Hau).
        destruct (task_move_budget _ _ _ _ _ _ _ _ Hp Hmove)
          as (k' & a' & Hp' & Hr' & Ha').
        exists k', a'. split; [exact Hp'|].
        change (task_origin (set_prog t p')) with (task_origin t).
        rewrite events_of_app, events_of_tag, requests_app, audio_writes_app.
        lia.
      * rewrite list_lookup_insert_ne in Hm by done.
        destruct (Forall_lookup_1 _ _ _ _ Hts Hm) as (k & au & Hp & Hr & Hau).
        exists k, au. split; [exact Hp|].
        rewrite events_of_app, events_of_tag_other, app_nil_r; [done|].
        intros Heq. apply Hne.
        eapply (NoDup_lookup _ m n (task_origin tm) Hnd);
          rewrite list_lookup_fmap; [by rewrite Hm|by rewrite Hn, Heq].
    + intros c i Hev. rewrite events_of_app in Hev.
      assert (Hold : forall t0, t0 ∈ st_tasks st ->
                exists t1, t1 ∈ <[n := set_prog t p']> (st_tasks st) /\
                           task_origin t1 = task_origin t0).
      { intros t0 Ht0. apply list_elem_of_lookup_1 in Ht0 as [m Hm].
        destruct (decide (m = n)) as [->|Hne].
        - exists (set_prog t p'). split.
          + apply (list_elem_of_lookup_2 _ n).
            apply list_lookup_insert_eq. by eapply lookup_lt_Some.
          + rewrite Hn in Hm. by inversion Hm.
        - exists t0. split; [|done]. apply (list_elem_of_lookup_2 _ m).
          by rewrite list_lookup_insert_ne. }
      destruct (decide (events_of (OChunk c i) (st_trace st) = []))
        as [Hnil|Hsome].
      * rewrite Hnil in Hev. cbn [app] in Hev.
        destruct (decide (OChunk c i = task_origin t)) as [Heq|Hne].
        -- destruct (Hold t) as (t1 & Ht1 & Ho);
             [by eapply list_elem_of_lookup_2|].
           exists t1. split; [done|]. congruence.
        -- by rewrite events_of_tag_other in Hev.
      * destruct (Htr c i Hsome) as (t0 & Ht0 & Ho).
        destruct (Hold t0 Ht0) as (t1 & Ht1 & Ho1).
        exists t1. split; [done|]. congruence.
  - constructor; cbn [st_trace st_tasks]; [done| |].
    + eapply Forall_impl; [exact Hts|]. intros t (k & a & Hp & Hr & Ha).
      exists k, a. split; [done|]. rewrite events_of_app.
      unfold task_origin.
      change [(OChapter c, EvEcho (MsgCompletedChapter title))]
        with (tag (OChapter c) [EvEcho (MsgCompletedChapter title)]).
      rewrite events_of_tag_other by done. by rewrite app_nil_r.
    + intros c' i Hev. apply Htr. rewrite events_of_app in Hev.
      change [(OChapter c, EvEcho (MsgCompletedChapter title))]
        with (tag (OChapter c) [EvEcho (MsgCompletedChapter title)]) in Hev.
      rewrite events_of_tag_other in Hev by done. by rewrite app_nil_r in Hev.
Qed.

Lemma budget_inv_steps st st' : budget_inv st -> steps st st' -> budget_inv st'.
Proof.
  intros H Hs. induction Hs as [|st1 st2 st3 _ IH Hstep]; [done|].
  eapply budget_inv_step; [|exact Hstep]. by apply IH.
Qed.

Lemma events_of_chapters o trace :
  Forall (fun x => exists c, fst x = OChapter c) trace ->
  (forall c, o <> OChapter c) -> events_of o trace = [].
Proof.
  intros H Ho. unfold events_of. induction H as [|x trace [c Hc] _ IH]; [done|].
  rewrite filter_cons. destruct (decide (fst x = o)) as [Heq|]; [|exact IH].
  rewrite Hc in Heq. by destruct (Ho c).
Qed.

Lemma budget_inv_start chunk fs text dir selected :
  budget_inv (start_chapters chunk fs text dir 0 selected).
Proof.
  destruct (start_chapters_spec chunk fs dir text selected 0)
    as (_ & Htr & _ & Hts).
  assert (Hnil : forall c i,
             events_of (OChunk c i)
                       (st_trace (start_chapters chunk fs text dir 0 selected))
             = []).
  { intros c i. apply events_of_chapters; [|done].
    eapply Forall_impl; [exact Htr|]. by intros x [_ H]. }
  constructor.
  - apply start_chapters_nodup.
  - eapply Forall_impl; [exact Hts|].
    intros t (start & stop & title & _ & _ & Htask).
    destruct Htask as (_ & _ & _ & _ & Hp).
    exists (Z.to_nat default_max_retries), 1%nat. split.
    + rewrite Hp. apply budget_pending; [apply budget_process_chunk|done].
    + unfold task_origin. rewrite Hnil. done.
  - intros c i Hev. by rewrite Hnil in Hev.
Qed.

(** X14. The budget of a chunk in a run of a book, under every
    interleaving of the tasks, whatever the service answers and whenever
    the task groups cancel: the trace of every state holds at most ten
    requests and at most one audio write of a chunk; no chunk task ends
    with a rate-limit error, so a rate-limit error is never among the
    exceptions a chapter raises: only exhaustion of the ten attempts ends
    the retries, and that is not an error of the run. *)
Theorem chunks_stay_within_budget
    chunk text input_path fs0 selected st0 st :
  select_chapters (find_chapters text) = Ok selected ->
  _process_book chunk text input_path fs0 = Ok st0 ->
  steps st0 st ->
  (forall c i,
      (requests (events_of (OChunk c i) (st_trace st)) <= 10)%nat /\
      (audio_writes (events_of (OChunk c i) (st_trace st)) <= 1)%nat) /\
  Forall (fun t => t_prog t <> Raise RateLimitError) (st_tasks st) /\
  (forall c title errors,
      st_chapters st !! c = Some (title, ChRaised errors) ->
      RateLimitError ∉ errors).
Proof.
  intros Hsel Hstart Hsteps.
  pose proof (start_state chunk text input_path fs0 selected st0 Hsel Hstart)
    as Hst0.
  assert (Hb : budget_inv st).
  { eapply budget_inv_steps; [|exact Hsteps]. rewrite Hst0.
    apply budget_inv_start. }
  assert (Hj : join_inv st).
  { eapply join_inv_steps; [|exact Hsteps]. rewrite Hst0.
    apply join_inv_start. }
  destruct Hb as [Hnd Hts Htr]. rewrite Forall_forall in Hts.
  assert (Hno : forall t, t ∈ st_tasks st -> t_prog t <> Raise RateLimitError).
  { intros t Ht Hp. destruct (Hts t Ht) as (k & a & Hpend & _).
    rewrite Hp in Hpend. by cbn in Hpend. }
  split; [|split].
  - intros c i.
    destruct (decide (events_of (OChunk c i) (st_trace st) = []))
      as [->|Hsome]; [split; cbn; lia|].
    destruct (Htr c i Hsome) as (t & Ht & Ho).
    destruct (Hts t Ht) as (k & a & _ & Hr & Ha). rewrite Ho in Hr, Ha.
    change (Z.to_nat default_max_retries) with 10%nat in Hr. lia.
  - by apply Forall_forall.
  - intros c title errors Hc Hin.
    destruct (join_raised st Hj c title errors Hc) as (_ & -> & _).
    unfold chapter_errors in Hin.
    apply list_elem_of_omap in Hin as (t & Ht & Herr).
    apply task_error_not_cancelled in Herr as [_ Hp].
    apply tasks_of_elem in Ht as [_ Ht]. by apply (Hno t).
Qed.

(** ** Every chunk is settled when its task returns *)

Lemma settles_bind {A B} file (Q1 : A -> Prop) (Q2 : B -> Prop)
    (t : prog A) (g : A -> prog B) :
  settles file Q1 t -> (forall a, Q1 a -> settles file Q2 (g a)) ->
  settles file Q2 (bind t g).
Proof.
  intros Ht Hg.
  induction t as [a|e| |m t IH|p d t IH|mo vo i f IH|r p f IH|d f IH];
    cbn [bind settles] in *; try done.
  - by apply Hg.
  - destruct Ht as [->|Ht]; [by left|right; by apply IH].
  - by apply IH.
  - intros o. by apply IH.
  - destruct Ht as [H1 H2]. split.
    + destruct H1 as [->|H1]; [by left|right; by apply IH].
    + intros e. by apply IH.
  - intros o. by apply IH.
Qed.

Lemma settles_try_except {A} file (Q : A -> Prop) (body : prog A) handler :
  settles file Q body ->
  (forall e h, handler e = Some h -> settles file Q h) ->
  settles file Q (try_except body handler).
Proof.
  intros Ht Hh.
  induction body as [a|e| |m t IH|p d t IH|mo vo i f IH|r p f IH|d f IH];
    cbn [try_except settles] in *; try done.
  - destruct (handler e) as [h|] eqn:E; [by eapply Hh|done].
  - destruct Ht as [->|Ht]; [by left|right; by apply IH].
  - by apply IH.
  - intros o. by apply IH.
  - destruct Ht as [H1 H2]. split.
    + destruct H1 as [->|H1]; [by left|right; by apply IH].
    + intros e. by apply IH.
  - intros o. by apply IH.
Qed.

(** The loop returns without success only: a success has written the
    audio file. *)
Lemma settles_retry_loop fuel chunk file max_retries retry_delay retries :
  settles file (fun st => fst st = false)
          (retry_loop fuel chunk file max_retries retry_delay false retries).
Proof.
  revert retries. induction fuel as [|fuel IH]; intros retries;
    cbn [retry_loop negb andb]; destruct (retries <? max_retries);
    try done.
  eapply settles_bind.
  - apply settles_try_except
      with (Q := fun st : bool * Z => fst st = false).
    + cbn [attempt speech_create astream_to_file echo bind settles lift].
      intros [r|e]; cbn [bind lift settles]; [|done].
      split; [by left|]. intros e. done.
    + intros e h Hh. destruct e; try done. inversion Hh; subst.
      cbn [echo sleep bind settles lift]. right.
      intros [u|e]; done.
  - intros [success retries'] Hst. cbn in Hst. subst success. apply IH.
Qed.

Lemma settles_process_chunk chunk file max_retries retry_delay :
  settles file (fun _ : unit => False)
          (_process_chunk chunk file max_retries retry_delay).
Proof.
  unfold _process_chunk, _process_chunk_fuel. cbn [echo bind settles].
  right. destruct (with_suffix file (lit ".txt")) as [txt|e]; [|done].
  cbn [lift write_text bind settles].
  eapply settles_bind; [apply settles_retry_loop|].
  intros [success retries] Hst. cbn in Hst. subst success.
  cbn [fst negb echo settles]. by left.
Qed.

Lemma run_sync_settles {A} file (Q : A -> Prop) (t t' : prog A) fs fs' evs :
  settles file Q t -> run_sync t fs = (t', fs', evs) ->
  EvEcho (MsgFailedChunk (name file)) ∈ evs \/ settles file Q t'.
Proof.
  revert fs fs' evs t'.
  induction t as [x|e| |m t IH|p d t IH|mo vo i f IH|r p f IH|d f IH];
    intros fs fs' evs t' Ht H; cbn [run_sync settles] in *;
    try (by inversion H; subst; right).
  - destruct (run_sync t fs) as [[t1 fs1] evs1] eqn:E.
    inversion H; subst. destruct Ht as [->|Ht]; [left; by left|].
    destruct (IH _ _ _ _ Ht E) as [Hin|Hs]; [left; by right|by right].
  - destruct (run_sync t (<[p := d]> fs)) as [[t1 fs1] evs1] eqn:E.
    inversion H; subst.
    destruct (IH _ _ _ _ Ht E) as [Hin|Hs]; [left; by right|by right].
Qed.

Lemma resume_settles {A} file (Q : A -> Prop) (t t1 : prog A) r fs fs1 evs1 :
  settles file Q t -> resume t r fs = Some (t1, fs1, evs1) ->
  (exists a, EvAudio file a ∈ evs1) \/ settles file Q t1.
Proof.
  intros Ht H. destruct t; try done; destruct r as [x| |e]; try done;
    cbn [resume settles] in *;
    try (destruct (decide (e = CancelledError)); [done|]);
    inversion H; subst; try (by right; apply Ht).
  destruct Ht as [[->|H1] _]; [left; eexists; by left|by right].
Qed.

Lemma cancel_settles {A} file (Q : A -> Prop) (t t1 : prog A) :
  settles file Q t -> cancel t = Some t1 -> settles file Q t1.
Proof.
  intros Ht H. destruct t; try done; cbn [cancel settles] in *;
    inversion H; subst; try done; apply Ht.
Qed.

Lemma task_move_settles {A} file (Q : A -> Prop) (t t' : prog A)
    act fs fs' evs :
  settles file Q t -> task_move t act fs = Some (t', fs', evs) ->
  (exists a, EvAudio file a ∈ evs) \/
  EvEcho (MsgFailedChunk (name file)) ∈ evs \/
  settles file Q t'.
Proof.
  intros Ht H. destruct act as [|r|]; cbn [task_move] in H.
  - destruct (is_await t || is_final t); [done|]. inversion H as [H'].
    right. by eapply run_sync_settles.
  - destruct (resume t r fs) as [[[t1 fs1] evs1]|] eqn:E; [|done].
    destruct (run_sync t1 fs1) as [[t2 fs2] evs2] eqn:E2.
    inversion H; subst.
    destruct (resume_settles _ _ _ _ _ _ _ _ Ht E) as [[a Ha]|Ht1].
    + left. exists a. apply elem_of_app. by left.
    + right. destruct (run_sync_settles _ _ _ _ _ _ _ Ht1 E2) as [Hin|Hs];
        [left; apply elem_of_app; by right|by right].
  - destruct (cancel t) as [t1|] eqn:E; [|done]. inversion H as [H'].
    right. eapply run_sync_settles; [|done]. by eapply cancel_settles.
Qed.

Lemma settled_app trace more t : settled trace t -> settled (trace ++ more) t.
Proof.
  intros [[r Hr]|Hf]; [left; exists r|right]; apply elem_of_app; by left.
Qed.

Lemma settle_inv_step st st' : settle_inv st -> step st st' -> settle_inv st'.
Proof.
  unfold settle_inv. intros Hts Hstep.
  destruct Hstep as [st n t a p' fs' evs Hn Ha Hmove
                    |st c title Hc Hall
                    |st c title Hc Hall Herr
                    |st c title Hc Hall Herr Hab];
    cbn [st_trace st_tasks]; try done.
  - apply Forall_insert.
    + eapply Forall_impl; [exact Hts|]. intros t0 [H|H]; [left|by right].
      by apply settled_app.
    + change (t_file (set_prog t p')) with (t_file t).
      cbn [set_prog t_prog].
      destruct (Forall_lookup_1 _ _ _ _ Hts Hn) as [H|H].
      * left. by apply (settled_app _ _ t).
      * destruct (task_move_settles _ _ _ _ _ _ _ _ H Hmove)
          as [[r Hr]|[Hf|Hs]].
        -- left. left. exists r. apply elem_of_app. right.
           unfold tag. apply list_elem_of_fmap. by exists (EvAudio (t_file t) r).
        -- left. right. apply elem_of_app. right.
           unfold tag. apply list_elem_of_fmap. by eexists.
        -- by right.
  - eapply Forall_impl; [exact Hts|]. intros t0 [H|H]; [left|by right].
    by apply settled_app.
Qed.

Lemma settle_inv_steps st st' : settle_inv st -> steps st st' -> settle_inv st'.
Proof.
  intros H Hs. induction Hs as [|st1 st2 st3 _ IH Hstep]; [done|].
  eapply settle_inv_step; [|exact Hstep]. by apply IH.
Qed.

Lemma settle_inv_start chunk fs text dir selected :
  settle_inv (start_chapters chunk fs text dir 0 selected).
Proof.
  destruct (start_chapters_spec chunk fs dir text selected 0)
    as (_ & _ & _ & Hts).
  eapply Forall_impl; [exact Hts|].
  intros t (start & stop & title & _ & _ & Htask).
  destruct Htask as (_ & _ & _ & _ & Hp). right. rewrite Hp.
  apply settles_process_chunk.
Qed.

Lemma apply_events_written evs fs ev p :
  ev ∈ evs -> target ev = Some p -> is_Some (apply_events evs fs !! p).
Proof.
  intros Hin Ht. apply list_elem_of_split in Hin as (l1 & l2 & ->).
  change (l1 ++ ev :: l2) with (l1 ++ [ev] ++ l2).
  rewrite !apply_events_app. apply apply_events_keeps.
  destruct ev; try done; cbn in Ht |- *; inversion Ht; subst;
    rewrite lookup_insert_eq; eauto.
Qed.

(** X15. What a run delivers. In every state of every run, a chunk task
    that has returned has written its audio file or has printed the
    failure message of its chunk. So when the book returns, every chunk
    of every selected chapter has its audio file in the file system (the
    one found at the start, or one written by the run), unless the
    failure of that chunk was reported on the console. *)
Theorem returned_chunks_are_settled
    chunk text input_path fs0 selected st0 st :
  select_chapters (find_chapters text) = Ok selected ->
  _process_book chunk text input_path fs0 = Ok st0 ->
  steps st0 st ->
  Forall (fun t => t_prog t = Ret tt ->
                   (exists r, (task_origin t, EvAudio (t_file t) r)
                                ∈ st_trace st) \/
                   (task_origin t, EvEcho (MsgFailedChunk (name (t_file t))))
                     ∈ st_trace st)
         (st_tasks st) /\
  (book_outcome st = Some BookReturned ->
   forall c start stop title i chunk_text,
     selected !! c = Some (start, stop, title) ->
     chunk (slice text start stop) !! i = Some chunk_text ->
     is_Some (st_fs st !! joinpath (parent input_path) (speech_name title i))
     \/ (OChunk c i, EvEcho (MsgFailedChunk (speech_name title i)))
          ∈ st_trace st).
Proof.
  intros Hsel Hstart Hsteps.
  pose proof (start_state chunk text input_path fs0 selected st0 Hsel Hstart)
    as Hst0.
  assert (Hs : settle_inv st).
  { eapply settle_inv_steps; [|exact Hsteps]. rewrite Hst0.
    apply settle_inv_start. }
  unfold settle_inv in Hs.
  assert (Hdone : Forall (fun t => t_prog t = Ret tt -> settled (st_trace st) t)
                         (st_tasks st)).
  { eapply Forall_impl; [exact Hs|]. intros t [H|H] Hp; [done|].
    rewrite Hp in H. done. }
  split; [exact Hdone|].
  intros Hbook c start stop title i chunk_text Hc Hi.
  destruct (fs0 !! joinpath (parent input_path) (speech_name title i))
    as [data|] eqn:Efile.
  { left. eapply run_keeps_files; [exact Hsel|exact Hstart|exact Hsteps|].
    by rewrite Efile. }
  destruct (start_chapters_complete chunk fs0 (parent input_path) text
              selected 0 c start stop title Hc) as [_ Hrest].
  destruct (Hrest i chunk_text Hi) as [Htask _]. specialize (Htask Efile).
  cbn [Nat.add] in Htask. rewrite <- Hst0 in Htask.
  pose proof (run_inv chunk text input_path fs0 selected st0 Hsel Hstart
                st Hsteps) as [Hfs _ Hids _ _].
  assert (Hid : (c, i, chunk_text,
                 joinpath (parent input_path) (speech_name title i))
                ∈ (task_id_of <$> st_tasks st)).
  { rewrite Hids. apply list_elem_of_fmap. eexists. split; [|exact Htask].
    done. }
  apply list_elem_of_fmap in Hid as (t & Hid & Ht).
  unfold task_id_of in Hid. injection Hid as Hc' Hi' Hch Hf.
  pose proof (book_returned_tasks chunk text input_path fs0 selected st0 st
                Hsel Hstart Hsteps Hbook) as Hret.
  rewrite Forall_forall in Hret, Hdone.
  destruct (Hdone t Ht (Hret t Ht)) as [[r Hr]|Hfail].
  - left. rewrite Hfs. rewrite <- Hf in Hr.
    apply (apply_events_written _ _ (EvAudio (joinpath (parent input_path)
                                                (speech_name title i)) r));
      [|reflexivity].
    apply list_elem_of_fmap.
    exists (OChunk c i, EvAudio (joinpath (parent input_path)
                                   (speech_name title i)) r).
    split; [reflexivity|]. unfold task_origin in Hr.
    by rewrite <- Hc', <- Hi' in Hr.
  - right. unfold task_origin in Hfail.
    rewrite <- Hc', <- Hi', <- Hf, name_joinpath in Hfail. exact Hfail.
Qed.

(** ** A run to the end *)

Lemma answering_never_cancels (audio : list N) : never_cancels (answering audio).
Proof. by split. Qed.

Lemma final_result_returned (p : prog unit) :
  final_result p = Some (Returned tt) -> p = Ret tt.
Proof. destruct p as [[]| | | | | | |]; by intros [=]. Qed.

(** One after the other, the tasks from position [j] on run to their end
    against a service that answers. *)
Lemma run_all_tasks (audio : list N) m :
  forall st j,
    length (st_tasks st) = (j + m)%nat ->
    (forall n t, (j <= n)%nat -> st_tasks st !! n = Some t ->
       fresh t /\ exists dir title i, t_file t = joinpath dir (speech_name title i)) ->
    exists st',
      steps st st' /\
      st_chapters st' = st_chapters st /\
      length (st_tasks st') = length (st_tasks st) /\
      (forall n t, (n < j)%nat -> st_tasks st !! n = Some t ->
         st_tasks st' !! n = Some t) /\
      (forall n t, (j <= n)%nat -> st_tasks st !! n = Some t ->
         st_tasks st' !! n = Some (set_prog t (Ret tt)) /\
         is_Some (st_fs st' !! t_file t)) /\
      (forall q, is_Some (st_fs st !! q) -> is_Some (st_fs st' !! q)) /\
      (Forall (fun x => clean_event audio (snd x)) (st_trace st) ->
       Forall (fun x => clean_event audio (snd x)) (st_trace st')).
Proof.
  induction m as [|m IH]; intros st j Hlen Hfresh.
  - exists st. split; [constructor|]. split; [done|]. split; [done|].
    split; [done|]. split; [|done].
    intros n t Hn Ht. apply lookup_lt_Some in Ht. lia.
  - assert (Hj : is_Some (st_tasks st !! j)) by (apply lookup_lt_is_Some; lia).
    destruct Hj as [t Ht].
    destruct (Hfresh j t (le_n j) Ht) as [Hp (dir & title & i & Hfile)].
    unfold fresh in Hp.
    assert (Hrun :
      exec (answering audio) (t_prog t) 0 (st_fs st)
      = Run (Returned tt)
            (<[t_file t := audio]>
               (<[joinpath dir (text_name title i) := t_chunk t]> (st_fs st)))
            (EvEcho (MsgProcessingChunk (name (t_file t))) ::
             EvWriteText (joinpath dir (text_name title i)) (t_chunk t) ::
             repeat_events 0 (limited_attempt (t_chunk t) (t_file t)
                                              default_retry_delay) ++
             [EvRequest tts_model tts_voice (t_chunk t);
              EvAudio (t_file t) audio;
              EvEcho (MsgCompletedChunk (name (t_file t)))])).
    { rewrite Hp. unfold _process_chunk.
      apply process_chunk_success_run; try done.
      - rewrite Hfile. apply with_suffix_speech.
      - intros k Hk. lia.
      - unfold default_max_retries. lia. }
    destruct (exec_in_pool (answering audio) st j t
                (answering_never_cancels audio) Ht)
      as (p & Hfinal & Hsteps).
    { by rewrite Hp. }
    { by rewrite Hp. }
    rewrite Hrun in Hfinal, Hsteps. cbn [run_result run_fs run_events] in *.
    apply final_result_returned in Hfinal. subst p.
    set (st1 := State _ _ _ _) in Hsteps.
    destruct (IH st1 (S j))
      as (st' & Hs' & Hch & Hlen' & Hlow & Hhigh & Hkeep & Hclean).
    { cbn [st1 st_tasks]. rewrite length_insert. lia. }
    { intros n t' Hn Ht'. cbn [st1 st_tasks] in Ht'.
      rewrite list_lookup_insert_ne in Ht' by lia. apply (Hfresh n); [lia|done]. }
    exists st'. split; [by eapply steps_trans|]. split; [done|].
    split; [by rewrite Hlen'; cbn [st1 st_tasks]; rewrite length_insert|].
    split; [|split; [|split]].
    + intros n t' Hn Ht'. apply Hlow; [lia|]. cbn [st1 st_tasks].
      by rewrite list_lookup_insert_ne by lia.
    + intros n t' Hn Ht'. destruct (decide (n = j)) as [->|Hne].
      * rewrite Ht in Ht'. inversion Ht'; subst t'. split.
        -- apply Hlow; [lia|]. cbn [st1 st_tasks].
           apply list_lookup_insert_eq. by eapply lookup_lt_Some.
        -- apply Hkeep. cbn [st1 st_fs]. rewrite lookup_insert_eq. eauto.
      * apply Hhigh; [lia|]. cbn [st1 st_tasks].
        by rewrite list_lookup_insert_ne by lia.
    + intros q Hq. apply Hkeep. cbn [st1 st_fs].
      rewrite !lookup_insert. repeat case_decide; eauto.
    + intros Htr. apply Hclean. cbn [st1 st_trace]. apply Forall_app.
      split; [done|]. unfold tag. apply Forall_fmap.
      cbn [repeat_events app]. by repeat constructor.
Qed.

Lemma join_all m :
  forall st c,
    length (st_chapters st) = (c + m)%nat ->
    Forall (fun t => is_returned (t_prog t) = true) (st_tasks st) ->
    (forall n s, (c <= n)%nat -> st_chapters st !! n = Some s ->
       snd s = ChJoining) ->
    (forall n s, (n < c)%nat -> st_chapters st !! n = Some s ->
       snd s = ChReturned) ->
    exists st',
      steps st st' /\ st_fs st' = st_fs st /\ st_tasks st' = st_tasks st /\
      Forall (fun s => snd s = ChReturned) (st_chapters st') /\
      (forall audio,
          Forall (fun x => clean_event audio (snd x)) (st_trace st) ->
          Forall (fun x => clean_event audio (snd x)) (st_trace st')).
Proof.
  induction m as [|m IH]; intros st c Hlen Hret Hjoin Hdone.
  - exists st. split; [constructor|]. split; [done|]. split; [done|].
    split; [|done]. apply Forall_lookup. intros n s Hs. apply (Hdone n); [|done].
    apply lookup_lt_Some in Hs. lia.
  - assert (Hc : is_Some (st_chapters st !! c))
      by (apply lookup_lt_is_Some; lia).
    destruct Hc as [[title status] Hc].
    pose proof (Hjoin c _ (le_n c) Hc) as Hst. cbn in Hst. subst status.
    assert (Hall : all_returned c (st_tasks st)).
    { unfold all_returned. apply Forall_forall. intros t Ht.
      apply tasks_of_elem in Ht as [_ Ht].
      rewrite Forall_forall in Hret. by apply Hret. }
    pose proof (step_join_return st c title Hc Hall) as Hstep.
    set (st1 := State _ _ _ _) in Hstep.
    destruct (IH st1 (S c)) as (st' & Hs' & Hfs & Hts & Hch & Hclean).
    + cbn [st1 st_chapters]. rewrite length_insert. lia.
    + done.
    + intros n s Hn Hs. cbn [st1 st_chapters] in Hs.
      rewrite list_lookup_insert_ne in Hs by lia. apply (Hjoin n); [lia|done].
    + intros n s Hn Hs. cbn [st1 st_chapters] in Hs.
      destruct (decide (n = c)) as [->|Hne].
      * rewrite list_lookup_insert_eq in Hs by lia. by inversion Hs.
      * rewrite list_lookup_insert_ne in Hs by done.
        apply (Hdone n); [lia|done].
    + exists st'. split.
      { eapply steps_trans; [|exact Hs'].
        eapply steps_step; [constructor|done]. }
      split; [done|]. split; [done|]. split; [done|].
      intros audio Htr. apply Hclean. cbn [st1 st_trace]. apply Forall_app.
      split; [done|]. by repeat constructor.
Qed.

Lemma all_returned_book chapters :
  Forall (fun s : str * chapter_status => snd s = ChReturned) chapters ->
  existsb (fun s => match snd s with ChJoining => true | _ => false end)
          chapters = false /\
  omap chapter_raised chapters = [].
Proof.
  induction 1 as [|[title status] l Hs _ [IH1 IH2]]; [done|].
  cbn in Hs. subst status. cbn. by rewrite IH1, IH2.
Qed.

(** X16. Every book that starts can be run to its end, on a file system
    that takes the paths of its chunks. For a service that answers every
    request with the bytes [audio] there is a run in which every chunk
    task returns, every chapter returns and the book returns; every path
    the run writes to, a text file or an audio file, is one the file
    system takes, so that no write is refused; at the end every chunk of
    every selected chapter has its audio file, and every file that was
    there at the start is still there; the run prints no failure and no
    rate-limit message, sleeps never, and every audio file it writes holds
    [audio]. The states in which the book has returned are thus reached
    for every such text whose last heading is not selected. *)
Theorem every_book_can_be_completed
    accepts chunk text input_path fs0 selected st0 (audio : list N) :
  select_chapters (find_chapters text) = Ok selected ->
  _process_book chunk text input_path fs0 = Ok st0 ->
  book_fits accepts chunk text (parent input_path) selected ->
  exists st,
    steps st0 st /\
    book_outcome st = Some BookReturned /\
    Forall (fun t => t_prog t = Ret tt) (st_tasks st) /\
    (forall o ev p,
        (o, ev) ∈ st_trace st -> target ev = Some p -> accepts p = true) /\
    (forall c start stop title i chunk_text,
        selected !! c = Some (start, stop, title) ->
        chunk (slice text start stop) !! i = Some chunk_text ->
        is_Some (st_fs st !! joinpath (parent input_path)
                                      (speech_name title i))) /\
    (forall q, is_Some (fs0 !! q) -> is_Some (st_fs st !! q)) /\
    Forall (fun x => clean_event audio (snd x)) (st_trace st).
Proof.
  intros Hsel Hstart Hfits.
  pose proof (start_state chunk text input_path fs0 selected st0 Hsel Hstart)
    as Hst0.
  destruct (start_chapters_spec chunk fs0 (parent input_path) text selected 0)
    as (Hfs0 & _ & Hch0 & Hts0).
  rewrite <- Hst0 in Hfs0, Hch0, Hts0.
  destruct (run_all_tasks audio (length (st_tasks st0)) st0 0)
    as (st1 & Hs1 & Hch1 & Hlen1 & _ & Hdone1 & Hkeep1 & Hclean1).
  { done. }
  { intros n t _ Ht.
    destruct (Forall_lookup_1 _ _ _ _ Hts0 Ht)
      as (start & stop & title & _ & _ & Htask).
    destruct Htask as (_ & _ & Hf & _ & Hp). split; [exact Hp|eauto]. }
  assert (Hret1 : Forall (fun t => t_prog t = Ret tt) (st_tasks st1)).
  { apply Forall_lookup. intros n t Ht.
    assert (Hn : is_Some (st_tasks st0 !! n)).
    { apply lookup_lt_is_Some. rewrite <- Hlen1. by eapply lookup_lt_Some. }
    destruct Hn as [t0 Ht0].
    destruct (Hdone1 n t0 (Nat.le_0_l n) Ht0) as [Ht1 _].
    rewrite Ht in Ht1. by inversion Ht1. }
  destruct (join_all (length (st_chapters st1)) st1 0)
    as (st2 & Hs2 & Hfs2 & Hts2 & Hch2 & Hclean2).
  { done. }
  { eapply Forall_impl; [exact Hret1|]. by intros t ->. }
  { intros n s _ Hs. rewrite Hch1, Hch0, list_lookup_fmap in Hs.
    destruct (selected !! n); cbn in Hs; [|done]. by inversion Hs. }
  { intros n s Hn. lia. }
  assert (Hsteps : steps st0 st2) by (by eapply steps_trans).
  exists st2. split; [exact Hsteps|].
  split; [|split; [by rewrite Hts2|split; [|split; [|split]]]].
  - unfold book_outcome. by destruct (all_returned_book _ Hch2) as [-> ->].
  - intros o ev p Hin Ht.
    destruct (write_event_path chunk text input_path fs0 selected st0 Hsel
                Hstart st2 o ev p Hsteps Hin Ht)
      as (c & i & start & stop & title & chunk_text & _ & Hc & Hi & _ & Hp).
    destruct (Hfits _ _ _ _ _ _ Hc Hi) as [Hs Ht'].
    by destruct Hp as [[_ ->]|[_ ->]].
  - intros c start stop title i chunk_text Hc Hi. rewrite Hfs2.
    destruct (fs0 !! joinpath (parent input_path) (speech_name title i))
      as [data|] eqn:Efile.
    + apply Hkeep1. rewrite Hfs0, Efile. eauto.
    + destruct (start_chapters_complete chunk fs0 (parent input_path) text
                  selected 0 c start stop title Hc) as [_ Hrest].
      destruct (Hrest i chunk_text Hi) as [Htask _]. specialize (Htask Efile).
      cbn [Nat.add] in Htask. rewrite <- Hst0 in Htask.
      apply list_elem_of_lookup_1 in Htask as [n Hn].
      destruct (Hdone1 n _ (Nat.le_0_l n) Hn) as [_ Hfile]. exact Hfile.
  - intros q Hq. rewrite Hfs2. apply Hkeep1. by rewrite Hfs0.
  - apply Hclean2, Hclean1. rewrite Hst0.
    eapply Forall_impl; [apply start_chapters_messages|].
    intros x (c & _ & [[title ->]|[p ->]]); done.
Qed.

(** ** A path the file system refuses *)

(** X17. The loop of lines 49-55 at a path the file system refuses. When
    the chunk [i] is the first whose audio path is refused, the [exists()]
    of line 52 raises [OSError] for it: the loop ends there, having done
    for the chunks before [i] what it does without the exception, and no
    task is created for the chunk [i] or for a later one, whether its
    audio file is missing or not. Under the limit of 255 bytes on a name,
    the name of a chunk is at least ten characters longer than the title:
    the names of the first thousand chunks of a title of at most 245
    characters are within the limit, and for a title of more than 245
    characters every name is beyond it, so the loop raises at its first
    chunk, after the message of the chapter and without any task. *)
Theorem long_name_raises
    accepts chunk fs c chapter_text title dir i chunk_text :
  chunk chapter_text !! i = Some chunk_text ->
  accepts (joinpath dir (speech_name title i)) = false ->
  (forall j, (j < i)%nat ->
     accepts (joinpath dir (speech_name title j)) = true) ->
  (exists evs tasks,
     _process_chapter_os accepts chunk fs c chapter_text title dir
     = (EvEcho (MsgProcessingChapter title) :: evs, tasks, Some os_error) /\
     (evs, tasks)
     = spawn_loop fs c title dir (enumerate (take i (chunk chapter_text))) /\
     Forall (fun t => (t_index t < i)%nat) tasks) /\
  (forall j, (length title <= 245)%nat -> (j < 1000)%nat ->
     name_fits (joinpath dir (speech_name title j)) = true) /\
  ((245 < length title)%nat ->
   (forall j, name_fits (joinpath dir (speech_name title j)) = false) /\
   _process_chapter_os name_fits chunk fs c chapter_text title dir
   = ([EvEcho (MsgProcessingChapter title)], [], Some os_error)).
Proof.
  intros Hi Hlong Hpre. split; [|split].
  - destruct (spawn_loop_os_long accepts fs c title dir (chunk chapter_text)
                0 i chunk_text Hi Hlong Hpre) as (evs & tasks & Hos & Heq).
    exists evs, tasks. unfold _process_chapter_os, enumerate.
    rewrite Hos. split; [done|]. split; [exact Heq|].
    symmetry in Heq.
    destruct (spawn_loop_tasks fs dir c title _ 0 evs tasks Heq) as [_ Hts].
    eapply Forall_impl; [exact Hts|]. intros t (_ & _ & Hl & _).
    apply lookup_lt_Some in Hl. rewrite length_take in Hl. lia.
  - intros j Hlen Hj. by apply short_title_fits.
  - intros Hlen. split; [intros j; by apply long_title_does_not_fit|].
    assert (H0 : is_Some (chunk chapter_text !! 0%nat)).
    { apply lookup_lt_is_Some. apply lookup_lt_Some in Hi. lia. }
    destruct H0 as [x Hx].
    destruct (spawn_loop_os_long name_fits fs c title dir (chunk chapter_text)
                0 0 x Hx) as (evs & tasks & Hos & Heq).
    + by apply long_title_does_not_fit.
    + intros j Hj. lia.
    + unfold _process_chapter_os, enumerate. rewrite Hos.
      cbn [take enumerate_from spawn_loop] in Heq. by inversion Heq.
Qed.

(** ** The further properties at worked inputs *)

(** X4 at a concrete input: the first heading of [example_text]. *)
Lemma chapter_end_never_sentinel_witness :
  chapter_end (find_chapters example_text) 0 <> Ok (-1) /\
  chapter_end (find_chapters example_text) 0 = Ok 33.
Proof.
  split; [|vm_compute; reflexivity].
  apply (chapter_end_never_sentinel example_text 0).
  vm_compute. lia.
Defined.

(** X5 at a concrete input: [intro_text] and an empty file system. *)
Lemma nothing_selected_nothing_done_witness :
  _process_book one_chunk intro_text example_input ∅ = Ok (State ∅ [] [] []).
Proof.
  apply (nothing_selected_nothing_done one_chunk intro_text example_input ∅).
  intros o title Hin.
  change (find_chapters intro_text) with [(0, lit "Intro")] in Hin.
  apply list_elem_of_singleton in Hin. injection Hin as -> ->. reflexivity.
Defined.

(** X6 at a concrete input: the first chapter of [example_text]. *)
Lemma chapter_text_begins_with_heading_witness :
  exists ws rest,
    slice example_text 8 33 = hash :: ws ++ lit "Chapter 1" ++ rest.
Proof.
  destruct (chapter_text_begins_with_heading example_text example_selected
              8 33 (lit "Chapter 1") example_text_selected)
    as (_ & _ & _ & ws & rest & H & _).
  - left.
  - exists ws, rest. exact H.
Defined.

(** X7 at a concrete input: the first run of [example_text] leaves the
    input file alone. *)
Lemma writes_stay_in_place_witness :
  st_fs first_end !! example_input = (∅ : filesystem) !! example_input.
Proof.
  destruct (writes_stay_in_place one_chunk example_text example_input ∅
              example_selected first_start first_end)
    as (_ & _ & H).
  - exact example_text_selected.
  - exact (example_book ∅).
  - apply ran_steps. vm_compute. reflexivity.
  - apply H. intros [rest Hrest]. vm_compute in Hrest. discriminate Hrest.
Defined.

(** X8 at a concrete input: the request of the first chunk in the first
    run of [example_text]. *)
Lemma requests_send_chapter_chunks_witness :
  exists c i start stop title,
    OChunk 0 0 = OChunk c i /\
    example_selected !! c = Some (start, stop, title) /\
    one_chunk (slice example_text start stop) !! i
    = Some (slice example_text 8 33).
Proof.
  destruct (requests_send_chapter_chunks one_chunk example_text example_input
              ∅ example_selected first_start first_end (OChunk 0 0)
              tts_model tts_voice (slice example_text 8 33))
    as (_ & _ & c & i & start & stop & title & Ho & Hc & Hi & _).
  - exact example_text_selected.
  - exact (example_book ∅).
  - apply ran_steps. vm_compute. reflexivity.
  - apply (list_elem_of_lookup_2 _ 4%nat). vm_compute. reflexivity.
  - exists c, i, start, stop, title. split; [exact Ho|]. split; [exact Hc|].
    exact Hi.
Defined.

(** X9 at a concrete input: two rate limits, then the audio. *)
Lemma process_chunk_succeeds_after_rate_limits_witness :
  let out := exec limited_twice
               (_process_chunk (lit "Hello world.") example_file
                               default_max_retries default_retry_delay) 0 ∅ in
  run_result out = Returned tt /\
  requests (run_events out) = 3%nat /\
  run_fs out
  = <[example_file := example_audio]>
      (<[joinpath example_dir (text_name (lit "Chapter 1") 0)
         := lit "Hello world."]> ∅).
Proof.
  destruct (process_chunk_succeeds_after_rate_limits limited_twice 10
              (lit "Hello world.") example_file
              (joinpath example_dir (text_name (lit "Chapter 1") 0))
              default_max_retries default_retry_delay ∅ example_audio 2)
    as (H1 & _ & H3 & H4 & _).
  - apply with_suffix_speech.
  - intros j Hj. left. destruct j as [|[|j]]; [reflexivity|reflexivity|lia].
  - reflexivity.
  - reflexivity.
  - unfold default_max_retries. lia.
  - lia.
  - split; [exact H1|]. split; [exact H4|exact H3].
Defined.

(** X10 at a concrete input: no attempt allowed. *)
Lemma process_chunk_without_retries_witness :
  exec limited_twice
       (_process_chunk (lit "Hello world.") example_file 0
                       default_retry_delay) 0 ∅
  = Run (Returned tt)
        (<[joinpath example_dir (text_name (lit "Chapter 1") 0)
           := lit "Hello world."]> ∅)
        [EvEcho (MsgProcessingChunk (name example_file));
         EvWriteText (joinpath example_dir (text_name (lit "Chapter 1") 0))
                     (lit "Hello world.");
         EvEcho (MsgFailedChunk (name example_file))].
Proof.
  apply (process_chunk_without_retries limited_twice (Z.to_nat 0)
           (lit "Hello world.") example_file
           (joinpath example_dir (text_name (lit "Chapter 1") 0))
           0 default_retry_delay 0 ∅).
  - apply with_suffix_speech.
  - lia.
Defined.

(** X12 at a concrete input: the start of [example_text], with no file
    there. *)
Lemma every_missing_chunk_gets_one_task_witness :
  st_fs first_start = ∅ /\
  NoDup (task_origin <$> st_tasks first_start).
Proof.
  destruct (every_missing_chunk_gets_one_task name_fits one_chunk
              example_text example_input ∅ example_selected first_start)
    as (H1 & H2 & _).
  - exact example_text_selected.
  - exact (example_book ∅).
  - exact example_book_fits.
  - split; [exact H1|exact H2].
Defined.

(** X13 at a concrete input: the first chapter has returned at the end of
    the first run of [example_text]. *)
Lemma chapters_complete_after_their_tasks_witness :
  (OChapter 0, EvEcho (MsgCompletedChapter (lit "Chapter 1")))
    ∈ st_trace first_end /\
  all_returned 0 (st_tasks first_end).
Proof.
  destruct (chapters_complete_after_their_tasks name_fits one_chunk
              example_text example_input ∅ example_selected first_start first_end)
    as (_ & H1 & H2 & _).
  - exact example_text_selected.
  - exact (example_book ∅).
  - exact example_book_fits.
  - apply ran_steps. vm_compute. reflexivity.
  - assert (Hc : st_chapters first_end !! 0%nat
                 = Some (lit "Chapter 1", ChReturned))
      by (vm_compute; reflexivity).
    split; [apply H1; exact Hc|exact (H2 _ _ Hc)].
Defined.

(** X14 at a concrete input: the second run of [example_text], in which
    the chunk of the second chapter is limited once. *)
Lemma chunks_stay_within_budget_witness :
  (requests (events_of (OChunk 1 0) (st_trace second_end)) <= 10)%nat /\
  requests (events_of (OChunk 1 0) (st_trace second_end)) = 2%nat.
Proof.
  destruct (chunks_stay_within_budget one_chunk example_text example_input
              (st_fs first_end) example_selected second_start second_end)
    as (H & _).
  - exact example_text_selected.
  - exact (example_book (st_fs first_end)).
  - apply ran_steps. vm_compute. reflexivity.
  - split; [exact (proj1 (H 1%nat 0%nat))|]. vm_compute. reflexivity.
Defined.

(** X15 at a concrete input: the first chunk at the end of the first run
    of [example_text]. *)
Lemma returned_chunks_are_settled_witness :
  (exists r, (OChunk 0 0, EvAudio example_file r) ∈ st_trace first_end) \/
  (OChunk 0 0, EvEcho (MsgFailedChunk (name example_file)))
    ∈ st_trace first_end.
Proof.
  destruct (returned_chunks_are_settled one_chunk example_text example_input
              ∅ example_selected first_start first_end)
    as (H & _).
  - exact example_text_selected.
  - exact (example_book ∅).
  - apply ran_steps. vm_compute. reflexivity.
  - assert (Ht : st_tasks first_end !! 0%nat
                 = Some (Task 0 0 (slice example_text 8 33) example_file
                              (Ret tt)))
      by (vm_compute; reflexivity).
    exact (Forall_lookup_1 _ _ _ _ H Ht eq_refl).
Defined.

(** X16 at a concrete input: the book [example_text] with no file there,
    and a service that answers with [example_audio]. *)
Lemma every_book_can_be_completed_witness :
  exists st,
    steps first_start st /\ book_outcome st = Some BookReturned /\
    is_Some (st_fs st !! example_file).
Proof.
  destruct (every_book_can_be_completed name_fits one_chunk example_text
              example_input ∅ example_selected first_start example_audio
              example_text_selected (example_book ∅) example_book_fits)
    as (st & H1 & H2 & _ & _ & H5 & _).
  exists st. split; [exact H1|]. split; [exact H2|].
  apply (H5 0%nat 8 33 (lit "Chapter 1") 0%nat (slice example_text 8 33));
    reflexivity.
Defined.

(** X17 at a concrete input: a chapter under [long_title], of 248
    characters, with one chunk, and the limit of 255 bytes. *)
Lemma long_name_raises_witness :
  _process_chapter_os name_fits one_chunk ∅ 0 (lit "Hello.") long_title
                      example_dir
  = ([EvEcho (MsgProcessingChapter long_title)], [], Some os_error).
Proof.
  destruct (long_name_raises name_fits one_chunk ∅ 0 (lit "Hello.")
              long_title example_dir 0 (lit "Hello."))
    as (_ & _ & H3).
  - reflexivity.
  - vm_compute. reflexivity.
  - intros j Hj. lia.
  - apply H3. vm_compute. lia.
Defined.
